(** * FiniteMDP: tabular solution methods for finite Markov decision processes

    A shallow embedding of [FiniteMDP.py] (class [FiniteMDP]) and the
    properties of its dynamic-programming and Q-learning routines.

    Conventions of the embedding.
    - The dynamic-programming loops ([compute_state_values],
      [compute_optimal_state_values], [compute_optimal_action_values]) stop
      on a comparison of accumulated floating-point differences with
      [1e-4], so what they return, after how many passes, and whether they
      return at all depends on the arithmetic of the cells.  They are
      written once over the interface [Num] of the operations the loops
      perform on a cell and read at two arithmetics: IEEE-754 binary64
      ([spec_float] of [SpecFloat], round to nearest even, the arithmetic
      of numpy's float64) and the exact rationals [Q].  Statements that
      hold for every arithmetic are proved over the interface; statements
      about the exact sums and maxima the passes approximate are stated for
      [Q] and say so; concrete runs are evaluated in binary64.  [np.sum] is
      numpy's pairwise summation, in the order numpy adds.
    - The Q-learning routines, the policy extraction and the rollout driver
      are read over exact rational cells ([Q], compared with [==]): their
      theorems transcribe the expressions the program evaluates.  The one
      routine among them whose behaviour hinges on the precision of the
      cells (the weight shift by [1e-30] of the rollout driver) is written
      over a small numeric interface and instantiated both at [Q] and at
      binary64.
    - Python exceptions are values of [exn]; a computation that may raise
      returns a [res].  The [while True] loops take a fuel argument and
      return [None] only when the fuel runs out.
    - The random generators ([np.random], [random.choices]) are replaced by
      explicit draws handed to the routine that consumes them.
    - The environment is the gym-like object the class is given: an
      interface record over the environment's own state type. *)

From Stdlib Require Import String QArith Qabs Qminmax Lia Lqa ZArith Bool SpecFloat.
From stdpp Require Import base list.

Local Open Scope Q_scope.

(** ** Python values and exceptions *)

Inductive exn : Type :=
| IndexError
| ValueError
| AssertionError (msg : option string)
| ZeroDivisionError
| TypeError.

Inductive res (T : Type) : Type :=
| Ok (x : T)
| Raise (e : exn).
Arguments Ok {T} x.
Arguments Raise {T} e.

#[export] Instance res_ret : MRet res := fun _ x => Ok x.
#[export] Instance res_bind : MBind res := fun _ _ k c =>
  match c with
  | Ok x => k x
  | Raise e => Raise e
  end.

(** What a Python call hands back to its caller. *)
Inductive pyval : Type :=
| PyNone
| PyFloat (x : Q).

(** ** numpy helpers over exact cells *)

Definition Qltb (x y : Q) : bool := negb (Qle_bool y x).

(** [np.sum] of a one-dimensional array, accumulated from [0]. *)
Definition np_sum (l : list Q) : Q := fold_left Qplus l 0.

(** [np.max] / builtin [max] of a sequence: a left-to-right scan that keeps
    the running maximum; both raise [ValueError] on an empty sequence. *)
Definition scan_max (x : Q) (l : list Q) : Q :=
  fold_left (fun m y => if Qltb m y then y else m) l x.

Definition np_max (l : list Q) : res Q :=
  match l with
  | [] => Raise ValueError
  | x :: t => Ok (scan_max x t)
  end.

(** [np.min] of a one-dimensional array. *)
Definition scan_min (x : Q) (l : list Q) : Q :=
  fold_left (fun m y => if Qltb y m then y else m) l x.

Definition np_min (l : list Q) : res Q :=
  match l with
  | [] => Raise ValueError
  | x :: t => Ok (scan_min x t)
  end.

(** Value tables.  A vector has one cell per state, a matrix one row per
    state and one cell per action. *)
Abbreviation vector := (list Q).
Abbreviation matrix := (list (list Q)).

Definition shape (m : matrix) (nS nA : nat) : Prop :=
  length m = nS /\ Forall (fun row => length row = nA) m.

(** Reads that the loops below only perform inside the table's bounds
    (every index comes from a [range] over the table's own shape). *)
Definition vget (v : vector) (i : nat) : Q := default 0 (v !! i).
Definition mget (m : matrix) (s a : nat) : Q :=
  default 0 (row ← m !! s; row !! a).

(** Checked reads and writes, as numpy performs them on an index that is
    computed at run time: out of range raises [IndexError]. *)
Definition row_at (m : matrix) (s : nat) : res (list Q) :=
  match m !! s with
  | Some row => Ok row
  | None => Raise IndexError
  end.

Definition cell_at (m : matrix) (s a : nat) : res Q :=
  row ← row_at m s;
  match row !! a with
  | Some x => Ok x
  | None => Raise IndexError
  end.

Definition mset (m : matrix) (s a : nat) (x : Q) : matrix :=
  match m !! s with
  | Some row => <[s := <[a := x]> row]> m
  | None => m
  end.

Definition cell_set (m : matrix) (s a : nat) (x : Q) : res matrix :=
  _ ← cell_at m s a;
  Ok (mset m s a x).

(** [np.zeros]. *)
Definition zeros (n : nat) : vector := replicate n 0.
Definition zeros2 (nS nA : nat) : matrix := replicate nS (zeros nA).

(** The 3-D tensors of the environment ([nextStateProbability] and
    [rewardsTable]): the declared shape and the cell at each index. *)
Record tensor3 : Type := Tensor3 {
  t_shape : nat * nat * nat;
  t_cell : nat -> nat -> nat -> Q
}.

Definition tensor_at (t : tensor3) (s a s' : nat) : res Q :=
  let '(d0, d1, d2) := t_shape t in
  if (s <? d0)%nat && (a <? d1)%nat && (s' <? d2)%nat
  then Ok (t_cell t s a s')
  else Raise IndexError.

(** ** The environment the class is given *)

(** gym spaces: the class accepts [Discrete] only. *)
Inductive space : Type :=
| Discrete (n : nat)
| Box (low high : Q) (dims : list nat)
| MultiDiscrete (nvec : list nat)
| MultiBinary (n : nat).

Definition is_Discrete (sp : space) : bool :=
  match sp with
  | Discrete _ => true
  | _ => false
  end.

Definition space_n (sp : space) : nat :=
  match sp with
  | Discrete n => n
  | _ => 0%nat
  end.

(** What [environment.step(action)] returns: [(ob, reward, gameOver, history)]. *)
Record step_out (H : Type) : Type := StepOut {
  ob : nat;
  reward : Q;
  gameOver : bool;
  history : H
}.
Arguments StepOut {H} ob reward gameOver history.
Arguments ob {H} s.
Arguments reward {H} s.
Arguments gameOver {H} s.
Arguments history {H} s.

(** The attributes and methods of the environment object that the class
    uses.  [E] is the environment's mutable state (its current state, its own
    random source, ...), [H] the type of the [history] payload. *)
Record Env (E H : Type) : Type := MkEnv {
  action_space : space;
  observation_space : space;
  nextStateProbability : tensor3;
  rewardsTable : tensor3;
  reset : E -> E;
  get_state : E -> nat;
  step : E -> nat -> step_out H * E
}.
Arguments action_space {E H} e.
Arguments observation_space {E H} e.
Arguments nextStateProbability {E H} e.
Arguments rewardsTable {E H} e.
Arguments reset {E H} e _.
Arguments get_state {E H} e _.
Arguments step {E H} e _ _.

(** ** The class: construction *)

(** The fields [__init__] sets.  The environment object is shared, not
    copied: the constructor hands back its state after [reset()]. *)
Record FiniteMDP : Type := MkFiniteMDP {
  mdp_S : nat;
  mdp_A : nat;
  currentObservation : nat;
  currentIteration : nat
}.

Section Construction.
Context {E H : Type} (environment : Env E H).

(** [FiniteMDP.__init__]: two bare [assert isinstance(..., spaces.Discrete)]
    (no message), the sizes read off the two spaces, then
    [environment.reset()].  The tensors are not looked at. *)
Definition init (e : E) : res (FiniteMDP * E) :=
  if negb (is_Discrete (action_space environment)) then Raise (AssertionError None)
  else if negb (is_Discrete (observation_space environment)) then Raise (AssertionError None)
  else
    Ok (MkFiniteMDP (space_n (observation_space environment))
                    (space_n (action_space environment)) 0 0,
        reset environment e).
End Construction.

(** ** The evaluation engine *)

(** [k] applications of a pass [f], the first one to [x]. *)
Fixpoint iterate {A : Type} (f : A -> A) (k : nat) (x : A) : A :=
  match k with
  | O => x
  | S k' => iterate f k' (f x)
  end.

(** The control skeleton the three [while True] loops share: apply the
    pass, stop with the new table and the iteration count as soon as the
    pass changed little, count one more iteration otherwise.  The loops
    below are written out as in the source; each is shown to be an instance
    of this skeleton. *)
Fixpoint until_small {A : Type} (f : A -> A) (small : A -> A -> bool)
    (fuel : nat) (x : A) (iteration : nat) : option (A * nat) :=
  match fuel with
  | O => None
  | S fuel' =>
    let y := f x in
    if small y x then Some (y, iteration)
    else until_small f small fuel' y (S iteration)
  end.

(** *** The cells of the value tables *)

(** The three loops stop on the test [improvement < 1e-4], whose outcome
    depends on how the cells are rounded.  They are therefore written over
    the operations they perform on a cell, and read at two arithmetics:
    IEEE-754 binary64, which is what numpy computes with, and the exact
    rationals, in which the formulas of the specification are written. *)
Class Num (T : Type) : Type := MkNum {
  n_zero : T;
  n_add : T -> T -> T;
  n_sub : T -> T -> T;
  n_mul : T -> T -> T;
  n_abs : T -> T;
  n_ltb : T -> T -> bool;
  n_eqb : T -> T -> bool;
  n_tol : T
}.

(** binary64: 53 bits of precision, exponents up to 1024. *)
Definition b64_prec : Z := 53.
Definition b64_emax : Z := 1024.

(** The double equal to an integer below [2^53] in magnitude, and the
    double nearest to the quotient of two such integers, which is the
    value Python gives to a decimal literal such as [0.9] or [1e-4]. *)
Definition b64_of_Z (z : Z) : spec_float :=
  binary_normalize b64_prec b64_emax z 0 false.

Definition b64_ratio (p q : Z) : spec_float :=
  SFdiv b64_prec b64_emax (b64_of_Z p) (b64_of_Z q).

(** float64 cells; [n_tol] is the literal [1e-4]. *)
#[export] Instance b64_num : Num spec_float := {|
  n_zero := S754_zero false;
  n_add := SFadd b64_prec b64_emax;
  n_sub := SFsub b64_prec b64_emax;
  n_mul := SFmul b64_prec b64_emax;
  n_abs := SFabs;
  n_ltb := SFltb;
  n_eqb := SFeqb;
  n_tol := b64_ratio 1 10000
|}.

(** Exact cells. *)
#[export] Instance Q_num : Num Q := {|
  n_zero := 0;
  n_add := Qplus;
  n_sub := Qminus;
  n_mul := Qmult;
  n_abs := Qabs;
  n_ltb := Qltb;
  n_eqb := Qeq_bool;
  n_tol := 1 # 10000
|}.

Section Tables.
Context {T : Type} `{Num T}.

(** [np.zeros] and the reads the loops perform, all inside the bounds of
    the table (every index comes from a [range] over its shape). *)
Definition nzeros (n : nat) : list T := replicate n n_zero.
Definition nzeros2 (nS nA : nat) : list (list T) := replicate nS (nzeros nA).

Definition nget (v : list T) (i : nat) : T := default n_zero (v !! i).
Definition nget2 (m : list (list T)) (s a : nat) : T :=
  default n_zero (row ← m !! s; row !! a).

Definition nset2 (m : list (list T)) (s a : nat) (x : T) : list (list T) :=
  match m !! s with
  | Some row => <[s := <[a := x]> row]> m
  | None => m
  end.

(** [np.abs(x - y)] for two arrays of one shape. *)
Definition nabs_diff (x y : list T) : list T :=
  zip_with (fun a b => n_abs (n_sub a b)) x y.

(** [np.max] of a list: a scan that keeps the running maximum; it raises
    [ValueError] on an empty list. *)
Definition nscan_max (x : T) (l : list T) : T :=
  fold_left (fun m y => if n_ltb m y then y else m) l x.

Definition nmax (l : list T) : res T :=
  match l with
  | [] => Raise ValueError
  | x :: t => Ok (nscan_max x t)
  end.

(** [np.sum] of an array whose cells are contiguous in memory, in the
    order in which numpy adds the cells (pairwise summation): fewer than
    eight cells are added from the left; up to 128 cells are dealt to
    eight running sums, which are then added in pairs, and the cells left
    over are added from the left; a longer array is cut in two at a
    multiple of eight, and the two sums are added.  The value the
    reduction starts from (a zero) can only change the sign of a zero
    result. *)
Definition sum_left (l : list T) (acc : T) : T := fold_left n_add l acc.

Definition combine8 (r : list T) : T :=
  match r with
  | [r0; r1; r2; r3; r4; r5; r6; r7] =>
    n_add (n_add (n_add r0 r1) (n_add r2 r3))
          (n_add (n_add r4 r5) (n_add r6 r7))
  | _ => n_zero
  end.

Fixpoint accumulate8 (k : nat) (r l : list T) : list T :=
  match k with
  | O => r
  | S k' => accumulate8 k' (zip_with n_add r (take 8 l)) (drop 8 l)
  end.

Definition sum_block (l : list T) : T :=
  let n := length l in
  let m := (n - n mod 8)%nat in
  sum_left (drop m l)
    (combine8 (accumulate8 (m / 8 - 1) (take 8 l) (drop 8 l))).

Fixpoint pairwise_sum (fuel : nat) (l : list T) : T :=
  let n := length l in
  if (n <? 8)%nat then sum_left l n_zero
  else if (n <=? 128)%nat then sum_block l
  else
    match fuel with
    | O => n_zero
    | S fuel' =>
      let n2 := (n / 2 - (n / 2) mod 8)%nat in
      n_add (pairwise_sum fuel' (take n2 l))
            (pairwise_sum fuel' (drop n2 l))
    end.

Definition nsum (l : list T) : T := pairwise_sum (length l) l.
End Tables.

Section DynamicProgramming.
Context {T : Type} `{Num T}.
(** [self.S], [self.A] and the cells of the two tensors of the
    environment, which the sweeps read at indices below [S], [A], [S]. *)
Variables (nS nA : nat).
Variables (P R : nat -> nat -> nat -> T).

(** [np.sum(np.abs(new - old))] for vectors and for matrices (the cells
    of a matrix are contiguous row after row). *)
Definition improvement (new old : list T) : T :=
  nsum (nabs_diff new old).

Definition improvement2 (new old : list (list T)) : T :=
  nsum (concat (zip_with nabs_diff new old)).

(** *** compute_state_values (iterative policy evaluation) *)

(** The body of [for s]: the two inner loops accumulate into [value],
    skipping the actions of probability zero. *)
Definition state_value (policy : nat -> nat -> T) (discountGamma : T)
    (src : list T) (s : nat) : T :=
  fold_left (fun value a =>
    if n_eqb (policy s a) n_zero then value
    else
      fold_left (fun value nexts =>
        let p := P s a nexts in
        let r := R s a nexts in
        n_add value
          (n_mul (n_mul (policy s a) p)
                 (n_add r (n_mul discountGamma (nget src nexts)))))
        (seq 0 nS) value)
    (seq 0 nA) n_zero.

(** One pass of [for s in range(S)], stopped after the first [k] states.
    [src] is bound before the loop to one of the two arrays; with
    [in_place] it is [new_state_values] itself, so each state reads the
    cells the pass has already overwritten. *)
Definition sweep_upto (k : nat) (in_place : bool) (policy : nat -> nat -> T)
    (discountGamma : T) (state_values new_state_values : list T) : list T :=
  fold_left (fun new_state_values s =>
    let src := if in_place then new_state_values else state_values in
    <[s := state_value policy discountGamma src s]> new_state_values)
    (seq 0 k) new_state_values.

Definition sweep (in_place : bool) (policy : nat -> nat -> T)
    (discountGamma : T) (state_values new_state_values : list T) : list T :=
  sweep_upto nS in_place policy discountGamma state_values new_state_values.

(** The [while True] loop.  Both exits leave [state_values] a copy of
    [new_state_values]. *)
Fixpoint state_values_loop (fuel : nat) (in_place : bool)
    (policy : nat -> nat -> T) (discountGamma : T)
    (state_values new_state_values : list T) (iteration : nat)
    : option (list T * nat) :=
  match fuel with
  | O => None
  | S fuel' =>
    let new_state_values :=
      sweep in_place policy discountGamma state_values new_state_values in
    if n_ltb (improvement new_state_values state_values) n_tol
    then Some (new_state_values, iteration)
    else state_values_loop fuel' in_place policy discountGamma
           new_state_values new_state_values (S iteration)
  end.

Definition compute_state_values (fuel : nat) (policy : nat -> nat -> T)
    (in_place : bool) (discountGamma : T) : option (list T * nat) :=
  state_values_loop fuel in_place policy discountGamma
    (nzeros nS) (nzeros nS) 1.

(** *** compute_optimal_state_values (value iteration) *)

(** The inner loop over [nexts] for one pair [(s, a)], given the value
    [next_value nexts] the source uses for the next state. *)
Definition backup (discountGamma : T) (next_value : nat -> T) (s a : nat) : T :=
  fold_left (fun value nexts =>
    let p := P s a nexts in
    let r := R s a nexts in
    n_add value (n_mul p (n_add r (n_mul discountGamma (next_value nexts)))))
    (seq 0 nS) n_zero.

(** [a_candidates] for state [s]. *)
Definition a_candidates (discountGamma : T) (state_values : list T) (s : nat)
    : list T :=
  map (backup discountGamma (nget state_values) s) (seq 0 nA).

Definition optimal_sweep (discountGamma : T)
    (state_values new_state_values : list T) : res (list T) :=
  fold_left (fun acc s =>
    new_state_values ← acc;
    m ← nmax (a_candidates discountGamma state_values s);
    Ok (<[s := m]> new_state_values))
    (seq 0 nS) (Ok new_state_values).

Fixpoint optimal_state_values_loop (fuel : nat) (discountGamma : T)
    (state_values new_state_values : list T) (iteration : nat)
    : option (res (list T * nat)) :=
  match fuel with
  | O => None
  | S fuel' =>
    match optimal_sweep discountGamma state_values new_state_values with
    | Raise e => Some (Raise e)
    | Ok new_state_values =>
      if n_ltb (improvement new_state_values state_values) n_tol
      then Some (Ok (new_state_values, iteration))
      else optimal_state_values_loop fuel' discountGamma
             new_state_values new_state_values (S iteration)
    end
  end.

Definition compute_optimal_state_values (fuel : nat) (discountGamma : T)
    : option (res (list T * nat)) :=
  optimal_state_values_loop fuel discountGamma (nzeros nS) (nzeros nS) 1.

(** *** compute_optimal_action_values (action-value iteration) *)

(** The scan [best_a = -inf; for nexta: if temp > best_a: best_a = temp].
    [None] stands for the initial minus infinity; the scan runs inside
    [for a in range(A)], hence with at least one action, and always ends
    on a cell of the table. *)
Definition best_a (action_values : list (list T)) (nexts : nat) : T :=
  default n_zero
    (fold_left (fun best nexta =>
       let temp := nget2 action_values nexts nexta in
       match best with
       | None => Some temp
       | Some b => if n_ltb b temp then Some temp else Some b
       end) (seq 0 nA) None).

Definition action_sweep (discountGamma : T)
    (action_values new_action_values : list (list T)) : list (list T) :=
  fold_left (fun new_action_values s =>
    fold_left (fun new_action_values a =>
      nset2 new_action_values s a
        (backup discountGamma (best_a action_values) s a))
      (seq 0 nA) new_action_values)
    (seq 0 nS) new_action_values.

Fixpoint optimal_action_values_loop (fuel : nat) (discountGamma : T)
    (action_values new_action_values : list (list T)) (iteration : nat)
    : option (list (list T) * nat) :=
  match fuel with
  | O => None
  | S fuel' =>
    let new_action_values :=
      action_sweep discountGamma action_values new_action_values in
    if n_ltb (improvement2 new_action_values action_values) n_tol
    then Some (new_action_values, iteration)
    else optimal_action_values_loop fuel' discountGamma
           new_action_values new_action_values (S iteration)
  end.

Definition compute_optimal_action_values (fuel : nat) (discountGamma : T)
    : option (list (list T) * nat) :=
  optimal_action_values_loop fuel discountGamma
    (nzeros2 nS nA) (nzeros2 nS nA) 1.

(** *** Notions the properties of the sweeps are stated with *)

(** The terms the two inner loops of policy evaluation add for state [s],
    in the order in which they add them: for each action [a] whose
    probability is not zero and each next state [s'],
    [pi[s,a] * P[s,a,s'] * (R[s,a,s'] + gamma * V[s'])]. *)
Definition evaluation_terms (policy : nat -> nat -> T) (discountGamma : T)
    (V : nat -> T) (s : nat) : list T :=
  flat_map (fun a =>
    if n_eqb (policy s a) n_zero then []
    else map (fun s' =>
           n_mul (n_mul (policy s a) (P s a s'))
                 (n_add (R s a s') (n_mul discountGamma (V s'))))
         (seq 0 nS))
    (seq 0 nA).

(** The absolute differences the convergence test adds, state by state. *)
Definition changes (new old : list T) : list T :=
  map (fun s => n_abs (n_sub (nget new s) (nget old s))) (seq 0 nS).

(** The cell [s'] of the buffer that state [s] reads during a pass:
    with [in_place], the cells below [s] already hold the result of the
    pass and the others still hold what was there before; otherwise all
    cells are those of the previous pass. *)
Definition source_cell (in_place : bool) (policy : nat -> nat -> T)
    (discountGamma : T) (state_values new_state_values : list T)
    (s s' : nat) : T :=
  if in_place
  then if (s' <? s)%nat
       then nget (sweep in_place policy discountGamma
                    state_values new_state_values) s'
       else nget new_state_values s'
  else nget state_values s'.

(** The maximum of a non-empty list (a zero for the empty one, which the
    passes below never meet). *)
Definition nmax_of (l : list T) : T :=
  match l with
  | [] => n_zero
  | x :: t => nscan_max x t
  end.

(** One pass of policy evaluation, of value iteration and of action-value
    iteration as functions of the previous table. *)
Definition evaluation_step (in_place : bool) (policy : nat -> nat -> T)
    (discountGamma : T) (V : list T) : list T :=
  sweep in_place policy discountGamma V V.

Definition optimal_step (discountGamma : T) (V : list T) : list T :=
  map (fun s => nmax_of (a_candidates discountGamma V s)) (seq 0 nS).

Definition action_step (discountGamma : T) (action_values : list (list T))
    : list (list T) :=
  map (fun s =>
         map (backup discountGamma (best_a action_values) s) (seq 0 nA))
      (seq 0 nS).

(** The tables after [k] passes, all from zeros. *)
Definition evaluation_sweeps (in_place : bool) (policy : nat -> nat -> T)
    (discountGamma : T) (k : nat) : list T :=
  iterate (evaluation_step in_place policy discountGamma) k (nzeros nS).

Definition optimal_sweeps (discountGamma : T) (k : nat) : list T :=
  iterate (optimal_step discountGamma) k (nzeros nS).

Definition action_sweeps (discountGamma : T) (k : nat) : list (list T) :=
  iterate (action_step discountGamma) k (nzeros2 nS nA).
End DynamicProgramming.

(** What the passes over zero tables need of the arithmetic: the
    difference of two zeros has absolute value zero, a sum of zeros is
    zero, and zero is below the tolerance.  Both arithmetics have these. *)
Definition zero_laws (T : Type) `{Num T} : Prop :=
  n_abs (n_sub n_zero n_zero) = n_zero /\
  n_add n_zero n_zero = n_zero /\
  n_ltb n_zero n_tol = true.

(** *** The formulas of the specification, in exact arithmetic *)

(** The sum of [f i] over [i] in [range(n)]. *)
Definition Sigma (n : nat) (f : nat -> Q) : Q := np_sum (map f (seq 0 n)).

(** The right-hand side of the evaluation equation at state [s]:
    the sum over [a] of [pi[s,a]] times the sum over [s'] of
    [P[s,a,s'] * (R[s,a,s'] + gamma * V[s'])]. *)
Definition expected_value (nS nA : nat) (P R : nat -> nat -> nat -> Q)
    (policy : nat -> nat -> Q) (discountGamma : Q) (V : nat -> Q) (s : nat)
    : Q :=
  Sigma nA (fun a =>
    policy s a *
    Sigma nS (fun s' => P s a s' * (R s a s' + discountGamma * V s'))).

(** The maximum of a non-empty list of exact cells ([0] for the empty
    one). *)
Definition max_of (l : list Q) : Q :=
  match l with
  | [] => 0
  | x :: t => scan_max x t
  end.

(** *** Inputs in binary64 used to exercise the three loops *)

(** One state and one action, a certain self-loop rewarded [0.0004]. *)
Definition b64_one : spec_float := b64_of_Z 1.
Definition b64_self_P (s a s' : nat) : spec_float := b64_one.
Definition b64_self_R (s a s' : nat) : spec_float := b64_ratio 4 10000.

(** One state with a certain self-loop under each of two actions, both
    rewarded [9e-5]. *)
Definition b64_loop_P (s a s' : nat) : spec_float := b64_one.
Definition b64_loop_R (s a s' : nat) : spec_float := b64_ratio 9 100000.

(** Two states that the only action exchanges; going from state [0] to
    state [1] is rewarded [1e12], going back [-1e12]. *)
Definition swap_P (s a s' : nat) : spec_float :=
  if (s' =? 1 - s)%nat then b64_one else S754_zero false.

Definition swap_R (s a s' : nat) : spec_float :=
  match s, s' with
  | O, S O => b64_of_Z 1000000000000
  | S O, O => b64_of_Z (-1000000000000)
  | _, _ => S754_zero false
  end.

(** ** The control engine: policy extraction *)

(** [np.where(values == x)[0]]: the indices of the cells equal to [x]. *)
Definition where_eq (values : list Q) (x : Q) : list nat :=
  List.filter (fun a => Qeq_bool (vget values a) x) (seq 0 (length values)).

(** The number of columns of a two-dimensional array, as [shape] reports it. *)
Definition columns (m : matrix) : nat :=
  match m with
  | [] => 0%nat
  | row :: _ => length row
  end.

(** [1.0 / len(maxIndices[0])]. *)
Definition uniform_mass (maxIndices : list nat) : Q :=
  1 / inject_Z (Z.of_nat (length maxIndices)).

(** The body of [for s in range(S)] of [convert_action_values_into_policy],
    on the policy built so far. *)
Definition extract_state (action_values : matrix) (acc : res matrix) (s : nat)
    : res matrix :=
  policy ← acc;
  values ← row_at action_values s;
  maxPerState ← np_max values;
  let maxIndices := where_eq values maxPerState in
  Ok (fold_left (fun policy a => mset policy s a (uniform_mass maxIndices))
        maxIndices policy).

(** [convert_action_values_into_policy]: every row of a zero matrix gets
    [1.0 / len(maxIndices[0])] written at the indices of its maxima. *)
Definition convert_action_values_into_policy (action_values : matrix)
    : res matrix :=
  fold_left (extract_state action_values)
    (seq 0 (length action_values))
    (Ok (zeros2 (length action_values) (columns action_values))).

(** ** The rollout driver *)

(** The arithmetic the weight preparation uses on a cell, so that the same
    code can be read with exact cells and with binary64 cells. *)
Class Cell (T : Type) : Type := MkCell {
  c_zero : T;
  c_one : T;
  c_tiny : T;
  c_add : T -> T -> T;
  c_opp : T -> T;
  c_div : T -> T -> T;
  c_ltb : T -> T -> bool;
  c_eqb : T -> T -> bool
}.

(** Exact cells; [c_tiny] is [1e-30].  This is the arithmetic in which the
    shift by [1e-30] does what the comments of the source say; the cells of
    the program are the binary64 cells below, and what depends on the
    values of the weights is stated for those. *)
#[export] Instance Q_cell : Cell Q := {|
  c_zero := 0;
  c_one := 1;
  c_tiny := 1 # 1000000000000000000000000000000;
  c_add := Qplus;
  c_opp := Qopp;
  c_div := Qdiv;
  c_ltb := Qltb;
  c_eqb := Qeq_bool
|}.

(** binary64 cells; [c_tiny] is the double nearest to [1e-30],
    [0x1.4484bfeebc2ap-100]. *)

#[export] Instance b64_cell : Cell spec_float := {|
  c_zero := S754_zero false;
  c_one := S754_finite false 4503599627370496 (-52);
  c_tiny := S754_finite false 5708990770823840 (-152);
  c_add := SFadd b64_prec b64_emax;
  c_opp := SFopp;
  c_div := SFdiv b64_prec b64_emax;
  c_ltb := SFltb;
  c_eqb := SFeqb
|}.

Section Weights.
Context {T : Type} `{Cell T}.

Definition c_sum (l : list T) : T := fold_left c_add l c_zero.

Definition c_min (l : list T) : res T :=
  match l with
  | [] => Raise ValueError
  | x :: t => Ok (fold_left (fun m y => if c_ltb y m then y else m) t x)
  end.

(** The weights handed to the sampler for one policy row, and whether
    they were computed inside the policy (the row is then overwritten:
    [myweights] is a view of [policy[s]] until [np.ones] rebinds it). *)
Record prepared : Type := Prepared {
  weights : list T;
  in_policy : bool
}.

(** Lines 219-230 of [run_MDP_for_given_policy]. *)
Definition prepare_weights (row : list T) : res prepared :=
  let myweights := row in
  let sumWeights := c_sum myweights in
  let '(myweights, view) :=
    if c_eqb sumWeights c_zero
    then (replicate (length myweights) c_one, false)
    else (myweights, true) in
  minWeight ← c_min myweights;
  let myweights :=
    if c_ltb minWeight c_zero
    then map (fun w => c_add w (c_add (c_opp minWeight) c_tiny)) myweights
    else myweights in
  let sumWeights := c_sum myweights in
  Ok (Prepared (map (fun w => c_div w sumWeights) myweights) view).
End Weights.
Arguments prepared T : clear implicits.

(** What the driver prints. *)
Inductive printed (H : Type) : Type :=
| PrintHistory (h : H)
| PrintTotalReward (x : Q).
Arguments PrintHistory {H} h.
Arguments PrintTotalReward {H} x.

(** One turn of the driver as its collaborators saw it: the weights given
    to [choices], the action then sent to [step], and the reward that
    [step] reported. *)
Record call : Type := Call {
  call_weights : list Q;
  call_action : nat;
  call_reward : Q
}.

(** The driver's variables, its standard output, and the calls it made. *)
Record rollout (E H : Type) : Type := Rollout {
  r_env : E;
  r_policy : matrix;
  r_s : nat;
  r_totalReward : Q;
  r_out : list (printed H);
  r_calls : list call
}.
Arguments Rollout {E H} r_env r_policy r_s r_totalReward r_out r_calls.
Arguments r_env {E H} r.
Arguments r_policy {E H} r.
Arguments r_s {E H} r.
Arguments r_totalReward {E H} r.
Arguments r_out {E H} r.
Arguments r_calls {E H} r.

Section Rollout.
Context {E H D : Type} (environment : Env E H).
(** [random.choices(np.arange(self.A), weights=myweights, k=1)[0]], given
    the draw it consumes. *)
Variable choices : nat -> list Q -> D -> res nat.
Variable draws : nat -> D.
Variable mdp : FiniteMDP.

(** One turn of [for it in range(maxNumIterations)]; the boolean tells
    whether the loop goes on ([false] after [break]).  A row of one cell is
    squeezed to a zero-dimensional array, over which [choices] cannot
    iterate. *)
Definition rollout_step (printInfo : bool) (it : nat) (st : rollout E H)
    : res (rollout E H * bool) :=
  row ← row_at (r_policy st) (r_s st);
  w ← prepare_weights row;
  let policy :=
    if in_policy w then <[r_s st := weights w]> (r_policy st)
    else r_policy st in
  action ←
    (if (length row =? 1)%nat then Raise TypeError
     else choices (mdp_A mdp) (weights w) (draws it));
  let '(o, e) := step environment (r_env st) action in
  let out1 := if Qltb (reward o) (-5) then [PrintHistory (history o)] else [] in
  let out2 := if printInfo then [PrintHistory (history o)] else [] in
  Ok (Rollout e policy (get_state environment e)
        (r_totalReward st + reward o)
        (r_out st ++ out1 ++ out2)
        (r_calls st ++ [Call (weights w) action (reward o)]),
      negb (gameOver o)).

Fixpoint rollout_loop (printInfo : bool) (its : list nat) (st : rollout E H)
    : res (rollout E H) :=
  match its with
  | [] => Ok st
  | it :: its' =>
    match rollout_step printInfo it st with
    | Raise e => Raise e
    | Ok (st', true) => rollout_loop printInfo its' st'
    | Ok (st', false) => Ok st'
    end
  end.

(** [run_MDP_for_given_policy]: the value handed back to the caller (the
    function has no [return] statement) and the final state of the run. *)
Definition run_MDP_for_given_policy (policy : matrix) (maxNumIterations : nat)
    (printInfo : bool) (e : E) : res (pyval * rollout E H) :=
  let e := reset environment e in
  let s := get_state environment e in
  st ← rollout_loop printInfo (seq 0 maxNumIterations)
         (Rollout e policy s 0 [] []);
  let out := if printInfo then [PrintTotalReward (r_totalReward st)] else [] in
  Ok (PyNone,
      Rollout (r_env st) (r_policy st) (r_s st) (r_totalReward st)
        (r_out st ++ out) (r_calls st)).
End Rollout.

(** ** The control engine: Q-learning *)

(** The two random numbers one call of [chooseAction] consumes: the uniform
    number in [[0, 1)] behind [np.random.binomial(1, eps)] and the index
    behind [np.random.choice]. *)
Record draw : Type := Draw {
  d_u : Q;
  d_pick : nat
}.

Definition valid_draw (d : draw) : Prop := 0 <= d_u d /\ d_u d < 1.

(** [np.random.binomial(1, p) == 1]: a Bernoulli trial by inversion; numpy
    rejects a [p] outside [[0, 1]]. *)
Definition binomial1 (p : Q) (u : Q) : res bool :=
  if Qltb p 0 || Qltb 1 p then Raise ValueError
  else Ok (Qltb u p).

(** [np.random.choice(l)]: a uniformly drawn position of a non-empty [l]. *)
Definition random_choice (l : list nat) (j : nat) : res nat :=
  match l !! (j mod length l)%nat with
  | Some a => Ok a
  | None => Raise ValueError
  end.

(** [[action_ for action_, value_ in enumerate(values_)
      if value_ == np.max(values_)]]. *)
Definition greedy_actions (values_ : list Q) : list nat :=
  List.filter (fun action_ =>
    match np_max values_ with
    | Ok m => Qeq_bool (vget values_ action_) m
    | Raise _ => false
    end) (seq 0 (length values_)).

Definition chooseAction (mdp : FiniteMDP) (state : nat)
    (stateActionValues : matrix) (explorationProbEpsilon : Q) (d : draw)
    : res nat :=
  explore ← binomial1 explorationProbEpsilon (d_u d);
  if explore : bool then random_choice (seq 0 (mdp_A mdp)) (d_pick d)
  else
    values_ ← row_at stateActionValues state;
    random_choice (greedy_actions values_) (d_pick d).

(** The variables of [q_learning]: the environment, the table it updates
    in place, [currentState], [rewards], and the record of the realized
    transitions [(currentState, currentAction, newState)]. *)
Record episode (E : Type) : Type := Episode {
  q_env : E;
  q_table : matrix;
  q_currentState : nat;
  q_rewards : Q;
  q_transitions : list (nat * nat * nat)
}.
Arguments Episode {E} q_env q_table q_currentState q_rewards q_transitions.
Arguments q_env {E} e.
Arguments q_table {E} e.
Arguments q_currentState {E} e.
Arguments q_rewards {E} e.
Arguments q_transitions {E} e.

Section QLearning.
Context {E H : Type} (environment : Env E H).
Variable mdp : FiniteMDP.

(** The right-hand side of the update, with the cell read twice as the
    augmented assignment does. *)
Definition q_target (table : matrix) (s a s' : nat) (reward stepSizeAlpha
    discountGamma : Q) : res Q :=
  old ← cell_at table s a;
  next_values ← row_at table s';
  best ← np_max next_values;
  old' ← cell_at table s a;
  Ok (old + stepSizeAlpha * (reward + discountGamma * best - old')).

(** One turn of the loop of [q_learning]. *)
Definition q_step (stepSizeAlpha explorationProbEpsilon discountGamma : Q)
    (d : draw) (st : episode E) : res (episode E) :=
  let currentState := q_currentState st in
  currentAction ← chooseAction mdp currentState (q_table st)
                    explorationProbEpsilon d;
  let '(_, e) := step environment (q_env st) currentAction in
  let newState := get_state environment e in
  reward ← tensor_at (rewardsTable environment)
             currentState currentAction newState;
  let rewards := q_rewards st + reward in
  x ← q_target (q_table st) currentState currentAction newState reward
        stepSizeAlpha discountGamma;
  Ok (Episode e (mset (q_table st) currentState currentAction x) newState
        rewards
        (q_transitions st ++ [(currentState, currentAction, newState)])).

Fixpoint q_loop (stepSizeAlpha explorationProbEpsilon discountGamma : Q)
    (ds : list draw) (st : episode E) : res (episode E) :=
  match ds with
  | [] => Ok st
  | d :: ds' =>
    st' ← q_step stepSizeAlpha explorationProbEpsilon discountGamma d st;
    q_loop stepSizeAlpha explorationProbEpsilon discountGamma ds' st'
  end.

(** [q_learning]: [maxNumIterationsQLearning] turns, one draw each, then
    [rewards / maxNumIterationsQLearning] (a float divided by an int, which
    raises on zero). *)
Definition q_learning (stateActionValues : matrix)
    (maxNumIterationsQLearning : nat) (stepSizeAlpha explorationProbEpsilon
    discountGamma : Q) (draws : nat -> draw) (e : E)
    : res (Q * episode E) :=
  let currentState := get_state environment e in
  st ← q_loop stepSizeAlpha explorationProbEpsilon discountGamma
         (map draws (seq 0 maxNumIterationsQLearning))
         (Episode e stateActionValues currentState 0 []);
  if (maxNumIterationsQLearning =? 0)%nat then Raise ZeroDivisionError
  else Ok (q_rewards st / inject_Z (Z.of_nat maxNumIterationsQLearning), st).
End QLearning.

(** The tensor cell at a realized transition, and the sum of the cells at
    a list of them. *)
Definition cell_of (t : tensor3) (x : nat * nat * nat) : Q :=
  let '(s, a, s') := x in t_cell t s a s'.

Definition rewards_at (t : tensor3) (l : list (nat * nat * nat)) : Q :=
  np_sum (map (cell_of t) l).

(** ** Small environments and inputs used to exercise the definitions *)

(** Two states, two actions; action [a] in state [s] leads to state
    [(s + a + 1) mod 2].  [step] reports a reward of [100] whatever the
    reward tensor holds, and never ends the episode. *)
Definition toggle_next (s a : nat) : nat := ((s + a + 1) mod 2)%nat.

Definition toggle_env : Env nat unit := {|
  action_space := Discrete 2;
  observation_space := Discrete 2;
  nextStateProbability :=
    Tensor3 (2, 2, 2)%nat
      (fun s a s' => if (s' =? toggle_next s a)%nat then 1 else 0);
  rewardsTable :=
    Tensor3 (2, 2, 2)%nat
      (fun s a s' => inject_Z (Z.of_nat (s + 2 * a + 4 * s')));
  reset := fun _ => 0%nat;
  get_state := fun e => (e mod 2)%nat;
  step := fun e a => (StepOut (toggle_next e a) 100 false tt, toggle_next e a)
|}.

Definition toggle_mdp : FiniteMDP := MkFiniteMDP 2 2 0 0.

(** The same spaces over tensors of another shape. *)
Definition mismatched_env : Env nat unit := {|
  action_space := Discrete 2;
  observation_space := Discrete 2;
  nextStateProbability := Tensor3 (1, 1, 1)%nat (fun _ _ _ => 1);
  rewardsTable := Tensor3 (1, 1, 1)%nat (fun _ _ _ => 0);
  reset := fun _ => 0%nat;
  get_state := fun e => e;
  step := fun e a => (StepOut 0%nat 0 false tt, 0%nat)
|}.

(** A continuous action space. *)
Definition box_env : Env nat unit := {|
  action_space := Box 0 1 [1%nat];
  observation_space := Discrete 2;
  nextStateProbability := Tensor3 (2, 1, 2)%nat (fun _ _ _ => 1 # 2);
  rewardsTable := Tensor3 (2, 1, 2)%nat (fun _ _ _ => 0);
  reset := fun _ => 0%nat;
  get_state := fun e => e;
  step := fun e a => (StepOut 0%nat 0 false tt, 0%nat)
|}.

(** A sampler by inversion of the cumulative weights: the first index
    whose cumulative weight exceeds [u] times the total. *)
Fixpoint bisect (cum : Q) (target : Q) (ws : list Q) (i : nat) : nat :=
  match ws with
  | [] => i
  | w :: ws' => if Qltb target (cum + w) then i else bisect (cum + w) target ws' (S i)
  end.

Definition choices_by_inversion (n : nat) (ws : list Q) (u : Q) : res nat :=
  if negb (length ws =? n)%nat then Raise ValueError
  else if Qle_bool (np_sum ws) 0 then Raise ValueError
  else Ok (Nat.min (bisect 0 (u * np_sum ws) ws 0) (n - 1)).

(** The total reward is not among the things printed. *)
Definition no_total {H : Type} (out : list (printed H)) : Prop :=
  forall x, PrintTotalReward x ∉ out.

(** A rollout of three turns under the uniform weights [[1; 1]]. *)
Definition toggle_rollout (printInfo : bool) : res (pyval * rollout nat unit) :=
  run_MDP_for_given_policy toggle_env choices_by_inversion (fun _ => 1 # 2)
    toggle_mdp [[1; 1]; [1; 1]] 3 printInfo 7%nat.

(** ** Notions the properties are stated with *)

(** Action [a] attains the maximum of the row [values]. *)
Definition attains_max (values : list Q) (a : nat) : bool :=
  bool_decide (a < length values)%nat &&
  forallb (fun v => Qle_bool v (vget values a)) values.

(** The maximizing actions of a row, in increasing order. *)
Definition maximizers (values : list Q) : list nat :=
  List.filter (attains_max values) (seq 0 (length values)).

(** The row the policy should have for a row of action values: the same
    mass on every maximizer, nothing elsewhere. *)
Definition uniform_on_maximizers (values : list Q) : list Q :=
  map (fun a => if attains_max values a
                then 1 / inject_Z (Z.of_nat (length (maximizers values)))
                else 0)
      (seq 0 (length values)).

(** The environment keeps its state below [S] and its reward tensor has
    the shape of the spaces. *)
Definition fits {E H : Type} (environment : Env E H) (mdp : FiniteMDP) : Prop :=
  (forall e : E, (get_state environment e < mdp_S mdp)%nat) /\
  t_shape (rewardsTable environment) = (mdp_S mdp, mdp_A mdp, mdp_S mdp).

(** The same environment, except that [step] reports [f reward] where it
    reported [reward]. *)
Definition reporting {E H : Type} (f : Q -> Q) (environment : Env E H)
    : Env E H := {|
  action_space := action_space environment;
  observation_space := observation_space environment;
  nextStateProbability := nextStateProbability environment;
  rewardsTable := rewardsTable environment;
  reset := reset environment;
  get_state := get_state environment;
  step := fun e a =>
    let '(o, e') := step environment e a in
    (StepOut (ob o) (f (reward o)) (gameOver o) (history o), e')
|}.

(** One state with a certain self-loop under each of two actions, both
    rewarded [9e-5]. *)
Definition loop_P (s a s' : nat) : Q := 1.
Definition loop_R (s a s' : nat) : Q := 9 # 100000.

(** The double [-1.0]. *)
Definition b64_minus_one : spec_float :=
  S754_finite true 4503599627370496 (-52).

(** ** The other methods of the class *)

(** [getEquiprobableRandomPolicy]: [1.0 / self.A] is computed once, before
    the loops (the divisor is an int: zero raises), and then written into
    every cell of a zero matrix. *)
Definition getEquiprobableRandomPolicy (mdp : FiniteMDP) : res matrix :=
  let policy := zeros2 (mdp_S mdp) (mdp_A mdp) in
  if (mdp_A mdp =? 0)%nat then Raise ZeroDivisionError
  else
    let uniformProbability := 1 / inject_Z (Z.of_nat (mdp_A mdp)) in
    Ok (fold_left (fun policy s =>
          fold_left (fun policy a => mset policy s a uniformProbability)
            (seq 0 (mdp_A mdp)) policy)
          (seq 0 (mdp_S mdp)) policy).

(** What [prettyPrintValues] prints: a header for a state, or one entry for
    an action of that state. *)
Inductive pretty (L : Type) : Type :=
| PrintState (s : nat) (label : L)
| PrintAction (a : nat) (label : L).
Arguments PrintState {L} s label.
Arguments PrintAction {L} a label.

(** [labels[i]] on a Python list. *)
Definition label_at {L : Type} (labels : list L) (i : nat) : res L :=
  match labels !! i with
  | Some x => Ok x
  | None => Raise IndexError
  end.

(** The body of [for a in range(self.A)] of [prettyPrintValues]: the action
    label is looked up only after the zero test. *)
Definition pretty_action {L : Type} (action_values : matrix)
    (actionListGivenIndex : list L) (s : nat)
    (acc : res (list (pretty L))) (a : nat) : res (list (pretty L)) :=
  out ← acc;
  v ← cell_at action_values s a;
  if Qeq_bool v 0 then Ok out
  else
    currentAction ← label_at actionListGivenIndex a;
    Ok (out ++ [PrintAction a currentAction]).

(** The body of [for s in range(self.S)]. *)
Definition pretty_state {L : Type} (mdp : FiniteMDP) (action_values : matrix)
    (stateListGivenIndex actionListGivenIndex : list L)
    (acc : res (list (pretty L))) (s : nat) : res (list (pretty L)) :=
  out ← acc;
  currentState ← label_at stateListGivenIndex s;
  fold_left (pretty_action action_values actionListGivenIndex s)
    (seq 0 (mdp_A mdp)) (Ok (out ++ [PrintState s currentState])).

Definition prettyPrintValues {L : Type} (mdp : FiniteMDP)
    (action_values : matrix) (stateListGivenIndex actionListGivenIndex : list L)
    : res (list (pretty L)) :=
  fold_left (pretty_state mdp action_values stateListGivenIndex
               actionListGivenIndex)
    (seq 0 (mdp_S mdp)) (Ok []).

(** The entries [prettyPrintValues] is expected to print for state [s]:
    the actions whose value is not zero, in increasing order. *)
Definition nonzero_actions (mdp : FiniteMDP) (action_values : matrix) (s : nat)
    : list nat :=
  List.filter (fun a => negb (Qeq_bool (mget action_values s a) 0))
    (seq 0 (mdp_A mdp)).

(** All cells of the row are equal. *)
Definition constant_row (row : list Q) : Prop :=
  forall x y : Q, x ∈ row -> y ∈ row -> x == y.

(** The toggle environment with a [step] that always reports the end of
    the episode. *)
Definition stopping_env : Env nat unit := {|
  action_space := Discrete 2;
  observation_space := Discrete 2;
  nextStateProbability := nextStateProbability toggle_env;
  rewardsTable := rewardsTable toggle_env;
  reset := fun _ => 0%nat;
  get_state := fun e => (e mod 2)%nat;
  step := fun e a => (StepOut (toggle_next e a) 100 true tt, toggle_next e a)
|}.

(** The labels [prettyPrintValues] needs: one for every state, and one for
    every action that has a value other than zero in some state. *)
Definition labels_suffice {L : Type} (mdp : FiniteMDP) (action_values : matrix)
    (stateListGivenIndex actionListGivenIndex : list L) : Prop :=
  (mdp_S mdp <= length stateListGivenIndex)%nat /\
  forall s a : nat,
    (s < mdp_S mdp)%nat -> a ∈ nonzero_actions mdp action_values s ->
    (a < length actionListGivenIndex)%nat.

(** The lines it is expected to print: for each state its header, then
    the entries of its actions of non-zero value. *)
Definition header_line {L : Type} (stateListGivenIndex : list L) (s : nat)
    : list (pretty L) :=
  match stateListGivenIndex !! s with
  | Some label => [PrintState s label]
  | None => []
  end.

Definition action_lines {L : Type} (mdp : FiniteMDP) (action_values : matrix)
    (actionListGivenIndex : list L) (s : nat) : list (pretty L) :=
  omap (fun a => PrintAction a <$> actionListGivenIndex !! a)
    (nonzero_actions mdp action_values s).

Definition pretty_lines {L : Type} (mdp : FiniteMDP) (action_values : matrix)
    (stateListGivenIndex actionListGivenIndex : list L) : list (pretty L) :=
  flat_map (fun s =>
      header_line stateListGivenIndex s ++
      action_lines mdp action_values actionListGivenIndex s)
    (seq 0 (mdp_S mdp)).

(** ** Notions about episodes of Q-learning *)

(** A list of transitions is a path from state [s]: each transition starts
    where the previous one ended. *)
Fixpoint path_from (s : nat) (l : list (nat * nat * nat)) : Prop :=
  match l with
  | [] => True
  | (s0, _, s') :: l' => s0 = s /\ path_from s' l'
  end.

(** The state a path from [s] ends in. *)
Fixpoint path_end (s : nat) (l : list (nat * nat * nat)) : nat :=
  match l with
  | [] => s
  | (_, _, s') :: l' => path_end s' l'
  end.

(** The pair [(s, a)] is the origin of one of the transitions. *)
Definition visited (l : list (nat * nat * nat)) (s a : nat) : Prop :=
  exists s' : nat, (s, a, s') ∈ l.

(** The table satisfies the optimality equation on every transition the
    environment can make: whenever action [a] leads from state [s] to
    state [s'], [Q[s,a] = R[s,a,s'] + gamma * max Q[s',:]]. *)
Definition consistent {E H : Type} (environment : Env E H) (mdp : FiniteMDP)
    (discountGamma : Q) (table : matrix) : Prop :=
  forall (e : E) (a : nat), (a < mdp_A mdp)%nat ->
    let s := get_state environment e in
    let s' := get_state environment (step environment e a).2 in
    mget table s a ==
    t_cell (rewardsTable environment) s a s' +
    discountGamma * max_of (map (mget table s') (seq 0 (mdp_A mdp))).

(** Two states that action [0] exchanges and action [1] keeps. *)
Definition flip_next (e : bool) (a : nat) : bool :=
  match a with
  | O => negb e
  | _ => e
  end.

Definition flip_env : Env bool unit := {|
  action_space := Discrete 2;
  observation_space := Discrete 2;
  nextStateProbability :=
    Tensor3 (2, 2, 2)%nat (fun _ _ _ => 1 # 2);
  rewardsTable :=
    Tensor3 (2, 2, 2)%nat
      (fun s a s' => inject_Z (Z.of_nat (s + 2 * a + 4 * s')));
  reset := fun _ => false;
  get_state := fun e => if e then 1%nat else 0%nat;
  step := fun e a =>
    (StepOut (if flip_next e a then 1%nat else 0%nat) 0 false tt, flip_next e a)
|}.

(** A table that is consistent for [flip_env] with [gamma = 1/2]. *)
Definition flip_table : matrix := [[11; 15 # 2]; [13 # 2; 14]].

(** ** execute_q_learning *)

(** How a call of [execute_q_learning] ends: with a value, with an
    exception raised by [q_learning], or on a local variable that no loop
    turn has bound. *)
Inductive outcome (T : Type) : Type :=
| Returned (x : T)
| Raised (e : exn)
| UnboundLocalError (name : string).
Arguments Returned {T} x.
Arguments Raised {T} e.
Arguments UnboundLocalError {T} name.

(** The variables of [execute_q_learning] between two runs: the
    environment, [rewardsQLearning], [stateActionValues] once a run has
    bound it, and what has been printed. *)
Record learning (E : Type) : Type := Learning {
  l_env : E;
  l_rewards : vector;
  l_table : option matrix;
  l_printed : list Q
}.
Arguments Learning {E} l_env l_rewards l_table l_printed.
Arguments l_env {E} l.
Arguments l_rewards {E} l.
Arguments l_table {E} l.
Arguments l_printed {E} l.

Section Learning.
Context {E H : Type} (environment : Env E H).
Variable mdp : FiniteMDP.
(** The draws for run [run], outer iteration [i] and inner step [k]. *)
Variable draws : nat -> nat -> nat -> draw.
Variables (maxNumIterations maxNumIterationsQLearning : nat).
Variables (stepSizeAlpha explorationProbEpsilon : Q).

(** One turn of [for i in range(maxNumIterations)]: an episode on the
    table of the run (with the default discount [0.9], which
    [execute_q_learning] does not pass) from wherever the environment is,
    and its return value added to [rewardsQLearning[i]]. *)
Definition learning_turn (run : nat) (acc : res (E * vector * matrix))
    (i : nat) : res (E * vector * matrix) :=
  st ← acc;
  match st with
  | (e, rewardsQLearning, stateActionValues) =>
    match q_learning environment mdp stateActionValues
            maxNumIterationsQLearning stepSizeAlpha explorationProbEpsilon
            (9 # 10) (draws run i) e with
    | Raise x => Raise x
    | Ok (reward, ep) =>
      Ok (q_env ep,
          <[i := vget rewardsQLearning i + reward]> rewardsQLearning,
          q_table ep)
    end
  end.

(** One run: a fresh zero table and [maxNumIterations] turns. *)
Definition learning_run (run : nat) (e : E) (rewardsQLearning : vector)
    : res (E * vector * matrix) :=
  fold_left (learning_turn run) (seq 0 maxNumIterations)
    (Ok (e, rewardsQLearning, zeros2 (mdp_S mdp) (mdp_A mdp))).

(** The loop [for run in range(num_runs)]; the [print] after the inner loop
    reads the loop variable [i]. *)
Fixpoint learning_runs (runs : list nat) (st : learning E)
    : outcome (learning E) :=
  match runs with
  | [] => Returned st
  | run :: runs' =>
    match learning_run run (l_env st) (l_rewards st) with
    | Raise x => Raised x
    | Ok (e, rewardsQLearning, stateActionValues) =>
      if (maxNumIterations =? 0)%nat then UnboundLocalError "i"
      else
        learning_runs runs'
          (Learning e rewardsQLearning (Some stateActionValues)
             (l_printed st ++
              [vget rewardsQLearning (maxNumIterations - 1)]))
    end
  end.

(** [execute_q_learning]: the table of the last run and the rewards
    divided by [num_runs]. *)
Definition execute_q_learning (num_runs : nat) (e : E)
    : outcome (matrix * vector * learning E) :=
  match learning_runs (seq 0 num_runs)
          (Learning e (zeros maxNumIterations) None []) with
  | Returned st =>
    let rewardsQLearning :=
      map (fun x => x / inject_Z (Z.of_nat num_runs)) (l_rewards st) in
    match l_table st with
    | None => UnboundLocalError "stateActionValues"
    | Some stateActionValues =>
      Returned (stateActionValues, rewardsQLearning, st)
    end
  | Raised x => Raised x
  | UnboundLocalError name => UnboundLocalError name
  end.
End Learning.

(** * Properties *)

(** ** Results used by several properties *)

Lemma bind_Ok {T U : Type} (c : res T) (k : T -> res U) (y : U) :
  c ≫= k = Ok y -> exists x, c = Ok x /\ k x = Ok y.
Proof.
  destruct c as [x|e]; simpl; intros Hk; [|discriminate].
  exists x; split; [reflexivity|exact Hk].
Qed.

Lemma Qltb_lt (x y : Q) : Qltb x y = true <-> x < y.
Proof.
  unfold Qltb. rewrite negb_true_iff. split.
  - intros Hb. apply Qnot_le_lt. intros Hle.
    apply Qle_bool_iff in Hle. congruence.
  - intros Hlt. destruct (Qle_bool y x) eqn:Hb; [|reflexivity].
    apply Qle_bool_iff in Hb. lra.
Qed.

Lemma Qltb_ge (x y : Q) : Qltb x y = false <-> y <= x.
Proof.
  unfold Qltb. rewrite negb_false_iff. apply Qle_bool_iff.
Qed.

(** ** Construction *)

(** C8 (as amended).  Construction raises a bare [AssertionError] exactly
    when the action space or the observation space is not [Discrete]; for
    discrete spaces it succeeds, takes [S] and [A] from the two spaces and
    resets the environment.  The tensors play no part. *)
Theorem init_discrete_only {E H : Type} (environment : Env E H) (e : E) :
  (is_Discrete (action_space environment) = false \/
   is_Discrete (observation_space environment) = false ->
   init environment e = Raise (AssertionError None)) /\
  (forall nS nA : nat,
     observation_space environment = Discrete nS ->
     action_space environment = Discrete nA ->
     init environment e = Ok (MkFiniteMDP nS nA 0 0, reset environment e)).
Proof.
  unfold init. split.
  - intros [Ha|Ho].
    + rewrite Ha. reflexivity.
    + rewrite Ho. destruct (is_Discrete (action_space environment)); reflexivity.
  - intros nS nA Ho Ha. rewrite Ho, Ha. reflexivity.
Qed.

Lemma init_discrete_only_witness :
  init box_env 0%nat = Raise (AssertionError None) /\
  init toggle_env 5%nat = Ok (MkFiniteMDP 2 2 0 0, 0%nat).
Proof.
  split.
  - apply (proj1 (init_discrete_only box_env 0%nat)). left. reflexivity.
  - apply (proj2 (init_discrete_only toggle_env 5%nat) 2%nat 2%nat); reflexivity.
Defined.

(** C8 as stated fails: an environment whose tensors do not have the
    shape [S x A x S] of its spaces is accepted. *)
Lemma init_accepts_mismatched_tensors :
  t_shape (nextStateProbability mismatched_env) <> (2, 2, 2)%nat /\
  t_shape (rewardsTable mismatched_env) <> (2, 2, 2)%nat /\
  init mismatched_env 0%nat = Ok (MkFiniteMDP 2 2 0 0, 0%nat).
Proof. repeat split; discriminate. Qed.

(** ** The rollout driver: what the caller gets *)

Section RolloutFacts.
Context {E H D : Type} (environment : Env E H).
Variable choices : nat -> list Q -> D -> res nat.
Variable draws : nat -> D.
Variable mdp : FiniteMDP.

Lemma rollout_step_effect (printInfo : bool) (it : nat) (st st' : rollout E H)
    (b : bool) :
  rollout_step environment choices draws mdp printInfo it st = Ok (st', b) ->
  exists c extra,
    r_calls st' = r_calls st ++ [c] /\
    r_totalReward st' = r_totalReward st + call_reward c /\
    r_out st' = r_out st ++ extra /\ no_total extra.
Proof.
  unfold rollout_step. intros Hs.
  apply bind_Ok in Hs as (row & _ & Hs).
  apply bind_Ok in Hs as (w & _ & Hs).
  apply bind_Ok in Hs as (action & _ & Hs).
  destruct (step environment (r_env st) action) as [o e].
  injection Hs as <- _. simpl.
  eexists (Call _ _ _), _. repeat split.
  intros x Hin. apply elem_of_app in Hin as [Hin|Hin].
  - destruct (Qltb (reward o) (-5)); [|inversion Hin].
    apply list_elem_of_singleton in Hin. discriminate.
  - destruct printInfo; [|inversion Hin].
    apply list_elem_of_singleton in Hin. discriminate.
Qed.

Lemma rollout_loop_effect (printInfo : bool) (its : list nat) :
  forall st st' : rollout E H,
    rollout_loop environment choices draws mdp printInfo its st = Ok st' ->
    exists cs extra,
      r_calls st' = r_calls st ++ cs /\
      (length cs <= length its)%nat /\
      r_totalReward st' = fold_left Qplus (map call_reward cs) (r_totalReward st) /\
      r_out st' = r_out st ++ extra /\ no_total extra.
Proof.
  induction its as [|it its IH]; simpl; intros st st' Hl.
  - injection Hl as <-. exists [], []. rewrite !app_nil_r.
    repeat split; [simpl; lia|intros x Hin; inversion Hin].
  - destruct (rollout_step environment choices draws mdp printInfo it st)
      as [[st1 b]|] eqn:Hs; [|discriminate].
    apply rollout_step_effect in Hs as (c & ex1 & Hc & Ht & Ho & Hn).
    destruct b.
    + apply IH in Hl as (cs & ex2 & Hc2 & Hlen & Ht2 & Ho2 & Hn2).
      exists (c :: cs), (ex1 ++ ex2). repeat split.
      * rewrite Hc2, Hc, <- app_assoc. reflexivity.
      * simpl. lia.
      * rewrite Ht2, Ht. reflexivity.
      * rewrite Ho2, Ho, <- app_assoc. reflexivity.
      * intros x Hin. apply elem_of_app in Hin as [Hin|Hin];
          [exact (Hn x Hin)|exact (Hn2 x Hin)].
    + injection Hl as <-. exists [c], ex1. repeat split; try assumption.
      simpl. lia.
Qed.
End RolloutFacts.

(** C7 (as amended).  Whenever [run_MDP_for_given_policy] completes, the
    value its caller receives is [None]; the total of the rewards that the
    [step] calls reported over the executed turns (at most
    [maxNumIterations] of them) is kept in a local variable, and is printed
    last when [printInfo] is set and not printed at all otherwise. *)
Theorem run_MDP_returns_None {E H D : Type} (environment : Env E H)
    (choices : nat -> list Q -> D -> res nat) (draws : nat -> D)
    (mdp : FiniteMDP) (policy : matrix) (maxNumIterations : nat)
    (printInfo : bool) (e : E) (ret : pyval) (st : rollout E H) :
  run_MDP_for_given_policy environment choices draws mdp policy
    maxNumIterations printInfo e = Ok (ret, st) ->
  ret = PyNone /\
  r_totalReward st = np_sum (map call_reward (r_calls st)) /\
  (length (r_calls st) <= maxNumIterations)%nat /\
  (printInfo = true ->
   exists out, no_total out /\
     r_out st = out ++ [PrintTotalReward (r_totalReward st)]) /\
  (printInfo = false -> no_total (r_out st)).
Proof.
  unfold run_MDP_for_given_policy. intros Hr.
  apply bind_Ok in Hr as (st1 & Hl & Hr).
  apply rollout_loop_effect in Hl as (cs & extra & Hc & Hlen & Ht & Ho & Hn).
  simpl in Hc, Ht, Ho. rewrite length_seq in Hlen.
  injection Hr as <- <-. simpl. repeat split.
  - rewrite Hc, Ht. reflexivity.
  - rewrite Hc. exact Hlen.
  - intros ->. exists extra. rewrite Ho. split; [exact Hn|reflexivity].
  - intros ->. rewrite Ho, app_nil_r. exact Hn.
Qed.

Lemma run_MDP_returns_None_witness :
  exists st, toggle_rollout true = Ok (PyNone, st) /\
    r_totalReward st = np_sum (map call_reward (r_calls st)) /\
    (length (r_calls st) <= 3)%nat.
Proof.
  destruct (toggle_rollout true) as [[ret st]|] eqn:Hr; [|discriminate].
  unfold toggle_rollout in Hr.
  destruct (run_MDP_returns_None _ _ _ _ _ _ _ _ _ _ Hr) as (-> & Ht & Hl & _).
  exists st. repeat split; assumption.
Defined.

(** C7 as stated fails: three turns that each report a reward of [100]
    hand [None] to the caller, not the total [300]. *)
Lemma run_MDP_does_not_return_total :
  exists st, toggle_rollout false = Ok (PyNone, st) /\
    r_totalReward st == 300 /\
    map call_reward (r_calls st) = [100; 100; 100] /\
    PyNone <> PyFloat (r_totalReward st).
Proof.
  eexists. split; [vm_compute; reflexivity|].
  repeat split; discriminate.
Qed.

(** ** Maxima of a row *)

Lemma scan_max_ge (l : list Q) : forall x : Q,
  x <= scan_max x l /\ Forall (fun y => y <= scan_max x l) l.
Proof.
  unfold scan_max. induction l as [|y l IH]; simpl; intros x.
  - split; [lra|constructor].
  - destruct (Qltb x y) eqn:Hxy.
    + apply Qltb_lt in Hxy. destruct (IH y) as [Hy Hl].
      split; [lra|]. constructor; assumption.
    + apply Qltb_ge in Hxy. destruct (IH x) as [Hx Hl].
      split; [exact Hx|]. constructor; [lra|exact Hl].
Qed.

Lemma scan_max_in (l : list Q) : forall x : Q, scan_max x l ∈ x :: l.
Proof.
  unfold scan_max. induction l as [|y l IH]; simpl; intros x.
  - left.
  - destruct (Qltb x y).
    + right. apply IH.
    + specialize (IH x). apply elem_of_cons in IH as [->|Hin].
      * left.
      * right. right. exact Hin.
Qed.

Lemma np_max_spec (values : list Q) (m : Q) :
  np_max values = Ok m ->
  m ∈ values /\ Forall (fun y => y <= m) values.
Proof.
  destruct values as [|x t]; simpl; [discriminate|].
  intros [= <-]. split; [apply scan_max_in|].
  destruct (scan_max_ge t x) as [Hx Ht]. constructor; assumption.
Qed.

Lemma np_max_nonempty (values : list Q) :
  (0 < length values)%nat -> exists m, np_max values = Ok m.
Proof.
  destruct values as [|x t]; simpl; [lia|]. intros _. eexists; reflexivity.
Qed.

Lemma vget_lookup (v : vector) (i : nat) (x : Q) :
  v !! i = Some x -> vget v i = x.
Proof. unfold vget. intros ->. reflexivity. Qed.

Lemma forallb_le_max (values : list Q) (m x : Q) :
  Forall (fun y => y <= m) values -> m ∈ values ->
  forallb (fun v => Qle_bool v x) values = Qeq_bool x m || Qltb m x.
Proof.
  intros Hall Hin.
  destruct (forallb (fun v => Qle_bool v x) values) eqn:Hf; symmetry.
  - rewrite forallb_forall in Hf.
    apply list_elem_of_In in Hin. apply Hf in Hin.
    apply Qle_bool_iff in Hin.
    destruct (Qltb m x) eqn:Hlt; [apply orb_true_r|].
    apply Qltb_ge in Hlt. rewrite orb_false_r.
    apply Qeq_bool_iff. lra.
  - apply orb_false_iff. split.
    + destruct (Qeq_bool x m) eqn:Heq; [|reflexivity].
      apply Qeq_bool_iff in Heq.
      assert (Ht : forallb (fun v => Qle_bool v x) values = true); [|congruence].
      apply forallb_forall. intros y Hy. apply Qle_bool_iff.
      apply list_elem_of_In in Hy.
      rewrite Forall_forall in Hall. specialize (Hall y Hy). lra.
    + apply Qltb_ge.
      destruct (Qlt_le_dec m x) as [Hlt|Hle]; [|exact Hle].
      assert (Ht : forallb (fun v => Qle_bool v x) values = true); [|congruence].
      apply forallb_forall. intros y Hy. apply Qle_bool_iff.
      apply list_elem_of_In in Hy.
      rewrite Forall_forall in Hall. specialize (Hall y Hy). lra.
Qed.

(** The indices numpy's [where] finds for the scanned maximum are the
    maximizers of the row. *)
Lemma where_eq_maximizers (values : list Q) (m : Q) :
  np_max values = Ok m -> where_eq values m = maximizers values.
Proof.
  intros Hm. apply np_max_spec in Hm as [Hin Hall].
  unfold where_eq, maximizers. apply List.filter_ext_in.
  intros a Ha. apply in_seq in Ha. unfold attains_max.
  rewrite bool_decide_eq_true_2 by lia. simpl.
  rewrite (forallb_le_max values m) by assumption.
  destruct (Qltb m (vget values a)) eqn:Hlt; [|rewrite orb_false_r; reflexivity].
  exfalso. apply Qltb_lt in Hlt.
  destruct (lookup_lt_is_Some_2 values a) as [x Hx]; [lia|].
  rewrite (vget_lookup _ _ _ Hx) in Hlt.
  rewrite Forall_forall in Hall.
  specialize (Hall x (list_elem_of_lookup_2 _ _ _ Hx)). lra.
Qed.

(** ** Sums *)

Lemma fold_left_Qplus_acc (l : list Q) : forall a : Q,
  fold_left Qplus l a == a + np_sum l.
Proof.
  unfold np_sum. induction l as [|x l IH]; simpl; intros a.
  - lra.
  - rewrite (IH (a + x)), (IH (0 + x)). lra.
Qed.

Lemma np_sum_cons (x : Q) (l : list Q) : np_sum (x :: l) == x + np_sum l.
Proof.
  unfold np_sum at 1. simpl. rewrite fold_left_Qplus_acc. ring.
Qed.

Lemma np_sum_indicator (p : nat -> bool) (v : Q) (l : list nat) :
  np_sum (map (fun a => if p a then v else 0) l) ==
  inject_Z (Z.of_nat (length (List.filter p l))) * v.
Proof.
  induction l as [|a l IH]; simpl.
  - unfold np_sum. simpl. ring.
  - rewrite np_sum_cons, IH. destruct (p a); simpl length.
    + rewrite Nat2Z.inj_succ, <- Z.add_1_r, inject_Z_plus.
      change (inject_Z 1) with 1. ring.
    + ring.
Qed.

(** ** Writing one value at several indices *)

Lemma lookup_fold_insert (v : Q) (idxs : list nat) : forall (row : list Q) (i : nat),
  fold_left (fun row a => <[a := v]> row) idxs row !! i =
  (fun x => if bool_decide (i ∈ idxs) then v else x) <$> row !! i.
Proof.
  induction idxs as [|a idxs IH]; simpl; intros row i.
  - destruct (row !! i); reflexivity.
  - rewrite IH. destruct (decide (a = i)) as [->|Hne].
    + rewrite (bool_decide_eq_true_2 (i ∈ i :: idxs)) by left.
      destruct (row !! i) as [x|] eqn:Hx.
      * rewrite list_lookup_insert_eq by (eapply lookup_lt_Some; exact Hx).
        simpl. destruct (bool_decide (i ∈ idxs)); reflexivity.
      * rewrite (proj2 (lookup_ge_None _ _)); [reflexivity|].
        rewrite length_insert. apply lookup_ge_None. exact Hx.
    + rewrite list_lookup_insert_ne by exact Hne.
      destruct (row !! i) as [x|]; simpl; [|reflexivity].
      f_equal.
      destruct (bool_decide (i ∈ idxs)) eqn:Hb.
      * rewrite bool_decide_eq_true_2; [reflexivity|].
        right. apply bool_decide_eq_true in Hb. exact Hb.
      * rewrite bool_decide_eq_false_2; [reflexivity|].
        intros Hin. apply elem_of_cons in Hin as [->|Hin]; [congruence|].
        apply bool_decide_eq_false in Hb. contradiction.
Qed.

Lemma fold_mset_row (s : nat) (v : Q) (idxs : list nat) :
  forall (policy : matrix) (row : list Q),
    policy !! s = Some row ->
    fold_left (fun policy a => mset policy s a v) idxs policy =
    <[s := fold_left (fun row a => <[a := v]> row) idxs row]> policy.
Proof.
  induction idxs as [|a idxs IH]; simpl; intros policy row Hrow.
  - symmetry. apply list_insert_id. exact Hrow.
  - unfold mset at 2. rewrite Hrow.
    rewrite (IH _ (<[a := v]> row)).
    + apply list_insert_insert_eq.
    + apply list_lookup_insert_eq. eapply lookup_lt_Some. exact Hrow.
Qed.

Lemma in_filter_seq (p : nat -> bool) (n i : nat) :
  i ∈ List.filter p (seq 0 n) <-> (i < n)%nat /\ p i = true.
Proof.
  rewrite list_elem_of_In, filter_In, in_seq. intuition lia.
Qed.

Lemma attains_max_lt (values : list Q) (a : nat) :
  attains_max values a = true -> (a < length values)%nat.
Proof.
  unfold attains_max. intros Hb. apply andb_true_iff in Hb as [Hb _].
  apply bool_decide_eq_true in Hb. exact Hb.
Qed.

(** Line 205 applied to a row of zeros gives the intended row. *)
Lemma policy_row_uniform (values : list Q) :
  fold_left (fun row a => <[a := uniform_mass (maximizers values)]> row)
    (maximizers values) (zeros (length values)) =
  uniform_on_maximizers values.
Proof.
  apply list_eq. intros i. rewrite lookup_fold_insert.
  unfold uniform_on_maximizers, zeros. rewrite list_lookup_fmap.
  destruct (decide (i < length values)%nat) as [Hi|Hi].
  - rewrite lookup_replicate_2 by exact Hi.
    rewrite lookup_seq_lt by exact Hi. simpl. f_equal.
    destruct (attains_max values i) eqn:Ha.
    + rewrite bool_decide_eq_true_2; [reflexivity|].
      apply in_filter_seq. split; assumption.
    + rewrite bool_decide_eq_false_2; [reflexivity|].
      intros Hin. apply in_filter_seq in Hin as [_ Hin]. congruence.
  - rewrite (proj2 (lookup_ge_None _ _)) by (rewrite length_replicate; lia).
    rewrite lookup_seq_ge by lia. reflexivity.
Qed.

(** ** The policy extracted from a table *)

Lemma shape_lookup (m : matrix) (nS nA s : nat) (row : list Q) :
  shape m nS nA -> m !! s = Some row -> length row = nA.
Proof.
  intros [_ Hrows] Hs. rewrite Forall_forall in Hrows.
  apply Hrows. eapply list_elem_of_lookup_2. exact Hs.
Qed.

Lemma shape_columns (m : matrix) (nS nA : nat) :
  shape m nS nA -> (0 < nS)%nat -> columns m = nA.
Proof.
  intros Hsh HS. destruct m as [|row m].
  - destruct Hsh as [Hlen _]. simpl in Hlen. lia.
  - simpl. apply (shape_lookup _ _ _ 0%nat row Hsh). reflexivity.
Qed.

(** After the first [k] states the first [k] rows are final and the
    others still hold zeros. *)
Lemma convert_prefix (action_values : matrix) (nS nA : nat) :
  shape action_values nS nA -> (1 <= nA)%nat ->
  forall k : nat, (k <= nS)%nat ->
    fold_left (extract_state action_values) (seq 0 k) (Ok (zeros2 nS nA)) =
    Ok (map uniform_on_maximizers (take k action_values) ++
        replicate (nS - k) (zeros nA)).
Proof.
  intros Hsh HA k. induction k as [|k IH]; intros Hk.
  - simpl. rewrite Nat.sub_0_r. reflexivity.
  - rewrite seq_S, fold_left_app, IH by lia. simpl. unfold extract_state. simpl.
    destruct (lookup_lt_is_Some_2 action_values k) as [values Hv];
      [destruct Hsh; lia|].
    unfold row_at. rewrite Hv. simpl.
    assert (Hlen : length values = nA) by (eapply shape_lookup; eassumption).
    destruct (np_max_nonempty values) as [m Hm]; [lia|].
    rewrite Hm. simpl. rewrite (where_eq_maximizers _ _ Hm).
    assert (Htk : length (map uniform_on_maximizers (take k action_values)) = k).
    { rewrite length_map, length_take. destruct Hsh. lia. }
    replace (nS - k)%nat with (S (nS - S k)) by lia. simpl replicate.
    rewrite (fold_mset_row k _ _ _ (zeros nA)).
    + subst nA. rewrite policy_row_uniform.
      rewrite insert_app_r_alt by lia. rewrite Htk, Nat.sub_diag. simpl.
      rewrite (take_S_r _ _ _ Hv), map_app, <- app_assoc. reflexivity.
    + rewrite <- Htk at 1. apply list_lookup_middle. reflexivity.
Qed.

Lemma convert_uniform (action_values : matrix) (nS nA : nat) :
  shape action_values nS nA -> (1 <= nA)%nat ->
  convert_action_values_into_policy action_values =
  Ok (map uniform_on_maximizers action_values).
Proof.
  intros Hsh HA. unfold convert_action_values_into_policy.
  destruct (decide (nS = 0)%nat) as [->|HS].
  - destruct Hsh as [Hlen _]. apply nil_length_inv in Hlen. subst. reflexivity.
  - rewrite (shape_columns _ _ _ Hsh) by lia.
    pose proof Hsh as [Hlen _]. rewrite Hlen.
    rewrite (convert_prefix _ _ _ Hsh HA nS) by lia.
    rewrite Nat.sub_diag, app_nil_r, <- Hlen, firstn_all. reflexivity.
Qed.

Lemma maximizers_nonempty (values : list Q) :
  (0 < length values)%nat -> (0 < length (maximizers values))%nat.
Proof.
  intros Hlen. destruct (np_max_nonempty values Hlen) as [m Hm].
  pose proof (np_max_spec _ _ Hm) as [Hin Hall].
  apply list_elem_of_lookup_1 in Hin as [a Ha].
  assert (Hmem : a ∈ maximizers values).
  { apply in_filter_seq. split; [eapply lookup_lt_Some; exact Ha|].
    unfold attains_max. apply andb_true_iff. split.
    - apply bool_decide_eq_true. eapply lookup_lt_Some. exact Ha.
    - apply forallb_forall. intros y Hy. apply Qle_bool_iff.
      rewrite (vget_lookup _ _ _ Ha).
      rewrite Forall_forall in Hall. apply Hall, list_elem_of_In, Hy. }
  destruct (maximizers values); [inversion Hmem|simpl; lia].
Qed.

Lemma vget_uniform (values : list Q) (a : nat) :
  (a < length values)%nat ->
  vget (uniform_on_maximizers values) a =
  if attains_max values a
  then 1 / inject_Z (Z.of_nat (length (maximizers values)))
  else 0.
Proof.
  intros Ha. apply vget_lookup. unfold uniform_on_maximizers.
  rewrite list_lookup_fmap, lookup_seq_lt by exact Ha. reflexivity.
Qed.

Lemma sum_uniform (values : list Q) :
  (0 < length values)%nat -> np_sum (uniform_on_maximizers values) == 1.
Proof.
  intros Hlen. unfold uniform_on_maximizers.
  rewrite np_sum_indicator. fold (maximizers values).
  pose proof (maximizers_nonempty values Hlen) as Hk.
  assert (Hq : ~ inject_Z (Z.of_nat (length (maximizers values))) == 0).
  { intros Hz. unfold Qeq in Hz. simpl in Hz. lia. }
  field. exact Hq.
Qed.

(** C4.  For an [S x A] table with at least one action, policy extraction
    returns an [S x A] policy whose row for each state gives [1/k] to each
    of the [k] actions attaining the row maximum and [0] to every other
    action; every row sums to [1], and a row with one maximizer is one-hot. *)
Theorem convert_policy_uniform_on_maxima (action_values : matrix) (nS nA : nat) :
  shape action_values nS nA -> (1 <= nA)%nat ->
  exists policy : matrix,
    convert_action_values_into_policy action_values = Ok policy /\
    shape policy nS nA /\
    forall (s : nat) (values : list Q),
      action_values !! s = Some values ->
      exists row : list Q,
        policy !! s = Some row /\
        (forall a : nat, (a < nA)%nat ->
           vget row a ==
           if attains_max values a
           then 1 / inject_Z (Z.of_nat (length (maximizers values)))
           else 0) /\
        (1 <= length (maximizers values))%nat /\
        np_sum row == 1 /\
        (forall a : nat, maximizers values = [a] ->
           vget row a == 1 /\
           forall a' : nat, (a' < nA)%nat -> a' <> a -> vget row a' == 0).
Proof.
  intros Hsh HA. exists (map uniform_on_maximizers action_values).
  split; [exact (convert_uniform _ _ _ Hsh HA)|]. split.
  - destruct Hsh as [Hlen Hrows]. split; [rewrite length_map; exact Hlen|].
    apply Forall_fmap. eapply Forall_impl; [exact Hrows|].
    intros row Hrow. simpl. unfold uniform_on_maximizers.
    rewrite length_map, length_seq. exact Hrow.
  - intros s values Hv. exists (uniform_on_maximizers values).
    assert (Hlen : length values = nA) by (eapply shape_lookup; eassumption).
    split; [rewrite list_lookup_fmap, Hv; reflexivity|].
    split; [intros a Ha; rewrite vget_uniform by lia; reflexivity|].
    split; [apply maximizers_nonempty; lia|].
    split; [apply sum_uniform; lia|].
    intros a Hone.
    assert (Hmem : forall i, (i < nA)%nat -> attains_max values i = true <-> i = a).
    { intros i Hi. rewrite <- (list_elem_of_singleton i a), <- Hone.
      unfold maximizers. rewrite in_filter_seq. intuition lia. }
    split.
    + assert (Ha : (a < nA)%nat).
      { assert (Hin : a ∈ maximizers values) by (rewrite Hone; left).
        apply in_filter_seq in Hin. lia. }
      rewrite vget_uniform by lia.
      rewrite (proj2 (Hmem a Ha) eq_refl), Hone. simpl. reflexivity.
    + intros a' Ha' Hne. rewrite vget_uniform by lia.
      destruct (attains_max values a') eqn:Hb; [|reflexivity].
      exfalso. apply Hne, Hmem; assumption.
Qed.

Lemma convert_policy_uniform_on_maxima_witness :
  exists policy : matrix,
    convert_action_values_into_policy [[1; 2; 2]; [3; 1; 0]] = Ok policy /\
    shape policy 2 3.
Proof.
  destruct (convert_policy_uniform_on_maxima [[1; 2; 2]; [3; 1; 0]] 2 3)
    as (policy & Hc & Hs & _).
  - split; [reflexivity|]. repeat constructor.
  - lia.
  - exists policy. split; assumption.
Defined.

(** A table without actions has no row maximum: [max] raises. *)
Remark convert_no_action :
  convert_action_values_into_policy [[]] = Raise ValueError.
Proof. reflexivity. Qed.

(** ** Epsilon-greedy selection *)

Lemma random_choice_in (l : list nat) (j a : nat) :
  random_choice l j = Ok a -> a ∈ l.
Proof.
  unfold random_choice.
  destruct (l !! (j mod length l)%nat) as [x|] eqn:Hx; [|discriminate].
  intros [= <-]. eapply list_elem_of_lookup_2. exact Hx.
Qed.

Lemma random_choice_nonempty (l : list nat) (j : nat) :
  (0 < length l)%nat -> exists a, random_choice l j = Ok a /\ a ∈ l.
Proof.
  intros Hl. unfold random_choice.
  destruct (lookup_lt_is_Some_2 l (j mod length l)%nat) as [a Ha].
  - apply Nat.mod_upper_bound. lia.
  - rewrite Ha. exists a. split; [reflexivity|].
    eapply list_elem_of_lookup_2. exact Ha.
Qed.

Lemma random_choice_any (l : list nat) (a : nat) :
  a ∈ l -> exists j, random_choice l j = Ok a.
Proof.
  intros Hin. apply list_elem_of_lookup_1 in Hin as [i Hi].
  exists i. unfold random_choice.
  rewrite Nat.mod_small by (eapply lookup_lt_Some; exact Hi).
  rewrite Hi. reflexivity.
Qed.

Lemma binomial1_never (eps u : Q) :
  eps == 0 -> 0 <= u -> binomial1 eps u = Ok false.
Proof.
  intros He Hu. unfold binomial1.
  rewrite (proj2 (Qltb_ge eps 0)) by lra.
  rewrite (proj2 (Qltb_ge 1 eps)) by lra. simpl.
  rewrite (proj2 (Qltb_ge u eps)) by lra. reflexivity.
Qed.

Lemma binomial1_always (eps u : Q) :
  eps == 1 -> u < 1 -> binomial1 eps u = Ok true.
Proof.
  intros He Hu. unfold binomial1.
  rewrite (proj2 (Qltb_ge eps 0)) by lra.
  rewrite (proj2 (Qltb_ge 1 eps)) by lra. simpl.
  rewrite (proj2 (Qltb_lt u eps)) by lra. reflexivity.
Qed.

Lemma binomial1_in_range (eps u : Q) :
  0 <= eps -> eps <= 1 -> binomial1 eps u = Ok (Qltb u eps).
Proof.
  intros H0 H1. unfold binomial1.
  rewrite (proj2 (Qltb_ge eps 0)) by lra.
  rewrite (proj2 (Qltb_ge 1 eps)) by lra. reflexivity.
Qed.

(** The candidates of the greedy branch are the maximizers of the row. *)
Lemma greedy_actions_maximizers (values_ : list Q) :
  greedy_actions values_ = maximizers values_.
Proof.
  unfold greedy_actions. destruct (np_max values_) as [m|e] eqn:Hm.
  - apply (where_eq_maximizers _ _ Hm).
  - destruct values_; [reflexivity|discriminate].
Qed.

Lemma in_maximizers (values : list Q) (a : nat) :
  a ∈ maximizers values <-> attains_max values a = true.
Proof.
  unfold maximizers. rewrite in_filter_seq. split; [tauto|].
  intros Ha. split; [apply attains_max_lt|]; exact Ha.
Qed.

(** C6.  With [epsilon = 0] the actions [chooseAction] can return for a
    state are exactly the actions attaining the maximum of that state's
    row, and on a non-empty row it always returns one of them; with
    [epsilon = 1] every action below [A] can be returned, and what is
    returned does not depend on the state or the table. *)
Theorem chooseAction_extremes (mdp : FiniteMDP) (state : nat)
    (stateActionValues : matrix) (eps : Q) :
  (eps == 0 ->
   (forall a : nat,
      (exists d, valid_draw d /\
         chooseAction mdp state stateActionValues eps d = Ok a) <->
      (exists values_, stateActionValues !! state = Some values_ /\
         attains_max values_ a = true)) /\
   (forall (values_ : list Q) (d : draw),
      stateActionValues !! state = Some values_ ->
      (0 < length values_)%nat -> valid_draw d ->
      exists a, chooseAction mdp state stateActionValues eps d = Ok a /\
        attains_max values_ a = true)) /\
  (eps == 1 ->
   (forall a : nat, (a < mdp_A mdp)%nat ->
      exists d, valid_draw d /\
        chooseAction mdp state stateActionValues eps d = Ok a) /\
   (forall (d : draw) (state' : nat) (stateActionValues' : matrix),
      valid_draw d ->
      chooseAction mdp state' stateActionValues' eps d =
      chooseAction mdp state stateActionValues eps d)).
Proof.
  split; intros He.
  - assert (Hgreedy : forall d, valid_draw d ->
      chooseAction mdp state stateActionValues eps d =
      (values_ ← row_at stateActionValues state;
       random_choice (greedy_actions values_) (d_pick d))).
    { intros d [Hu _]. unfold chooseAction.
      rewrite (binomial1_never _ _ He Hu). reflexivity. }
    split.
    + intros a. split.
      * intros (d & Hd & Hc). rewrite (Hgreedy d Hd) in Hc.
        apply bind_Ok in Hc as (values_ & Hrow & Hc).
        unfold row_at in Hrow.
        destruct (stateActionValues !! state) as [row|] eqn:Hr; [|discriminate].
        injection Hrow as ->. exists values_. split; [reflexivity|].
        apply random_choice_in in Hc.
        rewrite greedy_actions_maximizers in Hc.
        apply in_maximizers. exact Hc.
      * intros (values_ & Hr & Ha).
        apply in_maximizers in Ha. rewrite <- greedy_actions_maximizers in Ha.
        apply random_choice_any in Ha as [j Hj].
        exists (Draw 0 j). split; [split; simpl; lra|].
        rewrite Hgreedy by (split; simpl; lra).
        unfold row_at. rewrite Hr. exact Hj.
    + intros values_ d Hr Hlen Hd. rewrite (Hgreedy d Hd).
      unfold row_at. rewrite Hr. simpl.
      destruct (random_choice_nonempty (greedy_actions values_) (d_pick d))
        as (a & Ha & Hin).
      * rewrite greedy_actions_maximizers. apply maximizers_nonempty, Hlen.
      * exists a. split; [exact Ha|].
        rewrite greedy_actions_maximizers in Hin. apply in_maximizers, Hin.
  - assert (Hexplore : forall d s t, valid_draw d ->
      chooseAction mdp s t eps d = random_choice (seq 0 (mdp_A mdp)) (d_pick d)).
    { intros d s t [_ Hu]. unfold chooseAction.
      rewrite (binomial1_always _ _ He Hu). reflexivity. }
    split.
    + intros a Ha.
      destruct (random_choice_any (seq 0 (mdp_A mdp)) a) as [j Hj].
      { apply list_elem_of_In, in_seq. lia. }
      exists (Draw 0 j). split; [split; simpl; lra|].
      rewrite Hexplore by (split; simpl; lra). exact Hj.
    + intros d s' t' Hd. rewrite !Hexplore by exact Hd. reflexivity.
Qed.

Lemma chooseAction_extremes_witness :
  (exists d, valid_draw d /\
     chooseAction toggle_mdp 0 [[1; 3]; [2; 2]] 0 d = Ok 1%nat) /\
  (exists d, valid_draw d /\
     chooseAction toggle_mdp 0 [[1; 3]; [2; 2]] 1 d = Ok 0%nat).
Proof.
  split.
  - apply (proj1 (chooseAction_extremes toggle_mdp 0 [[1; 3]; [2; 2]] 0)).
    + reflexivity.
    + exists [1; 3]. split; reflexivity.
  - apply (proj2 (chooseAction_extremes toggle_mdp 0 [[1; 3]; [2; 2]] 1)).
    + reflexivity.
    + simpl. lia.
Defined.

(** On a table of the right shape both branches find an action. *)
Lemma chooseAction_total (mdp : FiniteMDP) (state : nat)
    (stateActionValues : matrix) (eps : Q) (d : draw) :
  shape stateActionValues (mdp_S mdp) (mdp_A mdp) ->
  (1 <= mdp_A mdp)%nat -> (state < mdp_S mdp)%nat ->
  0 <= eps -> eps <= 1 ->
  exists a : nat,
    chooseAction mdp state stateActionValues eps d = Ok a /\
    (a < mdp_A mdp)%nat.
Proof.
  intros Hsh HA Hs H0 H1.
  destruct (lookup_lt_is_Some_2 stateActionValues state) as [values_ Hr];
    [destruct Hsh; lia|].
  assert (Hlen : length values_ = mdp_A mdp) by (eapply shape_lookup; eassumption).
  unfold chooseAction. rewrite (binomial1_in_range _ _ H0 H1). simpl.
  destruct (Qltb (d_u d) eps).
  - destruct (random_choice_nonempty (seq 0 (mdp_A mdp)) (d_pick d))
      as (a & Ha & Hin); [rewrite length_seq; lia|].
    exists a. split; [exact Ha|].
    apply list_elem_of_In, in_seq in Hin. lia.
  - unfold row_at. rewrite Hr. simpl.
    destruct (random_choice_nonempty (greedy_actions values_) (d_pick d))
      as (a & Ha & Hin).
    + rewrite greedy_actions_maximizers. apply maximizers_nonempty. lia.
    + exists a. split; [exact Ha|].
      rewrite greedy_actions_maximizers in Hin.
      apply in_maximizers, attains_max_lt in Hin. lia.
Qed.

(** C9.  For a state below [S], an [S x A] table with [A >= 1] and an
    exploration probability in [[0, 1]], [chooseAction] returns an action
    below [A], whatever the draws; the greedy branch never has an empty
    list of candidates. *)
Theorem chooseAction_in_range (mdp : FiniteMDP) (state : nat)
    (stateActionValues : matrix) (eps : Q) (d : draw) :
  shape stateActionValues (mdp_S mdp) (mdp_A mdp) ->
  (1 <= mdp_A mdp)%nat -> (state < mdp_S mdp)%nat ->
  0 <= eps -> eps <= 1 ->
  (exists a : nat,
     chooseAction mdp state stateActionValues eps d = Ok a /\
     (a < mdp_A mdp)%nat) /\
  (exists values_ : list Q,
     stateActionValues !! state = Some values_ /\
     greedy_actions values_ <> []).
Proof.
  intros Hsh HA Hs H0 H1.
  split; [apply chooseAction_total; assumption|].
  destruct (lookup_lt_is_Some_2 stateActionValues state) as [values_ Hr];
    [destruct Hsh; lia|].
  exists values_. split; [exact Hr|].
  assert (Hlen : length values_ = mdp_A mdp) by (eapply shape_lookup; eassumption).
  pose proof (maximizers_nonempty values_) as Hne.
  rewrite <- greedy_actions_maximizers in Hne.
  intros Hnil. rewrite Hnil in Hne. simpl in Hne. lia.
Qed.

Lemma chooseAction_in_range_witness :
  exists a : nat,
    chooseAction toggle_mdp 1 [[1; 3]; [2; 2]] (1 # 10) (Draw (1 # 2) 5) = Ok a /\
    (a < 2)%nat.
Proof.
  apply (chooseAction_in_range toggle_mdp 1 [[1; 3]; [2; 2]] (1 # 10)
           (Draw (1 # 2) 5)).
  - split; [reflexivity|]. repeat constructor.
  - simpl. lia.
  - simpl. lia.
  - discriminate.
  - discriminate.
Defined.

(** ** Writing one cell of a table *)

Lemma mget_lookup (m : matrix) (s a : nat) (row : list Q) (x : Q) :
  m !! s = Some row -> row !! a = Some x -> mget m s a = x.
Proof. unfold mget. intros -> Ha. simpl. rewrite Ha. reflexivity. Qed.

Lemma cell_at_mget (m : matrix) (s a : nat) (row : list Q) :
  m !! s = Some row -> (a < length row)%nat -> cell_at m s a = Ok (mget m s a).
Proof.
  intros Hs Ha. destruct (lookup_lt_is_Some_2 row a Ha) as [x Hx].
  unfold cell_at, row_at. rewrite Hs. simpl. rewrite Hx.
  rewrite (mget_lookup _ _ _ _ _ Hs Hx). reflexivity.
Qed.

Lemma mget_mset_eq (m : matrix) (s a : nat) (row : list Q) (x : Q) :
  m !! s = Some row -> (a < length row)%nat -> mget (mset m s a x) s a = x.
Proof.
  intros Hs Ha. unfold mset. rewrite Hs.
  apply (mget_lookup _ _ _ (<[a := x]> row)).
  - apply list_lookup_insert_eq. eapply lookup_lt_Some. exact Hs.
  - apply list_lookup_insert_eq. exact Ha.
Qed.

Lemma mget_mset_ne (m : matrix) (s a s2 a2 : nat) (x : Q) :
  s2 <> s \/ a2 <> a -> mget (mset m s a x) s2 a2 = mget m s2 a2.
Proof.
  intros Hne. unfold mset. destruct (m !! s) as [row|] eqn:Hs; [|reflexivity].
  unfold mget. destruct (decide (s2 = s)) as [->|Hs2].
  - rewrite list_lookup_insert_eq by (eapply lookup_lt_Some; exact Hs).
    rewrite Hs. simpl. rewrite list_lookup_insert_ne; [reflexivity|].
    destruct Hne; congruence.
  - rewrite list_lookup_insert_ne by congruence. reflexivity.
Qed.

Lemma shape_mset (m : matrix) (nS nA s a : nat) (x : Q) :
  shape m nS nA -> shape (mset m s a x) nS nA.
Proof.
  intros [Hlen Hrows]. unfold mset.
  destruct (m !! s) as [row|] eqn:Hs; [|split; assumption].
  split; [rewrite length_insert; exact Hlen|].
  apply Forall_insert; [exact Hrows|].
  rewrite length_insert. rewrite Forall_forall in Hrows.
  apply Hrows. eapply list_elem_of_lookup_2. exact Hs.
Qed.

Lemma tensor_at_in_range (t : tensor3) (d0 d1 d2 s a s' : nat) :
  t_shape t = (d0, d1, d2) -> (s < d0)%nat -> (a < d1)%nat -> (s' < d2)%nat ->
  tensor_at t s a s' = Ok (t_cell t s a s').
Proof.
  intros Ht Hs Ha Hs'. unfold tensor_at. rewrite Ht.
  rewrite (proj2 (Nat.ltb_lt _ _) Hs), (proj2 (Nat.ltb_lt _ _) Ha),
    (proj2 (Nat.ltb_lt _ _) Hs').
  reflexivity.
Qed.

(** ** One turn of Q-learning *)

(** What one turn does to the variables of the episode. *)
Lemma q_step_effect {E H : Type} (environment : Env E H) (mdp : FiniteMDP)
    (alpha eps gamma : Q) (d : draw) (st : episode E) :
  fits environment mdp ->
  shape (q_table st) (mdp_S mdp) (mdp_A mdp) ->
  (1 <= mdp_A mdp)%nat -> (q_currentState st < mdp_S mdp)%nat ->
  0 <= eps -> eps <= 1 ->
  exists (a : nat) (o : step_out H) (st' : episode E) (next_values : list Q)
         (best : Q),
    let s := q_currentState st in
    let s' := q_currentState st' in
    let r := t_cell (rewardsTable environment) s a s' in
    q_step environment mdp alpha eps gamma d st = Ok st' /\
    chooseAction mdp s (q_table st) eps d = Ok a /\
    step environment (q_env st) a = (o, q_env st') /\
    s' = get_state environment (q_env st') /\
    q_rewards st' = q_rewards st + r /\
    q_transitions st' = q_transitions st ++ [(s, a, s')] /\
    q_table st !! s' = Some next_values /\
    best ∈ next_values /\ Forall (fun y => y <= best) next_values /\
    mget (q_table st') s a =
      mget (q_table st) s a + alpha * (r + gamma * best - mget (q_table st) s a) /\
    (forall s2 a2 : nat, s2 <> s \/ a2 <> a ->
       mget (q_table st') s2 a2 = mget (q_table st) s2 a2) /\
    shape (q_table st') (mdp_S mdp) (mdp_A mdp).
Proof.
  intros [Hst Hsh3] Hsh HA Hs H0 H1.
  destruct (chooseAction_total mdp (q_currentState st) (q_table st) eps d
              Hsh HA Hs H0 H1) as (a & Hc & Ha).
  destruct (step environment (q_env st) a) as [o e] eqn:Hstep.
  pose proof (Hst e) as Hs'.
  destruct (lookup_lt_is_Some_2 (q_table st) (q_currentState st)) as [row Hrow];
    [destruct Hsh; lia|].
  destruct (lookup_lt_is_Some_2 (q_table st) (get_state environment e))
    as [next_values Hnext]; [destruct Hsh; lia|].
  assert (Hlrow : length row = mdp_A mdp) by (eapply shape_lookup; eassumption).
  assert (Hlnext : length next_values = mdp_A mdp)
    by (eapply shape_lookup; eassumption).
  destruct (np_max_nonempty next_values) as [best Hbest]; [lia|].
  pose proof (np_max_spec _ _ Hbest) as [Hin Hall].
  eexists a, o, (Episode e _ (get_state environment e) _ _), next_values, best.
  simpl. split.
  { unfold q_step. rewrite Hc. simpl. rewrite Hstep.
    rewrite (tensor_at_in_range _ _ _ _ _ _ _ Hsh3) by (assumption || lia).
    simpl. unfold q_target.
    rewrite (cell_at_mget _ _ _ row Hrow) by lia. simpl.
    unfold row_at at 1. rewrite Hnext. simpl. rewrite Hbest. simpl.
    reflexivity. }
  repeat split; try assumption; try reflexivity.
  - apply (mget_mset_eq _ _ _ row); [exact Hrow|lia].
  - intros s2 a2 Hne. apply mget_mset_ne. exact Hne.
  - exact (proj1 (shape_mset _ _ _ _ _ _ Hsh)).
  - exact (proj2 (shape_mset _ _ _ _ _ _ Hsh)).
Qed.

Lemma q_step_ignores_report {E H : Type} (f : Q -> Q) (environment : Env E H)
    (mdp : FiniteMDP) (alpha eps gamma : Q) (d : draw) (st : episode E) :
  q_step (reporting f environment) mdp alpha eps gamma d st =
  q_step environment mdp alpha eps gamma d st.
Proof.
  unfold q_step.
  destruct (chooseAction mdp (q_currentState st) (q_table st) eps d) as [a|];
    [|reflexivity].
  simpl. destruct (step environment (q_env st) a) as [o e]. reflexivity.
Qed.

(** C3.  One turn of [q_learning] succeeds and: the reward it adds to
    [rewards] and uses in the update is the cell of the reward tensor at the
    realized [(currentState, currentAction, newState)], whatever reward the
    [step] call reported (changing the reported rewards changes nothing);
    the cell [Q[s, a]] becomes
    [Q[s, a] + alpha * (r + gamma * max Q[s_next, :] - Q[s, a])]; every other
    cell of the table is unchanged. *)
Theorem q_step_update {E H : Type} (environment : Env E H) (mdp : FiniteMDP)
    (alpha eps gamma : Q) (d : draw) (st : episode E) :
  fits environment mdp ->
  shape (q_table st) (mdp_S mdp) (mdp_A mdp) ->
  (1 <= mdp_A mdp)%nat -> (q_currentState st < mdp_S mdp)%nat ->
  0 <= eps -> eps <= 1 ->
  (forall f : Q -> Q,
     q_step (reporting f environment) mdp alpha eps gamma d st =
     q_step environment mdp alpha eps gamma d st) /\
  exists (a : nat) (o : step_out H) (st' : episode E) (next_values : list Q)
         (best : Q),
    let s := q_currentState st in
    let s' := q_currentState st' in
    let r := t_cell (rewardsTable environment) s a s' in
    q_step environment mdp alpha eps gamma d st = Ok st' /\
    chooseAction mdp s (q_table st) eps d = Ok a /\
    step environment (q_env st) a = (o, q_env st') /\
    s' = get_state environment (q_env st') /\
    q_rewards st' = q_rewards st + r /\
    q_transitions st' = q_transitions st ++ [(s, a, s')] /\
    q_table st !! s' = Some next_values /\
    best ∈ next_values /\ Forall (fun y => y <= best) next_values /\
    mget (q_table st') s a =
      mget (q_table st) s a + alpha * (r + gamma * best - mget (q_table st) s a) /\
    (forall s2 a2 : nat, s2 <> s \/ a2 <> a ->
       mget (q_table st') s2 a2 = mget (q_table st) s2 a2) /\
    shape (q_table st') (mdp_S mdp) (mdp_A mdp).
Proof.
  intros Hfit Hsh HA Hs H0 H1. split.
  - intros f. apply q_step_ignores_report.
  - apply q_step_effect; assumption.
Qed.

Lemma toggle_fits : fits toggle_env toggle_mdp.
Proof.
  split; [|reflexivity]. intros e.
  change (e mod 2 < 2)%nat. apply Nat.mod_upper_bound. lia.
Qed.

Lemma q_step_update_witness :
  exists st' : episode nat,
    q_step toggle_env toggle_mdp (1 # 10) (1 # 100) (9 # 10) (Draw (1 # 2) 0)
      (Episode 0%nat [[0; 0]; [0; 0]] 0%nat 0 []) = Ok st'.
Proof.
  destruct (q_step_update toggle_env toggle_mdp (1 # 10) (1 # 100) (9 # 10)
              (Draw (1 # 2) 0) (Episode 0%nat [[0; 0]; [0; 0]] 0%nat 0 []))
    as (_ & a & o & st' & next_values & best & Hstep & _).
  - exact toggle_fits.
  - split; [reflexivity|]. repeat constructor.
  - simpl. lia.
  - simpl. lia.
  - discriminate.
  - discriminate.
  - exists st'. exact Hstep.
Defined.

(** ** A whole episode of Q-learning *)

Lemma q_loop_effect {E H : Type} (environment : Env E H) (mdp : FiniteMDP)
    (alpha eps gamma : Q) :
  fits environment mdp -> (1 <= mdp_A mdp)%nat -> 0 <= eps -> eps <= 1 ->
  forall (ds : list draw) (st : episode E),
    shape (q_table st) (mdp_S mdp) (mdp_A mdp) ->
    (q_currentState st < mdp_S mdp)%nat ->
    exists (st' : episode E) (new : list (nat * nat * nat)),
      q_loop environment mdp alpha eps gamma ds st = Ok st' /\
      q_transitions st' = q_transitions st ++ new /\
      length new = length ds /\
      q_rewards st' =
        fold_left Qplus (map (cell_of (rewardsTable environment)) new)
          (q_rewards st).
Proof.
  intros Hfit HA H0 H1. induction ds as [|d ds IH]; intros st Hsh Hs.
  - exists st, []. simpl. rewrite app_nil_r. repeat split.
  - destruct (q_step_effect environment mdp alpha eps gamma d st
                Hfit Hsh HA Hs H0 H1)
      as (a & o & st1 & nv & best & Hstep & _ & _ & Hs1 & Hr & Ht & _ & _ & _
          & _ & _ & Hsh1).
    simpl in Hstep, Hs1, Hr, Ht.
    destruct (IH st1 Hsh1) as (st' & new & Hl & Ht' & Hlen & Hr').
    { rewrite Hs1. apply Hfit. }
    exists st', ((q_currentState st, a, q_currentState st1) :: new).
    simpl. rewrite Hstep. simpl. split; [exact Hl|].
    split; [rewrite Ht', Ht, <- app_assoc; reflexivity|].
    split; [rewrite Hlen; reflexivity|].
    rewrite Hr', Hr. reflexivity.
Qed.

(** C10 (as amended).  For [n > 0] turns, [q_learning] returns the sum of
    the [n] reward-tensor cells at the realized transitions divided by
    [n].  The returned value is the undivided total exactly when [n = 1]
    or the total is zero, and the caller, who chose [n], recovers the
    total as the returned value times [n]. *)
Theorem q_learning_returns_mean {E H : Type} (environment : Env E H)
    (mdp : FiniteMDP) (stateActionValues : matrix) (n : nat)
    (alpha eps gamma : Q) (draws : nat -> draw) (e : E) :
  (0 < n)%nat ->
  fits environment mdp ->
  shape stateActionValues (mdp_S mdp) (mdp_A mdp) ->
  (1 <= mdp_A mdp)%nat -> 0 <= eps -> eps <= 1 ->
  exists (ret : Q) (st : episode E),
    let total := rewards_at (rewardsTable environment) (q_transitions st) in
    q_learning environment mdp stateActionValues n alpha eps gamma draws e =
      Ok (ret, st) /\
    length (q_transitions st) = n /\
    q_rewards st = total /\
    ret = total / inject_Z (Z.of_nat n) /\
    ret * inject_Z (Z.of_nat n) == total /\
    (ret == total <-> n = 1%nat \/ total == 0).
Proof.
  intros Hn Hfit Hsh HA H0 H1.
  destruct (q_loop_effect environment mdp alpha eps gamma Hfit HA H0 H1
              (map draws (seq 0 n))
              (Episode e stateActionValues (get_state environment e) 0 []))
    as (st & new & Hl & Ht & Hlen & Hr); [exact Hsh|apply Hfit|].
  simpl in Ht, Hr. rewrite length_map, length_seq in Hlen.
  assert (Htot : q_rewards st =
                 rewards_at (rewardsTable environment) (q_transitions st)).
  { rewrite Hr, Ht. reflexivity. }
  assert (Hq : 1 <= inject_Z (Z.of_nat n)).
  { change 1 with (inject_Z 1). rewrite <- Zle_Qle. lia. }
  exists (q_rewards st / inject_Z (Z.of_nat n)), st. simpl.
  split.
  { unfold q_learning. rewrite Hl. simpl.
    destruct (n =? 0)%nat eqn:Hz; [apply Nat.eqb_eq in Hz; lia|reflexivity]. }
  split; [rewrite Ht; exact Hlen|].
  split; [exact Htot|].
  split; [rewrite Htot; reflexivity|].
  rewrite <- Htot.
  split; [field; lra|].
  assert (Hmul : q_rewards st / inject_Z (Z.of_nat n) * inject_Z (Z.of_nat n)
                 == q_rewards st) by (field; lra).
  split.
  - intros Heq. rewrite Heq in Hmul.
    assert (Hz : q_rewards st * (inject_Z (Z.of_nat n) - 1) == 0) by lra.
    apply Qmult_integral in Hz as [Hz|Hz]; [right; exact Hz|left].
    assert (Hone : inject_Z (Z.of_nat n) == inject_Z 1)
      by (change (inject_Z 1) with 1; lra).
    unfold Qeq in Hone. simpl in Hone. lia.
  - intros [->|Hz].
    + change (inject_Z (Z.of_nat 1)) with 1. field.
    + rewrite Hz. field. lra.
Qed.

Lemma q_learning_returns_mean_witness :
  exists (ret : Q) (st : episode nat),
    q_learning toggle_env toggle_mdp [[0; 0]; [0; 0]] 3 (1 # 10) (1 # 100)
      (9 # 10) (fun i => Draw (1 # 2) i) 0%nat = Ok (ret, st) /\
    length (q_transitions st) = 3%nat.
Proof.
  destruct (q_learning_returns_mean toggle_env toggle_mdp [[0; 0]; [0; 0]] 3
              (1 # 10) (1 # 100) (9 # 10) (fun i => Draw (1 # 2) i) 0%nat)
    as (ret & st & Hq & Hlen & _).
  - lia.
  - exact toggle_fits.
  - split; [reflexivity|]. repeat constructor.
  - simpl. lia.
  - discriminate.
  - discriminate.
  - exists ret, st. split; assumption.
Defined.

(** C10 as stated fails twice.  A call of one turn returns the undivided
    total (here [4], the cell of the transition it made); and after a call
    of three turns the total ([18]) is three times the returned value
    ([6]), which the caller can compute. *)
Lemma q_learning_total_from_return :
  (exists (ret : Q) (st : episode nat),
     q_learning toggle_env toggle_mdp [[0; 0]; [0; 0]] 1 (1 # 10) (1 # 100)
       (9 # 10) (fun i => Draw (1 # 2) i) 0%nat = Ok (ret, st) /\
     rewards_at (rewardsTable toggle_env) (q_transitions st) == 4 /\
     ret == 4) /\
  (exists (ret : Q) (st : episode nat),
     q_learning toggle_env toggle_mdp [[0; 0]; [0; 0]] 3 (1 # 10) (1 # 100)
       (9 # 10) (fun i => Draw (1 # 2) i) 0%nat = Ok (ret, st) /\
     rewards_at (rewardsTable toggle_env) (q_transitions st) == 18 /\
     ret == 6 /\ ret * 3 == 18).
Proof.
  split; eexists _, _; repeat split; vm_compute; reflexivity.
Qed.

(** ** The weights the rollout driver gives to the sampler *)

Lemma c_min_le (l : list Q) (m : Q) :
  c_min l = Ok m -> Forall (fun y => m <= y) l.
Proof.
  destruct l as [|x t]; simpl; [discriminate|]. intros [= <-].
  assert (Hgen : forall (t : list Q) (x : Q),
    fold_left (fun m y => if Qltb y m then y else m) t x <= x /\
    Forall (fun y => fold_left (fun m y => if Qltb y m then y else m) t x <= y) t).
  { clear. induction t as [|y t IH]; simpl; intros x.
    - split; [lra|constructor].
    - destruct (Qltb y x) eqn:Hyx.
      + apply Qltb_lt in Hyx. destruct (IH y) as [Hy Ht].
        split; [lra|]. constructor; assumption.
      + apply Qltb_ge in Hyx. destruct (IH x) as [Hx Ht].
        split; [exact Hx|]. constructor; [lra|exact Ht]. }
  destruct (Hgen t x) as [Hx Ht]. constructor; assumption.
Qed.

Lemma np_sum_nonneg (l : list Q) :
  Forall (fun y => 0 <= y) l -> 0 <= np_sum l.
Proof.
  induction 1 as [|x l Hx Hl IH].
  - unfold np_sum. simpl. lra.
  - rewrite np_sum_cons. lra.
Qed.

Lemma normalized_nonneg (l : list Q) :
  Forall (fun y => 0 <= y) l ->
  Forall (fun y => 0 <= y) (map (fun w => w / np_sum l) l).
Proof.
  intros Hl. pose proof (np_sum_nonneg l Hl) as Hs.
  apply Forall_fmap. eapply Forall_impl; [exact Hl|].
  intros w Hw. simpl. unfold Qdiv.
  apply Qmult_le_0_compat; [exact Hw|]. apply Qinv_le_0_compat. exact Hs.
Qed.

(** With exact cells every weight vector that is prepared is non-negative. *)
Lemma prepare_weights_nonneg (row : list Q) (w : prepared Q) :
  prepare_weights row = Ok w -> Forall (fun y => 0 <= y) (weights w).
Proof.
  unfold prepare_weights. simpl.
  set (start := if Qeq_bool (c_sum row) 0
                then (replicate (length row) 1, false) else (row, true)).
  destruct start as [myweights view] eqn:Hstart.
  intros Hp. apply bind_Ok in Hp as (minWeight & Hmin & Hp).
  injection Hp as <-. simpl.
  apply c_min_le in Hmin.
  destruct (Qltb minWeight 0) eqn:Hneg.
  - apply (normalized_nonneg
             (map (fun w => w + (- minWeight + (1 # 1000000000000000000000000000000)))
                myweights)).
    apply Forall_fmap. eapply Forall_impl; [exact Hmin|].
    intros y Hy. simpl in Hy |- *.
    assert (Ht : 0 < 1 # 1000000000000000000000000000000) by reflexivity.
    revert Ht. generalize (1 # 1000000000000000000000000000000).
    intros tiny Ht. lra.
  - apply Qltb_ge in Hneg. apply (normalized_nonneg myweights).
    eapply Forall_impl; [exact Hmin|]. intros y Hy. simpl in *. lra.
Qed.

(** Over a completed run with exact cells, every weight vector given to
    the sampler is non-negative and at most [maxNumIterations] turns are
    executed. *)
Lemma rollout_weights_exact {E H D : Type} (environment : Env E H)
    (choices : nat -> list Q -> D -> res nat) (draws : nat -> D)
    (mdp : FiniteMDP) (printInfo : bool) (its : list nat) :
  forall st st' : rollout E H,
    rollout_loop environment choices draws mdp printInfo its st = Ok st' ->
    Forall (fun c => Forall (fun y => 0 <= y) (call_weights c)) (r_calls st) ->
    Forall (fun c => Forall (fun y => 0 <= y) (call_weights c)) (r_calls st').
Proof.
  induction its as [|it its IH]; simpl; intros st st' Hl Hst.
  - injection Hl as <-. exact Hst.
  - destruct (rollout_step environment choices draws mdp printInfo it st)
      as [[st1 b]|] eqn:Hs; [|discriminate].
    assert (H1 : Forall (fun c => Forall (fun y => 0 <= y) (call_weights c))
                   (r_calls st1)).
    { unfold rollout_step in Hs.
      apply bind_Ok in Hs as (row & _ & Hs).
      apply bind_Ok in Hs as (w & Hw & Hs).
      apply bind_Ok in Hs as (action & _ & Hs).
      destruct (step environment (r_env st) action) as [o e].
      injection Hs as <- _. simpl.
      apply Forall_app. split; [exact Hst|].
      constructor; [|constructor]. simpl.
      apply (prepare_weights_nonneg row). exact Hw. }
    destruct b.
    + apply (IH st1); assumption.
    + injection Hl as <-. exact H1.
Qed.

(** C5, at the input on which the program departs from it.  A policy row
    of two equal negative entries, [[-1.0, -1.0]], is neither zero-sum nor
    non-negative, so it is shifted by [(-minWeight) + 1e-30]; in binary64
    that sum is [1.0] (the epsilon is absorbed), the row becomes [[0, 0]],
    its sum is [0], and the weights given to the sampler are [[nan, nan]].
    With exact cells the same code gives [[1/2, 1/2]]. *)
Theorem prepare_weights_binary64_nan :
  c_add (c_opp b64_minus_one) c_tiny = (c_one : spec_float) /\
  prepare_weights [b64_minus_one; b64_minus_one] =
    Ok {| weights := [S754_nan; S754_nan]; in_policy := true |} /\
  exists w : prepared Q,
    prepare_weights [-1; -1] = Ok w /\
    Forall (fun y => y == 1 # 2) (weights w).
Proof.
  split; [vm_compute; reflexivity|].
  split; [vm_compute; reflexivity|].
  eexists. split; [vm_compute; reflexivity|].
  repeat constructor.
Qed.

(** ** Loops that stop on a small change *)

Lemma iterate_S {A : Type} (f : A -> A) (k : nat) : forall x : A,
  iterate f (S k) x = f (iterate f k x).
Proof.
  induction k as [|k IH]; intros x; [reflexivity|].
  change (iterate f (S (S k)) x) with (iterate f (S k) (f x)).
  rewrite IH. reflexivity.
Qed.

Lemma iterate_invariant {A : Type} (I : A -> Prop) (f : A -> A) :
  (forall x, I x -> I (f x)) ->
  forall (k : nat) (x : A), I x -> I (iterate f k x).
Proof.
  intros Hf. induction k as [|k IH]; intros x Hx; simpl; [exact Hx|].
  apply IH, Hf, Hx.
Qed.

(** The loop stops at the first pass that changes little, provided the
    fuel lasts until then. *)
Lemma until_small_stops {A : Type} (f : A -> A) (small : A -> A -> bool)
    (n : nat) :
  forall (fuel : nat) (x : A) (iteration : nat),
    (forall k, (k < n)%nat ->
       small (iterate f (S k) x) (iterate f k x) = false) ->
    small (iterate f (S n) x) (iterate f n x) = true ->
    (n < fuel)%nat ->
    until_small f small fuel x iteration =
    Some (iterate f (S n) x, (iteration + n)%nat).
Proof.
  induction n as [|n IH]; intros fuel x iteration Hbig Hsmall Hfuel;
    (destruct fuel as [|fuel]; [lia|]); simpl.
  - simpl in Hsmall. rewrite Hsmall, Nat.add_0_r. reflexivity.
  - pose proof (Hbig 0%nat ltac:(lia)) as Hfirst. simpl in Hfirst.
    rewrite Hfirst. rewrite (IH fuel (f x) (S iteration)).
    + replace (S iteration + n)%nat with (iteration + S n)%nat by lia.
      reflexivity.
    + intros k Hk. apply (Hbig (S k)). lia.
    + exact Hsmall.
    + lia.
Qed.

(** Whatever the loop returns is the result of the first such pass. *)
Lemma until_small_result {A : Type} (f : A -> A) (small : A -> A -> bool)
    (fuel : nat) :
  forall (x y : A) (iteration m : nat),
    until_small f small fuel x iteration = Some (y, m) ->
    exists n : nat,
      (n < fuel)%nat /\ m = (iteration + n)%nat /\ y = iterate f (S n) x /\
      small (iterate f (S n) x) (iterate f n x) = true /\
      forall k, (k < n)%nat ->
        small (iterate f (S k) x) (iterate f k x) = false.
Proof.
  induction fuel as [|fuel IH]; intros x y iteration m; simpl; [discriminate|].
  destruct (small (f x) x) eqn:Hs.
  - intros [= <- <-]. exists 0%nat. repeat split; try lia. exact Hs.
  - intros Hl. apply IH in Hl as (n & Hn & -> & -> & Hsmall & Hbig).
    exists (S n). repeat split; try lia; try assumption.
    intros k Hk. destruct k as [|k]; [exact Hs|].
    apply (Hbig k). lia.
Qed.

(** ** Sums and writes used below *)

Lemma np_sum_scale (c : Q) (f : nat -> Q) (l : list nat) :
  np_sum (map (fun i => c * f i) l) == c * np_sum (map f l).
Proof.
  induction l as [|i l IH]; simpl.
  - unfold np_sum. simpl. ring.
  - rewrite !np_sum_cons, IH. ring.
Qed.

Lemma np_sum_ext (f g : nat -> Q) (l : list nat) :
  (forall i, i ∈ l -> f i == g i) ->
  np_sum (map f l) == np_sum (map g l).
Proof.
  induction l as [|i l IH]; simpl; intros Hfg; [reflexivity|].
  rewrite !np_sum_cons, IH.
  - rewrite (Hfg i) by left. reflexivity.
  - intros j Hj. apply Hfg. right. exact Hj.
Qed.

Lemma fold_insert_seq {A : Type} (f : nat -> A) (k : nat) : forall l : list A,
  (k <= length l)%nat ->
  fold_left (fun l i => <[i := f i]> l) (seq 0 k) l = map f (seq 0 k) ++ drop k l.
Proof.
  induction k as [|k IH]; intros l Hk.
  - simpl. rewrite drop_0. reflexivity.
  - rewrite seq_S, fold_left_app, IH by lia. simpl.
    rewrite map_app. simpl.
    rewrite insert_app_r_alt by (rewrite length_map, length_seq; lia).
    rewrite length_map, length_seq, Nat.sub_diag, <- app_assoc. f_equal.
    destruct (lookup_lt_is_Some_2 l k) as [x Hx]; [lia|].
    rewrite (drop_S _ _ _ Hx). reflexivity.
Qed.

Lemma fold_insert_all {A : Type} (f : nat -> A) (l : list A) :
  fold_left (fun l i => <[i := f i]> l) (seq 0 (length l)) l =
  map f (seq 0 (length l)).
Proof.
  rewrite fold_insert_seq by lia. rewrite drop_all, app_nil_r. reflexivity.
Qed.

Lemma fold_mset_row_gen (s : nat) (f : nat -> Q) (idxs : list nat) :
  forall (m : matrix) (row : list Q),
    m !! s = Some row ->
    fold_left (fun m a => mset m s a (f a)) idxs m =
    <[s := fold_left (fun row a => <[a := f a]> row) idxs row]> m.
Proof.
  induction idxs as [|a idxs IH]; simpl; intros m row Hrow.
  - symmetry. apply list_insert_id. exact Hrow.
  - unfold mset at 2. rewrite Hrow.
    rewrite (IH _ (<[a := f a]> row)).
    + apply list_insert_insert_eq.
    + apply list_lookup_insert_eq. eapply lookup_lt_Some. exact Hrow.
Qed.

Lemma np_max_max_of (l : list Q) :
  (0 < length l)%nat -> np_max l = Ok (max_of l).
Proof. destruct l; simpl; [lia|reflexivity]. Qed.
(** ** Sums over an index range and maxima of close lists *)

Lemma np_sum_app (l1 l2 : list Q) : np_sum (l1 ++ l2) == np_sum l1 + np_sum l2.
Proof.
  unfold np_sum at 1. rewrite fold_left_app, fold_left_Qplus_acc.
  reflexivity.
Qed.

(** Two scans over lists that are pointwise within [c] of each other end
    within [c] of each other. *)
Lemma scan_max_close (c : Q) (t t' : list Q) :
  Forall2 (fun y y' => Qabs (y - y') <= c) t t' ->
  forall x x' : Q, Qabs (x - x') <= c ->
    Qabs (scan_max x t - scan_max x' t') <= c.
Proof.
  unfold scan_max. induction 1 as [|y y' t t' Hy Ht IH]; intros x x' Hx; simpl.
  - exact Hx.
  - apply IH.
    apply Qabs_Qle_condition in Hx. apply Qabs_Qle_condition in Hy.
    apply Qabs_Qle_condition.
    destruct (Qltb x y) eqn:H1; destruct (Qltb x' y') eqn:H2;
      try apply Qltb_lt in H1; try apply Qltb_lt in H2;
      try apply Qltb_ge in H1; try apply Qltb_ge in H2; split; lra.
Qed.

Lemma max_of_map_close (f g : nat -> Q) (n : nat) (c : Q) :
  0 <= c -> (forall i, (i < n)%nat -> Qabs (f i - g i) <= c) ->
  Qabs (max_of (map f (seq 0 n)) - max_of (map g (seq 0 n))) <= c.
Proof.
  intros Hc Hfg.
  assert (Hall : Forall2 (fun y y' => Qabs (y - y') <= c)
                   (map f (seq 0 n)) (map g (seq 0 n))).
  { apply Forall2_fmap, Forall_Forall2_diag, Forall_forall.
    intros i Hi. apply Hfg. apply list_elem_of_In, in_seq in Hi. lia. }
  destruct Hall as [|y y' t t' Hy Ht]; simpl.
  - exact Hc.
  - apply scan_max_close; assumption.
Qed.

(** *** Two lists of one length, cell by cell *)

Lemma zip_with_seq {A B : Type} (f : A -> A -> B) (d : A) (x y : list A)
    (n : nat) :
  length x = n -> length y = n ->
  zip_with f x y =
  map (fun i => f (default d (x !! i)) (default d (y !! i))) (seq 0 n).
Proof.
  intros Hx Hy. apply list_eq. intros i.
  rewrite lookup_zip_with, list_lookup_fmap.
  destruct (decide (i < n)%nat) as [Hi|Hi].
  - rewrite lookup_seq_lt by exact Hi.
    destruct (lookup_lt_is_Some_2 x i) as [a Ha]; [lia|].
    destruct (lookup_lt_is_Some_2 y i) as [b Hb]; [lia|].
    simpl. rewrite Ha, Hb. reflexivity.
  - rewrite lookup_seq_ge by lia.
    rewrite (proj2 (lookup_ge_None x i)) by lia. reflexivity.
Qed.


Lemma row_as_map (m : matrix) (s : nat) (row : list Q) :
  m !! s = Some row -> map (mget m s) (seq 0 (length row)) = row.
Proof.
  intros Hrow. apply list_eq. intros a. rewrite list_lookup_fmap.
  destruct (row !! a) as [x|] eqn:Hx.
  - rewrite lookup_seq_lt by (eapply lookup_lt_Some; exact Hx). simpl.
    rewrite (mget_lookup _ _ _ _ _ Hrow Hx). reflexivity.
  - rewrite lookup_seq_ge; [reflexivity|]. apply lookup_ge_None. exact Hx.
Qed.

(** ** Tables over any cell arithmetic *)

Section TableFacts.
Context {T : Type} `{Num T}.

Lemma nget_lookup (v : list T) (i : nat) (x : T) :
  v !! i = Some x -> nget v i = x.
Proof. intros Hx. unfold nget. rewrite Hx. reflexivity. Qed.

Lemma nget2_lookup (m : list (list T)) (s a : nat) (row : list T) (x : T) :
  m !! s = Some row -> row !! a = Some x -> nget2 m s a = x.
Proof. intros Hs Ha. unfold nget2. rewrite Hs. simpl. rewrite Ha. reflexivity. Qed.

Lemma length_nzeros (n : nat) : length (nzeros n) = n.
Proof. apply length_replicate. Qed.

Lemma nget_nzeros (n i : nat) : nget (nzeros n) i = n_zero.
Proof.
  unfold nget, nzeros.
  destruct (replicate n n_zero !! i) as [x|] eqn:Hx; [|reflexivity].
  apply lookup_replicate in Hx as [-> _]. reflexivity.
Qed.

Lemma nget2_nzeros2 (nS nA s a : nat) : nget2 (nzeros2 nS nA) s a = n_zero.
Proof.
  unfold nget2, nzeros2, nzeros.
  destruct (replicate nS (replicate nA n_zero) !! s) as [row|] eqn:Hrow;
    [|reflexivity].
  apply lookup_replicate in Hrow as [-> _]. simpl.
  destruct (replicate nA n_zero !! a) as [x|] eqn:Hx; [|reflexivity].
  apply lookup_replicate in Hx as [-> _]. reflexivity.
Qed.

Lemma fold_nset2_row (s : nat) (f : nat -> T) (idxs : list nat) :
  forall (m : list (list T)) (row : list T),
    m !! s = Some row ->
    fold_left (fun m a => nset2 m s a (f a)) idxs m =
    <[s := fold_left (fun row a => <[a := f a]> row) idxs row]> m.
Proof.
  induction idxs as [|a idxs IH]; simpl; intros m row Hrow.
  - symmetry. apply list_insert_id. exact Hrow.
  - unfold nset2 at 2. rewrite Hrow.
    rewrite (IH _ (<[a := f a]> row)).
    + apply list_insert_insert_eq.
    + apply list_lookup_insert_eq. eapply lookup_lt_Some. exact Hrow.
Qed.

Lemma nmax_nmax_of (l : list T) :
  (0 < length l)%nat -> nmax l = Ok (nmax_of l).
Proof. destruct l; simpl; [lia|reflexivity]. Qed.

Lemma sum_left_app (l1 l2 : list T) (acc : T) :
  sum_left (l1 ++ l2) acc = sum_left l2 (sum_left l1 acc).
Proof. apply fold_left_app. Qed.

Lemma sum_left_map (f : nat -> T) (l : list nat) : forall acc : T,
  fold_left (fun value i => n_add value (f i)) l acc = sum_left (map f l) acc.
Proof. induction l as [|i l IH]; intros acc; simpl; [reflexivity|apply IH]. Qed.

Lemma nabs_diff_seq (x y : list T) (n : nat) :
  length x = n -> length y = n ->
  nabs_diff x y =
  map (fun i => n_abs (n_sub (nget x i) (nget y i))) (seq 0 n).
Proof.
  intros Hx Hy. unfold nabs_diff, nget.
  exact (zip_with_seq (fun a b => n_abs (n_sub a b)) n_zero x y n Hx Hy).
Qed.
End TableFacts.

(** ** Policy evaluation *)

Section EvaluationFacts.
Context {T : Type} `{Num T}.
Variables (nS nA : nat).
Variables (P R : nat -> nat -> nat -> T).
Variable in_place : bool.
Variable policy : nat -> nat -> T.
Variable discountGamma : T.

(** The two inner loops add the terms of the actions of non-zero
    probability, from the left. *)
Lemma state_value_terms (src : list T) (s : nat) :
  state_value nS nA P R policy discountGamma src s =
  sum_left (evaluation_terms nS nA P R policy discountGamma (nget src) s)
    n_zero.
Proof.
  unfold state_value, evaluation_terms.
  generalize (n_zero : T) at 2 4 as acc. generalize (seq 0 nA) as l.
  induction l as [|a l IH]; intros acc; [reflexivity|].
  simpl. destruct (n_eqb (policy s a) n_zero).
  - apply IH.
  - rewrite sum_left_app, IH. f_equal.
    apply (sum_left_map
             (fun nexts =>
                n_mul (n_mul (policy s a) (P s a nexts))
                  (n_add (R s a nexts)
                     (n_mul discountGamma (nget src nexts))))).
Qed.

Lemma evaluation_terms_ext (V W : nat -> T) (s : nat) :
  (forall s', (s' < nS)%nat -> V s' = W s') ->
  evaluation_terms nS nA P R policy discountGamma V s =
  evaluation_terms nS nA P R policy discountGamma W s.
Proof.
  intros HVW. unfold evaluation_terms. apply flat_map_ext. intros a.
  destruct (n_eqb (policy s a) n_zero); [reflexivity|].
  apply map_ext_in. intros s' Hs'. apply in_seq in Hs'.
  rewrite HVW by lia. reflexivity.
Qed.

Lemma sweep_upto_S (k : nat) (state_values new_state_values : list T) :
  sweep_upto nS nA P R (S k) in_place policy discountGamma
    state_values new_state_values =
  let done := sweep_upto nS nA P R k in_place policy discountGamma
                state_values new_state_values in
  <[k := state_value nS nA P R policy discountGamma
           (if in_place then done else state_values) k]> done.
Proof.
  unfold sweep_upto. rewrite seq_S, fold_left_app. reflexivity.
Qed.

Lemma length_sweep_upto (k : nat) (state_values new_state_values : list T) :
  length (sweep_upto nS nA P R k in_place policy discountGamma
            state_values new_state_values) = length new_state_values.
Proof.
  induction k as [|k IH]; [reflexivity|].
  rewrite sweep_upto_S. simpl. rewrite length_insert. exact IH.
Qed.

(** A pass stopped after [k] states has not touched the cells from [k] on. *)
Lemma sweep_upto_later (k i : nat) (state_values new_state_values : list T) :
  (k <= i)%nat ->
  sweep_upto nS nA P R k in_place policy discountGamma
    state_values new_state_values !! i = new_state_values !! i.
Proof.
  induction k as [|k IH]; intros Hk; [reflexivity|].
  rewrite sweep_upto_S. simpl.
  rewrite list_lookup_insert_ne by lia. apply IH. lia.
Qed.

(** The cells below [k] are final once the pass has gone through [k]
    states. *)
Lemma sweep_upto_earlier (k j i : nat)
    (state_values new_state_values : list T) :
  (i < k)%nat -> (k <= j)%nat ->
  sweep_upto nS nA P R j in_place policy discountGamma
    state_values new_state_values !! i =
  sweep_upto nS nA P R k in_place policy discountGamma
    state_values new_state_values !! i.
Proof.
  intros Hi Hk. induction j as [|j IH].
  - lia.
  - destruct (decide (k = S j)) as [->|Hne]; [reflexivity|].
    rewrite sweep_upto_S. simpl.
    rewrite list_lookup_insert_ne by lia. apply IH. lia.
Qed.

Lemma nget_sweep_upto_S (k : nat) (state_values new_state_values : list T) :
  (k < length new_state_values)%nat ->
  nget (sweep_upto nS nA P R (S k) in_place policy discountGamma
          state_values new_state_values) k =
  state_value nS nA P R policy discountGamma
    (if in_place
     then sweep_upto nS nA P R k in_place policy discountGamma
            state_values new_state_values
     else state_values) k.
Proof.
  intros Hk. apply nget_lookup. rewrite sweep_upto_S. simpl.
  apply list_lookup_insert_eq. rewrite length_sweep_upto. exact Hk.
Qed.

Lemma sweep_upto_cells (state_values new_state_values : list T)
    (s s' : nat) :
  (s <= nS)%nat ->
  nget (sweep_upto nS nA P R s in_place policy discountGamma
          state_values new_state_values) s' =
  if (s' <? s)%nat
  then nget (sweep nS nA P R in_place policy discountGamma
               state_values new_state_values) s'
  else nget new_state_values s'.
Proof.
  intros Hs. unfold nget, sweep. destruct (s' <? s)%nat eqn:Hlt.
  - apply Nat.ltb_lt in Hlt.
    rewrite (sweep_upto_earlier s nS s') by lia. reflexivity.
  - apply Nat.ltb_ge in Hlt. rewrite sweep_upto_later by lia. reflexivity.
Qed.

(** What a pass writes into the cell of state [s]. *)
Lemma sweep_cell (state_values new_state_values : list T) (s : nat) :
  length new_state_values = nS -> (s < nS)%nat ->
  nget (sweep nS nA P R in_place policy discountGamma
          state_values new_state_values) s =
  sum_left
    (evaluation_terms nS nA P R policy discountGamma
       (source_cell nS nA P R in_place policy discountGamma
          state_values new_state_values s) s)
    n_zero.
Proof.
  intros Hlen Hs. unfold sweep at 1.
  assert (Hfin : nget (sweep_upto nS nA P R nS in_place policy discountGamma
                         state_values new_state_values) s =
                 nget (sweep_upto nS nA P R (S s) in_place policy discountGamma
                         state_values new_state_values) s).
  { unfold nget. rewrite (sweep_upto_earlier (S s) nS s) by lia. reflexivity. }
  rewrite Hfin, nget_sweep_upto_S by lia. rewrite state_value_terms.
  f_equal. apply evaluation_terms_ext. intros s' Hs'.
  unfold source_cell.
  rewrite <- (sweep_upto_cells state_values new_state_values s s') by lia.
  destruct in_place; reflexivity.
Qed.

Lemma length_sweep (state_values new_state_values : list T) :
  length (sweep nS nA P R in_place policy discountGamma
            state_values new_state_values) = length new_state_values.
Proof. apply length_sweep_upto. Qed.

Lemma length_evaluation_sweeps (k : nat) :
  length (evaluation_sweeps nS nA P R in_place policy discountGamma k) = nS.
Proof.
  unfold evaluation_sweeps.
  apply (iterate_invariant (fun V : list T => length V = nS)).
  - intros V HV. unfold evaluation_step. rewrite length_sweep. exact HV.
  - apply length_nzeros.
Qed.

Lemma evaluation_sweeps_S (k : nat) :
  evaluation_sweeps nS nA P R in_place policy discountGamma (S k) =
  sweep nS nA P R in_place policy discountGamma
    (evaluation_sweeps nS nA P R in_place policy discountGamma k)
    (evaluation_sweeps nS nA P R in_place policy discountGamma k).
Proof.
  exact (iterate_S (evaluation_step nS nA P R in_place policy discountGamma)
           k (nzeros nS)).
Qed.

(** What the convergence test of a pass adds up. *)
Lemma improvement_changes (new old : list T) :
  length new = nS -> length old = nS ->
  improvement new old = nsum (changes nS new old).
Proof.
  intros Hn Ho. unfold improvement, changes.
  rewrite (nabs_diff_seq new old nS Hn Ho). reflexivity.
Qed.

Lemma state_values_loop_skeleton (fuel : nat) :
  forall (V : list T) (iteration : nat),
    state_values_loop nS nA P R fuel in_place policy discountGamma V V
      iteration =
    until_small (evaluation_step nS nA P R in_place policy discountGamma)
      (fun new old => n_ltb (improvement new old) n_tol) fuel V iteration.
Proof.
  induction fuel as [|fuel IH]; intros V iteration; simpl; [reflexivity|].
  rewrite IH. reflexivity.
Qed.
End EvaluationFacts.

(** ** The sums of the loops in exact arithmetic *)

Lemma sum_left_Q (l : list Q) (acc : Q) : sum_left l acc == acc + np_sum l.
Proof. apply fold_left_Qplus_acc. Qed.

Lemma np_sum_zip_plus (r : list Q) : forall c : list Q,
  length r = length c ->
  np_sum (zip_with Qplus r c) == np_sum r + np_sum c.
Proof.
  induction r as [|x r IH]; intros [|y c] Hlen; try discriminate.
  - unfold np_sum. simpl. ring.
  - simpl. rewrite !np_sum_cons, IH by (simpl in Hlen; lia). ring.
Qed.

Lemma accumulate8_Q (k : nat) : forall r l : list Q,
  length r = 8%nat -> (8 * k <= length l)%nat ->
  length (accumulate8 k r l) = 8%nat /\
  np_sum (accumulate8 k r l) == np_sum r + np_sum (take (8 * k) l).
Proof.
  induction k as [|k IH]; intros r l Hr Hl.
  - simpl. split; [exact Hr|]. unfold np_sum at 3. simpl. ring.
  - simpl accumulate8.
    assert (Ht : length (take 8 l) = 8%nat) by (rewrite length_take; lia).
    destruct (IH (zip_with n_add r (take 8 l)) (drop 8 l)) as [H8 Hsum].
    + rewrite length_zip_with. lia.
    + rewrite length_drop. lia.
    + split; [exact H8|]. rewrite Hsum.
      change (@n_add Q Q_num) with Qplus.
      rewrite np_sum_zip_plus by lia.
      replace (8 * S k)%nat with (8 + 8 * k)%nat by lia.
      rewrite <- (take_drop 8 (take (8 + 8 * k) l)).
      rewrite np_sum_app, take_take, Nat.min_l by lia.
      rewrite <- take_drop_commute.
      replace (8 + 8 * k - 8)%nat with (8 * k)%nat by lia. ring.
Qed.

Lemma combine8_Q (r : list Q) : length r = 8%nat -> combine8 r == np_sum r.
Proof.
  intros Hr.
  do 8 (destruct r as [|? r]; [discriminate|]).
  destruct r; [|discriminate].
  unfold np_sum. simpl. ring.
Qed.

Lemma sum_block_Q (l : list Q) : (8 <= length l)%nat -> sum_block l == np_sum l.
Proof.
  intros Hl. unfold sum_block.
  set (n := length l). set (m := (n - n mod 8)%nat).
  assert (Hdiv : (n = 8 * (n / 8) + n mod 8)%nat) by (apply Nat.div_mod_eq).
  assert (Hmod : (n mod 8 < 8)%nat) by (apply Nat.mod_upper_bound; lia).
  assert (Hm : (m = 8 * (n / 8))%nat) by (unfold m; lia).
  assert (Hq : (1 <= n / 8)%nat) by (apply Nat.div_le_lower_bound; lia).
  assert (Hk : (m / 8 - 1 = n / 8 - 1)%nat).
  { rewrite Hm, Nat.mul_comm, Nat.div_mul by lia. reflexivity. }
  rewrite Hk, sum_left_Q.
  destruct (accumulate8_Q (n / 8 - 1) (take 8 l) (drop 8 l)) as [H8 Hsum].
  - rewrite length_take. fold n. lia.
  - rewrite length_drop. fold n. lia.
  - rewrite combine8_Q by exact H8. rewrite Hsum.
    rewrite <- (take_drop m l) at 4. rewrite np_sum_app.
    rewrite <- (take_drop 8 (take m l)), np_sum_app.
    rewrite take_take, Nat.min_l by lia.
    assert (Hdt : drop 8 (take m l) = take (8 * (n / 8 - 1)) (drop 8 l)).
    { rewrite take_drop_commute. do 2 f_equal. lia. }
    rewrite Hdt. ring.
Qed.

Lemma pairwise_sum_Q (fuel : nat) : forall l : list Q,
  (length l <= fuel + 128)%nat -> pairwise_sum fuel l == np_sum l.
Proof.
  induction fuel as [|fuel IH]; intros l Hl; cbn [pairwise_sum].
  - destruct (length l <? 8)%nat eqn:H8.
    + rewrite sum_left_Q. apply Qplus_0_l.
    + apply Nat.ltb_ge in H8.
      destruct (length l <=? 128)%nat eqn:H128.
      * apply sum_block_Q. exact H8.
      * apply Nat.leb_gt in H128. lia.
  - destruct (length l <? 8)%nat eqn:H8.
    + rewrite sum_left_Q. apply Qplus_0_l.
    + apply Nat.ltb_ge in H8.
      destruct (length l <=? 128)%nat eqn:H128.
      * apply sum_block_Q. exact H8.
      * apply Nat.leb_gt in H128.
        set (n2 := (length l / 2 - (length l / 2) mod 8)%nat).
        assert (Hhalf : (length l / 2 < length l)%nat)
          by (apply Nat.div_lt; lia).
        assert (H64 : (64 <= length l / 2)%nat)
          by (apply Nat.div_le_lower_bound; lia).
        assert (Hmod : ((length l / 2) mod 8 < 8)%nat)
          by (apply Nat.mod_upper_bound; lia).
        assert (Hn2 : (0 < n2 < length l)%nat) by (unfold n2; lia).
        change (@n_add Q Q_num) with Qplus.
        rewrite !IH.
        -- transitivity (np_sum (take n2 l ++ drop n2 l));
             [rewrite np_sum_app; reflexivity|rewrite take_drop; reflexivity].
        -- rewrite length_drop. lia.
        -- rewrite length_take. lia.
Qed.

(** In exact arithmetic the order in which numpy adds does not matter. *)
Lemma nsum_Q (l : list Q) : nsum l == np_sum l.
Proof. apply pairwise_sum_Q. lia. Qed.

(** In exact arithmetic the terms add up to the double sum of the
    evaluation equation: an action of probability zero is a term equal
    to zero. *)
Lemma evaluation_terms_Q (nS nA : nat) (P R : nat -> nat -> nat -> Q)
    (policy : nat -> nat -> Q) (discountGamma : Q) (V : nat -> Q) (s : nat) :
  sum_left (evaluation_terms nS nA P R policy discountGamma V s) 0 ==
  expected_value nS nA P R policy discountGamma V s.
Proof.
  unfold evaluation_terms, expected_value, Sigma.
  rewrite sum_left_Q.
  assert (Hgen : forall l : list nat,
    np_sum (flat_map (fun a =>
      if n_eqb (policy s a) n_zero then []
      else map (fun s' =>
             n_mul (n_mul (policy s a) (P s a s'))
                   (n_add (R s a s') (n_mul discountGamma (V s'))))
           (seq 0 nS)) l) ==
    np_sum (map (fun a => policy s a *
      np_sum (map (fun s' => P s a s' * (R s a s' + discountGamma * V s'))
                (seq 0 nS))) l)).
  { induction l as [|a l IH]; [reflexivity|].
    simpl flat_map. simpl map. rewrite np_sum_app, np_sum_cons, IH.
    apply Qplus_comp; [|reflexivity].
    change (@n_eqb Q Q_num (policy s a) n_zero) with (Qeq_bool (policy s a) 0).
    destruct (Qeq_bool (policy s a) 0) eqn:Hz.
    - apply Qeq_bool_iff in Hz. rewrite Hz. unfold np_sum at 1. simpl. ring.
    - rewrite <- (np_sum_scale (policy s a)).
      apply np_sum_ext. intros i _. simpl. ring. }
  rewrite Hgen. ring.
Qed.

(** The convergence test in exact arithmetic: the sum of the absolute
    differences against [1/10000]. *)
Lemma improvement_Q (nS : nat) (new old : list Q) :
  length new = nS -> length old = nS ->
  improvement new old == Sigma nS (fun s => Qabs (vget new s - vget old s)).
Proof.
  intros Hn Ho. rewrite (improvement_changes nS new old Hn Ho), nsum_Q.
  reflexivity.
Qed.



(** ** Value iteration and action-value iteration: the passes *)

Section OptimalFacts.
Context {T : Type} `{Num T}.
Variables (nS nA : nat).
Variables (P R : nat -> nat -> nat -> T).
Variable discountGamma : T.
Hypothesis some_action : (1 <= nA)%nat.

Lemma length_a_candidates (V : list T) (s : nat) :
  length (a_candidates nS nA P R discountGamma V s) = nA.
Proof. unfold a_candidates. rewrite length_map, length_seq. reflexivity. Qed.

(** With at least one action the maximum never raises, and a pass of
    value iteration overwrites every cell. *)
Lemma optimal_sweep_step (state_values new_state_values : list T) :
  length new_state_values = nS ->
  optimal_sweep nS nA P R discountGamma state_values new_state_values =
  Ok (optimal_step nS nA P R discountGamma state_values).
Proof.
  intros Hlen. unfold optimal_sweep, optimal_step.
  rewrite <- Hlen at 2.
  rewrite <- (fold_insert_all
                (fun s => nmax_of (a_candidates nS nA P R discountGamma
                                     state_values s)) new_state_values).
  rewrite Hlen. generalize (seq 0 nS) as l. generalize new_state_values as v.
  intros v l. revert v. induction l as [|s l IH]; intros v; simpl; [reflexivity|].
  rewrite nmax_nmax_of by (rewrite length_a_candidates; lia).
  simpl. apply IH.
Qed.

Lemma length_optimal_step (V : list T) :
  length (optimal_step nS nA P R discountGamma V) = nS.
Proof. unfold optimal_step. rewrite length_map, length_seq. reflexivity. Qed.

Lemma length_action_step (action_values : list (list T)) :
  length (action_step nS nA P R discountGamma action_values) = nS.
Proof. unfold action_step. rewrite length_map, length_seq. reflexivity. Qed.

Lemma rows_action_step (action_values : list (list T)) (s : nat) :
  (s < nS)%nat ->
  action_step nS nA P R discountGamma action_values !! s =
  Some (map (backup nS P R discountGamma (best_a nA action_values) s)
          (seq 0 nA)).
Proof.
  intros Hs. unfold action_step.
  rewrite list_lookup_fmap, lookup_seq_lt by exact Hs. reflexivity.
Qed.

(** A pass of action-value iteration overwrites every cell of a table of
    [S] rows of [A] cells. *)
Lemma action_sweep_step (action_values new_action_values : list (list T)) :
  length new_action_values = nS ->
  Forall (fun row => length row = nA) new_action_values ->
  action_sweep nS nA P R discountGamma action_values new_action_values =
  action_step nS nA P R discountGamma action_values.
Proof.
  intros Hlen Hrows. unfold action_sweep, action_step.
  assert (Hgen : forall k : nat, (k <= nS)%nat ->
    fold_left (fun new_action_values s =>
      fold_left (fun new_action_values a =>
        nset2 new_action_values s a
          (backup nS P R discountGamma (best_a nA action_values) s a))
        (seq 0 nA) new_action_values)
      (seq 0 k) new_action_values =
    map (fun s => map (backup nS P R discountGamma (best_a nA action_values) s)
                    (seq 0 nA)) (seq 0 k) ++ drop k new_action_values).
  { induction k as [|k IH]; intros Hk.
    - simpl. rewrite drop_0. reflexivity.
    - rewrite seq_S, fold_left_app, IH by lia. simpl.
      destruct (lookup_lt_is_Some_2 new_action_values k) as [row Hrow];
        [lia|].
      assert (Hlrow : length row = nA).
      { rewrite Forall_forall in Hrows. apply Hrows.
        eapply list_elem_of_lookup_2. exact Hrow. }
      assert (Hlk : length (map (fun s => map (backup nS P R discountGamma
                       (best_a nA action_values) s) (seq 0 nA)) (seq 0 k)) = k)
        by (rewrite length_map, length_seq; reflexivity).
      rewrite (fold_nset2_row k _ _ _ row).
      + rewrite <- Hlrow at 1. rewrite fold_insert_all, Hlrow.
        rewrite insert_app_r_alt by lia. rewrite Hlk, Nat.sub_diag.
        rewrite map_app, <- app_assoc. simpl. f_equal.
        rewrite (drop_S _ _ _ Hrow). reflexivity.
      + rewrite lookup_app_r by lia. rewrite Hlk, Nat.sub_diag.
        rewrite (drop_S _ _ _ Hrow). reflexivity. }
  rewrite (Hgen nS) by lia.
  rewrite drop_ge by lia. apply app_nil_r.
Qed.

Lemma rows_nzeros2 : Forall (fun row : list T => length row = nA) (nzeros2 nS nA).
Proof.
  unfold nzeros2. apply Forall_replicate. apply length_nzeros.
Qed.

Lemma rows_of_action_step (action_values : list (list T)) :
  Forall (fun row => length row = nA)
    (action_step nS nA P R discountGamma action_values).
Proof.
  unfold action_step. apply Forall_fmap, Forall_forall. intros s _. simpl.
  rewrite length_map, length_seq. reflexivity.
Qed.

(** The two loops are instances of the common skeleton. *)
Lemma optimal_state_values_loop_skeleton (fuel : nat) :
  forall (V : list T) (iteration : nat),
    length V = nS ->
    optimal_state_values_loop nS nA P R fuel discountGamma V V iteration =
    option_map Ok
      (until_small (optimal_step nS nA P R discountGamma)
         (fun new old => n_ltb (improvement new old) n_tol)
         fuel V iteration).
Proof.
  induction fuel as [|fuel IH]; intros V iteration Hlen; simpl; [reflexivity|].
  rewrite optimal_sweep_step by exact Hlen.
  destruct (n_ltb (improvement (optimal_step nS nA P R discountGamma V) V)
              n_tol); [reflexivity|].
  apply IH, length_optimal_step.
Qed.

Lemma optimal_action_values_loop_skeleton (fuel : nat) :
  forall (action_values : list (list T)) (iteration : nat),
    length action_values = nS ->
    Forall (fun row => length row = nA) action_values ->
    optimal_action_values_loop nS nA P R fuel discountGamma
      action_values action_values iteration =
    until_small (action_step nS nA P R discountGamma)
      (fun new old => n_ltb (improvement2 new old) n_tol)
      fuel action_values iteration.
Proof.
  induction fuel as [|fuel IH]; intros action_values iteration Hlen Hrows;
    simpl; [reflexivity|].
  rewrite action_sweep_step by assumption.
  destruct (n_ltb (improvement2 (action_step nS nA P R discountGamma
                                   action_values) action_values) n_tol);
    [reflexivity|].
  apply IH; [apply length_action_step|apply rows_of_action_step].
Qed.

(** *** The row maxima of the table are the cells of the vector *)

Lemma best_a_nmax_of (action_values : list (list T)) (nexts : nat) :
  best_a nA action_values nexts =
  nmax_of (map (nget2 action_values nexts) (seq 0 nA)).
Proof.
  unfold best_a.
  assert (Hgen : forall (l : list nat) (b : T),
    fold_left (fun best nexta =>
      let temp := nget2 action_values nexts nexta in
      match best with
      | None => Some temp
      | Some b => if n_ltb b temp then Some temp else Some b
      end) l (Some b) =
    Some (nscan_max b (map (nget2 action_values nexts) l))).
  { induction l as [|a l IH]; intros b; simpl; [reflexivity|].
    unfold nscan_max. simpl.
    destruct (n_ltb b (nget2 action_values nexts a)); apply IH. }
  destruct (seq 0 nA) as [|a l]; [reflexivity|]. simpl.
  rewrite Hgen. reflexivity.
Qed.

Lemma nmax_of_zeros (l : list nat) :
  nmax_of (map (fun _ => n_zero) l) = (n_zero : T).
Proof.
  destruct l as [|a l]; [reflexivity|]. simpl. unfold nscan_max.
  induction l as [|b l IH]; [reflexivity|]. simpl.
  destruct (n_ltb n_zero n_zero); exact IH.
Qed.

Lemma nget2_action_step (action_values : list (list T)) (s a : nat) :
  (s < nS)%nat -> (a < nA)%nat ->
  nget2 (action_step nS nA P R discountGamma action_values) s a =
  backup nS P R discountGamma (best_a nA action_values) s a.
Proof.
  intros Hs Ha.
  apply (nget2_lookup _ _ _ _ _ (rows_action_step action_values s Hs)).
  rewrite list_lookup_fmap, lookup_seq_lt by exact Ha. reflexivity.
Qed.

Lemma nget_optimal_step (V : list T) (s : nat) :
  (s < nS)%nat ->
  nget (optimal_step nS nA P R discountGamma V) s =
  nmax_of (a_candidates nS nA P R discountGamma V s).
Proof.
  intros Hs. apply nget_lookup. unfold optimal_step.
  rewrite list_lookup_fmap, lookup_seq_lt by exact Hs. reflexivity.
Qed.

Lemma backup_ext (v w : nat -> T) (s a : nat) :
  (forall s', (s' < nS)%nat -> v s' = w s') ->
  backup nS P R discountGamma v s a = backup nS P R discountGamma w s a.
Proof.
  intros Hvw. unfold backup.
  generalize (n_zero : T) as acc.
  assert (Hgen : forall (l : list nat) (acc : T),
    (forall s', s' ∈ l -> v s' = w s') ->
    fold_left (fun value nexts =>
      n_add value
        (n_mul (P s a nexts)
           (n_add (R s a nexts) (n_mul discountGamma (v nexts))))) l acc =
    fold_left (fun value nexts =>
      n_add value
        (n_mul (P s a nexts)
           (n_add (R s a nexts) (n_mul discountGamma (w nexts))))) l acc).
  { induction l as [|i l IH]; intros acc Hl; simpl; [reflexivity|].
    rewrite (Hl i) by left. apply IH. intros j Hj. apply Hl. right. exact Hj. }
  intros acc. apply Hgen. intros s' Hs'. apply Hvw.
  apply list_elem_of_In, in_seq in Hs'. lia.
Qed.

Lemma map_ext_seq {A : Type} (f g : nat -> A) (n : nat) :
  (forall i, (i < n)%nat -> f i = g i) -> map f (seq 0 n) = map g (seq 0 n).
Proof.
  intros Hfg. apply map_ext_in. intros i Hi. apply Hfg.
  apply in_seq in Hi. lia.
Qed.

(** After the same number of passes, the maximum of each row of the table
    is the cell of the vector. *)
Lemma best_a_action_sweeps (k : nat) : forall s : nat, (s < nS)%nat ->
  best_a nA (action_sweeps nS nA P R discountGamma k) s =
  nget (optimal_sweeps nS nA P R discountGamma k) s.
Proof.
  unfold action_sweeps, optimal_sweeps.
  induction k as [|k IH]; intros s Hs.
  - simpl. rewrite best_a_nmax_of, nget_nzeros.
    rewrite (map_ext_seq _ (fun _ => n_zero))
      by (intros; apply nget2_nzeros2).
    apply nmax_of_zeros.
  - rewrite !iterate_S, best_a_nmax_of, nget_optimal_step by exact Hs.
    unfold a_candidates. f_equal. apply map_ext_seq. intros a Ha.
    rewrite nget2_action_step by assumption.
    apply backup_ext. exact IH.
Qed.

(** The rows of the table after [k] passes, and their maxima. *)
Lemma rows_action_sweeps (k s : nat) :
  (s < nS)%nat ->
  exists row : list T,
    action_sweeps nS nA P R discountGamma k !! s = Some row /\
    length row = nA /\
    nmax row = Ok (nget (optimal_sweeps nS nA P R discountGamma k) s).
Proof.
  intros Hs.
  assert (Hrow : exists row : list T,
            action_sweeps nS nA P R discountGamma k !! s = Some row /\
            length row = nA).
  { destruct k as [|k].
    - exists (nzeros nA). split; [|apply length_nzeros].
      unfold action_sweeps, nzeros2. simpl.
      apply lookup_replicate_2. exact Hs.
    - eexists. unfold action_sweeps. rewrite iterate_S.
      split; [apply rows_action_step; exact Hs|].
      rewrite length_map, length_seq. reflexivity. }
  destruct Hrow as (row & Hrow & Hlen). exists row.
  split; [exact Hrow|]. split; [exact Hlen|].
  rewrite nmax_nmax_of by lia.
  rewrite <- (best_a_action_sweeps k s Hs), best_a_nmax_of. do 2 f_equal.
  assert (Hmap : map (nget2 (action_sweeps nS nA P R discountGamma k) s)
                   (seq 0 (length row)) = row).
  { apply list_eq. intros a. rewrite list_lookup_fmap.
    destruct (row !! a) as [x|] eqn:Hx.
    - rewrite lookup_seq_lt by (eapply lookup_lt_Some; exact Hx). simpl.
      rewrite (nget2_lookup _ _ _ _ _ Hrow Hx). reflexivity.
    - rewrite lookup_seq_ge; [reflexivity|]. apply lookup_ge_None. exact Hx. }
  rewrite Hlen in Hmap. symmetry. exact Hmap.
Qed.
End OptimalFacts.

(** ** Value iteration against action-value iteration *)



(** * Further properties of the code *)

(** ** The equiprobable policy and policy extraction *)

Lemma fold_mset_all (f : nat -> nat -> Q) (nS nA : nat) (m : matrix) :
  shape m nS nA ->
  fold_left (fun m s =>
    fold_left (fun m a => mset m s a (f s a)) (seq 0 nA) m) (seq 0 nS) m =
  map (fun s => map (f s) (seq 0 nA)) (seq 0 nS).
Proof.
  intros Hsh.
  assert (Hgen : forall k : nat, (k <= nS)%nat ->
    fold_left (fun m s =>
      fold_left (fun m a => mset m s a (f s a)) (seq 0 nA) m) (seq 0 k) m =
    map (fun s => map (f s) (seq 0 nA)) (seq 0 k) ++ drop k m).
  { induction k as [|k IH]; intros Hk.
    - simpl. rewrite drop_0. reflexivity.
    - rewrite seq_S, fold_left_app, IH by lia. simpl.
      destruct (lookup_lt_is_Some_2 m k) as [row Hrow]; [destruct Hsh; lia|].
      assert (Hlrow : length row = nA) by (eapply shape_lookup; eassumption).
      assert (Hlk : length (map (fun s => map (f s) (seq 0 nA)) (seq 0 k)) = k)
        by (rewrite length_map, length_seq; reflexivity).
      rewrite (fold_mset_row_gen k (f k) _ _ row).
      + rewrite <- Hlrow at 1. rewrite fold_insert_all, Hlrow.
        rewrite insert_app_r_alt by lia. rewrite Hlk, Nat.sub_diag.
        rewrite map_app, <- app_assoc. simpl. f_equal.
        rewrite (drop_S _ _ _ Hrow). reflexivity.
      + rewrite lookup_app_r by lia. rewrite Hlk, Nat.sub_diag.
        rewrite (drop_S _ _ _ Hrow). reflexivity. }
  rewrite (Hgen nS) by lia.
  rewrite drop_ge by (destruct Hsh; lia). apply app_nil_r.
Qed.

Lemma shape_zeros2 (nS nA : nat) : shape (zeros2 nS nA) nS nA.
Proof.
  unfold zeros2, zeros. split; [apply length_replicate|].
  apply Forall_replicate, length_replicate.
Qed.

Lemma inject_nat_pos (n : nat) : (1 <= n)%nat -> 0 < inject_Z (Z.of_nat n).
Proof.
  intros Hn. change 0 with (inject_Z 0). rewrite <- Zlt_Qlt. lia.
Qed.

(** The matrix every cell of which is [1/A]. *)
Lemma getEquiprobableRandomPolicy_cells (mdp : FiniteMDP) :
  (1 <= mdp_A mdp)%nat ->
  getEquiprobableRandomPolicy mdp =
  Ok (map (fun _ => map (fun _ => 1 / inject_Z (Z.of_nat (mdp_A mdp)))
                      (seq 0 (mdp_A mdp)))
        (seq 0 (mdp_S mdp))).
Proof.
  intros HA. unfold getEquiprobableRandomPolicy.
  destruct (mdp_A mdp =? 0)%nat eqn:Hz; [apply Nat.eqb_eq in Hz; lia|].
  f_equal.
  apply (fold_mset_all (fun _ _ => 1 / inject_Z (Z.of_nat (mdp_A mdp)))).
  apply shape_zeros2.
Qed.

Lemma np_sum_constant (c : Q) (l : list nat) :
  np_sum (map (fun _ => c) l) == inject_Z (Z.of_nat (length l)) * c.
Proof.
  induction l as [|a l IH]; simpl length.
  - unfold np_sum. simpl. ring.
  - simpl map. rewrite np_sum_cons, IH.
    rewrite Nat2Z.inj_succ, <- Z.add_1_r, inject_Z_plus.
    change (inject_Z 1) with 1. ring.
Qed.

(** X1.  With at least one action, [getEquiprobableRandomPolicy] returns an
    [S x A] matrix all of whose cells are [1/A]; every row sums to [1]. *)
Theorem getEquiprobableRandomPolicy_uniform (mdp : FiniteMDP) :
  (1 <= mdp_A mdp)%nat ->
  exists policy : matrix,
    getEquiprobableRandomPolicy mdp = Ok policy /\
    shape policy (mdp_S mdp) (mdp_A mdp) /\
    (forall s a : nat, (s < mdp_S mdp)%nat -> (a < mdp_A mdp)%nat ->
       cell_at policy s a = Ok (1 / inject_Z (Z.of_nat (mdp_A mdp)))) /\
    (forall (s : nat) (row : list Q),
       policy !! s = Some row ->
       Forall (fun x => 0 < x) row /\ np_sum row == 1).
Proof.
  intros HA. eexists. split; [apply getEquiprobableRandomPolicy_cells, HA|].
  pose proof (inject_nat_pos _ HA) as Hpos.
  split; [|split].
  - split; [rewrite length_map, length_seq; reflexivity|].
    apply Forall_fmap, Forall_forall. intros s _. simpl.
    rewrite length_map, length_seq. reflexivity.
  - intros s a Hs Ha. unfold cell_at, row_at.
    rewrite list_lookup_fmap, lookup_seq_lt by exact Hs. simpl.
    rewrite list_lookup_fmap, lookup_seq_lt by exact Ha. reflexivity.
  - intros s row Hrow. rewrite list_lookup_fmap in Hrow.
    destruct (seq 0 (mdp_S mdp) !! s) as [s0|]; [|discriminate].
    injection Hrow as <-. split.
    + apply Forall_fmap, Forall_forall. intros a _. simpl.
      apply Qlt_shift_div_l; [exact Hpos|]. lra.
    + rewrite np_sum_constant, length_seq. field. lra.
Qed.

Lemma getEquiprobableRandomPolicy_uniform_witness :
  exists policy : matrix,
    getEquiprobableRandomPolicy toggle_mdp = Ok policy /\ shape policy 2 2.
Proof.
  destruct (getEquiprobableRandomPolicy_uniform toggle_mdp)
    as (policy & Hp & Hs & _).
  - simpl. lia.
  - exists policy. split; assumption.
Defined.

Lemma attains_max_constant (values : list Q) (a : nat) :
  constant_row values -> (a < length values)%nat ->
  attains_max values a = true.
Proof.
  intros Hc Ha. unfold attains_max.
  rewrite bool_decide_eq_true_2 by exact Ha. simpl.
  destruct (lookup_lt_is_Some_2 values a Ha) as [x Hx].
  rewrite (vget_lookup _ _ _ Hx).
  apply forallb_forall. intros v Hv. apply Qle_bool_iff.
  rewrite (Hc v x); [lra| |].
  - apply list_elem_of_In. exact Hv.
  - eapply list_elem_of_lookup_2. exact Hx.
Qed.

Lemma filter_seq_all (p : nat -> bool) (n : nat) :
  (forall a, (a < n)%nat -> p a = true) -> List.filter p (seq 0 n) = seq 0 n.
Proof.
  intros Hp. apply forallb_filter_id, forallb_forall.
  intros a Ha. apply Hp. apply in_seq in Ha. lia.
Qed.

Lemma uniform_on_constant (values : list Q) :
  constant_row values ->
  uniform_on_maximizers values =
  map (fun _ => 1 / inject_Z (Z.of_nat (length values))) (seq 0 (length values)).
Proof.
  intros Hc. unfold uniform_on_maximizers, maximizers.
  rewrite (filter_seq_all (attains_max values))
    by (intros a Ha; apply attains_max_constant; assumption).
  rewrite length_seq. apply map_ext_in. intros a Ha. apply in_seq in Ha.
  rewrite attains_max_constant by (assumption || lia). reflexivity.
Qed.

(** X2.  On a table each of whose rows is constant (the zero table that
    Q-learning starts from, for one), [convert_action_values_into_policy]
    returns the policy of [getEquiprobableRandomPolicy]. *)
Theorem convert_constant_rows_equiprobable (mdp : FiniteMDP)
    (action_values : matrix) :
  shape action_values (mdp_S mdp) (mdp_A mdp) -> (1 <= mdp_A mdp)%nat ->
  Forall constant_row action_values ->
  convert_action_values_into_policy action_values =
  getEquiprobableRandomPolicy mdp.
Proof.
  intros Hsh HA Hc.
  rewrite (convert_uniform _ _ _ Hsh HA).
  rewrite (getEquiprobableRandomPolicy_cells _ HA). f_equal.
  apply list_eq. intros s. rewrite !list_lookup_fmap.
  destruct (action_values !! s) as [values|] eqn:Hv.
  - rewrite lookup_seq_lt
      by (destruct Hsh as [<- _]; eapply lookup_lt_Some; exact Hv).
    simpl. f_equal.
    rewrite uniform_on_constant.
    + rewrite (shape_lookup _ _ _ _ _ Hsh Hv). reflexivity.
    + rewrite Forall_forall in Hc. apply Hc.
      eapply list_elem_of_lookup_2. exact Hv.
  - rewrite lookup_seq_ge; [reflexivity|].
    destruct Hsh as [<- _]. apply lookup_ge_None. exact Hv.
Qed.

Lemma convert_constant_rows_equiprobable_witness :
  convert_action_values_into_policy [[0; 0]; [3; 3]] =
  getEquiprobableRandomPolicy toggle_mdp.
Proof.
  apply (convert_constant_rows_equiprobable toggle_mdp [[0; 0]; [3; 3]]).
  - split; [reflexivity|]. repeat constructor.
  - simpl. lia.
  - repeat constructor; intros x y Hx Hy;
      repeat (apply elem_of_cons in Hx as [->|Hx]);
      repeat (apply elem_of_cons in Hy as [->|Hy]);
      try reflexivity; try inversion Hx; try inversion Hy.
Defined.

(** *** Extracting a policy from a policy *)

Lemma length_uniform (values : list Q) :
  length (uniform_on_maximizers values) = length values.
Proof.
  unfold uniform_on_maximizers. rewrite length_map, length_seq. reflexivity.
Qed.

Lemma attains_max_uniform (values : list Q) (a : nat) :
  attains_max (uniform_on_maximizers values) a = attains_max values a.
Proof.
  destruct (decide (a < length values)%nat) as [Ha|Ha].
  2:{ unfold attains_max. rewrite length_uniform.
      rewrite !bool_decide_eq_false_2 by exact Ha. reflexivity. }
  pose proof (maximizers_nonempty values ltac:(lia)) as Hk.
  pose proof (inject_nat_pos _ Hk) as Hpos.
  assert (Hc : 0 < 1 / inject_Z (Z.of_nat (length (maximizers values))))
    by (apply Qlt_shift_div_l; [exact Hpos|lra]).
  unfold attains_max at 1. rewrite length_uniform.
  rewrite bool_decide_eq_true_2 by exact Ha. simpl.
  rewrite vget_uniform by exact Ha.
  destruct (attains_max values a) eqn:Hatt.
  - apply forallb_forall. intros v Hv. apply Qle_bool_iff.
    unfold uniform_on_maximizers in Hv. apply in_map_iff in Hv as (b & <- & _).
    destruct (attains_max values b); lra.
  - destruct (maximizers values) as [|b bs] eqn:Hm; [simpl in Hk; lia|].
    assert (Hb : b ∈ maximizers values) by (rewrite Hm; left).
    rewrite <- Hm in *.
    apply in_maximizers in Hb. pose proof (attains_max_lt _ _ Hb) as Hbl.
    destruct (forallb _ (uniform_on_maximizers values)) eqn:Hf; [|reflexivity].
    rewrite forallb_forall in Hf.
    specialize (Hf (vget (uniform_on_maximizers values) b)).
    rewrite vget_uniform, Hb in Hf by exact Hbl.
    assert (Hin : In (1 / inject_Z (Z.of_nat (length (maximizers values))))
                    (uniform_on_maximizers values)).
    { unfold uniform_on_maximizers. apply in_map_iff. exists b.
      rewrite Hb. split; [reflexivity|]. apply in_seq. lia. }
    apply Hf, Qle_bool_iff in Hin. lra.
Qed.

Lemma uniform_idempotent (values : list Q) :
  uniform_on_maximizers (uniform_on_maximizers values) =
  uniform_on_maximizers values.
Proof.
  assert (Hm : maximizers (uniform_on_maximizers values) = maximizers values).
  { unfold maximizers. rewrite length_uniform.
    apply List.filter_ext. intros a. apply attains_max_uniform. }
  unfold uniform_on_maximizers at 1. rewrite Hm, length_uniform.
  apply map_ext. intros a. rewrite attains_max_uniform. reflexivity.
Qed.

(** X3.  Policy extraction is idempotent: extracting a policy from the
    policy it returned gives that policy again. *)
Theorem convert_idempotent (action_values policy : matrix) (nS nA : nat) :
  shape action_values nS nA -> (1 <= nA)%nat ->
  convert_action_values_into_policy action_values = Ok policy ->
  convert_action_values_into_policy policy = Ok policy.
Proof.
  intros Hsh HA Hc. rewrite (convert_uniform _ _ _ Hsh HA) in Hc.
  injection Hc as <-.
  rewrite (convert_uniform _ nS nA).
  - rewrite map_map. f_equal. apply map_ext. intros values.
    apply uniform_idempotent.
  - destruct Hsh as [Hlen Hrows]. split; [rewrite length_map; exact Hlen|].
    apply Forall_fmap. eapply Forall_impl; [exact Hrows|].
    intros row Hrow. simpl. rewrite length_uniform. exact Hrow.
  - exact HA.
Qed.

Lemma convert_idempotent_witness :
  convert_action_values_into_policy [[0; 1 # 2; 1 # 2]; [1; 0; 0]] =
  Ok [[0; 1 # 2; 1 # 2]; [1; 0; 0]].
Proof.
  apply (convert_idempotent [[1; 2; 2]; [3; 1; 0]] _ 2 3).
  - split; [reflexivity|]. repeat constructor.
  - lia.
  - reflexivity.
Defined.

(** ** The rollout driver: length of a run and failure on one column *)

Lemma prepare_weights_accepts (row : list Q) :
  row <> [] -> exists w, prepare_weights row = Ok w.
Proof.
  intros Hne. unfold prepare_weights. simpl.
  destruct (Qeq_bool (c_sum row) 0).
  - destruct row as [|x t]; [congruence|]. simpl. eexists. reflexivity.
  - destruct row as [|x t]; [congruence|]. simpl. eexists. reflexivity.
Qed.


Section RolloutRuns.
Context {E H D : Type} (environment : Env E H).
Variable choices : nat -> list Q -> D -> res nat.
Variable draws : nat -> D.
Variable mdp : FiniteMDP.

Lemma rollout_step_cases (printInfo : bool) (it : nat) (st st' : rollout E H)
    (b : bool) :
  rollout_step environment choices draws mdp printInfo it st = Ok (st', b) ->
  exists (row : list Q) (w : prepared Q) (action : nat),
    r_policy st !! r_s st = Some row /\
    prepare_weights row = Ok w /\
    r_policy st' =
      (if in_policy w then <[r_s st := weights w]> (r_policy st)
       else r_policy st) /\
    b = negb (gameOver (step environment (r_env st) action).1) /\
    length (r_calls st') = S (length (r_calls st)).
Proof.
  unfold rollout_step. intros Hs.
  apply bind_Ok in Hs as (row & Hrow & Hs).
  apply bind_Ok in Hs as (w & Hw & Hs).
  apply bind_Ok in Hs as (action & _ & Hs).
  exists row, w, action.
  unfold row_at in Hrow.
  destruct (r_policy st !! r_s st) as [row0|]; [|discriminate].
  injection Hrow as ->.
  destruct (step environment (r_env st) action) as [o e].
  injection Hs as <- <-. simpl.
  repeat split; try assumption; try reflexivity.
  rewrite length_app. simpl. lia.
Qed.

Lemma calls_loop (printInfo : bool) (its : list nat) :
  forall st st' : rollout E H,
    rollout_loop environment choices draws mdp printInfo its st = Ok st' ->
    ((forall e a, gameOver (step environment e a).1 = false) ->
     length (r_calls st') = (length (r_calls st) + length its)%nat) /\
    ((forall e a, gameOver (step environment e a).1 = true) ->
     length (r_calls st') = (length (r_calls st) + Nat.min 1 (length its))%nat).
Proof.
  induction its as [|it its IH]; simpl; intros st st' Hl.
  - injection Hl as <-. split; intros _; lia.
  - destruct (rollout_step environment choices draws mdp printInfo it st)
      as [[st1 b]|] eqn:Hs; [|discriminate].
    apply rollout_step_cases in Hs as (row & w & action & _ & _ & _ & Hb & Hc).
    split; intros Hover; rewrite Hover in Hb; simpl in Hb; subst b.
    + apply IH in Hl as [Hl _]. rewrite (Hl Hover), Hc. lia.
    + injection Hl as <-. rewrite Hc. lia.
Qed.
End RolloutRuns.

(** X6.  A completed run of the rollout driver makes exactly
    [maxNumIterations] turns when the environment never reports the end of
    the episode, and exactly one turn (none when [maxNumIterations] is
    zero) when it reports it at every step. *)
Theorem run_MDP_number_of_turns {E H D : Type} (environment : Env E H)
    (choices : nat -> list Q -> D -> res nat) (draws : nat -> D)
    (mdp : FiniteMDP) (policy : matrix) (maxNumIterations : nat)
    (printInfo : bool) (e : E) (ret : pyval) (st : rollout E H) :
  run_MDP_for_given_policy environment choices draws mdp policy
    maxNumIterations printInfo e = Ok (ret, st) ->
  ((forall e a, gameOver (step environment e a).1 = false) ->
   length (r_calls st) = maxNumIterations) /\
  ((forall e a, gameOver (step environment e a).1 = true) ->
   length (r_calls st) = Nat.min 1 maxNumIterations).
Proof.
  unfold run_MDP_for_given_policy. intros Hr.
  apply bind_Ok in Hr as (st1 & Hl & Hr). injection Hr as _ <-. simpl.
  apply calls_loop in Hl as [Hnever Halways]. simpl in Hnever, Halways.
  rewrite length_seq in Hnever, Halways. split; assumption.
Qed.

Lemma run_MDP_number_of_turns_witness :
  (exists st : rollout nat unit,
     toggle_rollout false = Ok (PyNone, st) /\ length (r_calls st) = 3%nat) /\
  (exists st : rollout nat unit,
     run_MDP_for_given_policy stopping_env choices_by_inversion
       (fun _ => 1 # 2) toggle_mdp [[1; 1]; [1; 1]] 3 false 7%nat =
       Ok (PyNone, st) /\
     length (r_calls st) = 1%nat).
Proof.
  split.
  - destruct (toggle_rollout false) as [[ret st]|] eqn:Hr; [|discriminate].
    pose proof Hr as Hr'. unfold toggle_rollout in Hr'.
    pose proof (proj1 (run_MDP_number_of_turns _ _ _ _ _ _ _ _ _ _ Hr')
                  (fun e a => eq_refl)) as Hn.
    vm_compute in Hr. injection Hr as <- <-.
    eexists. split; [reflexivity|exact Hn].
  - destruct (run_MDP_for_given_policy stopping_env choices_by_inversion
                (fun _ => 1 # 2) toggle_mdp [[1; 1]; [1; 1]] 3 false 7%nat)
      as [[ret st]|] eqn:Hr; [|discriminate].
    pose proof (proj2 (run_MDP_number_of_turns _ _ _ _ _ _ _ _ _ _ Hr)
                  (fun e a => eq_refl)) as Hn.
    vm_compute in Hr. injection Hr as <- <-.
    eexists. split; [reflexivity|exact Hn].
Defined.

(** X7.  On a policy with a single column the rollout driver never samples:
    [np.squeeze] turns the row into a zero-dimensional array, over which
    [random.choices] cannot iterate, so the first turn raises [TypeError]. *)
Theorem run_MDP_single_action_raises {E H D : Type} (environment : Env E H)
    (choices : nat -> list Q -> D -> res nat) (draws : nat -> D)
    (mdp : FiniteMDP) (policy : matrix) (nS maxNumIterations : nat)
    (printInfo : bool) (e : E) :
  shape policy nS 1 ->
  (get_state environment (reset environment e) < nS)%nat ->
  (1 <= maxNumIterations)%nat ->
  run_MDP_for_given_policy environment choices draws mdp policy
    maxNumIterations printInfo e = Raise TypeError.
Proof.
  intros Hsh Hs Hn. unfold run_MDP_for_given_policy.
  destruct maxNumIterations as [|n]; [lia|].
  change (seq 0 (S n)) with (0%nat :: seq 1 n). simpl rollout_loop.
  unfold rollout_step. simpl r_policy. simpl r_s.
  destruct (lookup_lt_is_Some_2 policy
              (get_state environment (reset environment e))) as [row Hrow];
    [destruct Hsh; lia|].
  pose proof (shape_lookup _ _ _ _ _ Hsh Hrow) as Hlen.
  unfold row_at. rewrite Hrow. simpl.
  destruct (prepare_weights_accepts row) as [w Hw].
  { intros ->. discriminate. }
  rewrite Hw. simpl. rewrite Hlen. reflexivity.
Qed.

Lemma run_MDP_single_action_raises_witness :
  run_MDP_for_given_policy toggle_env choices_by_inversion (fun _ => 1 # 2)
    toggle_mdp [[1]; [1]] 5 false 0%nat = Raise TypeError.
Proof.
  apply (run_MDP_single_action_raises toggle_env choices_by_inversion
           (fun _ => 1 # 2) toggle_mdp [[1]; [1]] 2 5 false 0%nat).
  - split; [reflexivity|]. repeat constructor.
  - simpl. lia.
  - lia.
Defined.

(** ** prettyPrintValues *)

Section PrettyFacts.
Context {L : Type}.
Variable mdp : FiniteMDP.
Variable action_values : matrix.
Variables stateListGivenIndex actionListGivenIndex : list L.
Hypothesis table_shape : shape action_values (mdp_S mdp) (mdp_A mdp).

Lemma pretty_action_Raise (s : nat) (e : exn) (l : list nat) :
  fold_left (pretty_action action_values actionListGivenIndex s) l (Raise e)
  = Raise e.
Proof. induction l as [|a l IH]; simpl; [reflexivity|exact IH]. Qed.

Lemma pretty_state_Raise (e : exn) (l : list nat) :
  fold_left (pretty_state mdp action_values stateListGivenIndex
               actionListGivenIndex) l (Raise e) = Raise e.
Proof. induction l as [|s l IH]; simpl; [reflexivity|exact IH]. Qed.

(** The inner loop over a list of actions of the table. *)
Lemma pretty_actions_run (s : nat) (l : list nat) :
  (s < mdp_S mdp)%nat -> Forall (fun a => (a < mdp_A mdp)%nat) l ->
  forall out : list (pretty L),
    let nz := List.filter
                (fun a => negb (Qeq_bool (mget action_values s a) 0)) l in
    (Forall (fun a => (a < length actionListGivenIndex)%nat) nz ->
     fold_left (pretty_action action_values actionListGivenIndex s) l (Ok out)
     = Ok (out ++ omap (fun a => PrintAction a <$> actionListGivenIndex !! a) nz))
    /\
    (~ Forall (fun a => (a < length actionListGivenIndex)%nat) nz ->
     fold_left (pretty_action action_values actionListGivenIndex s) l (Ok out)
     = Raise IndexError).
Proof.
  intros Hs Hl. induction Hl as [|a l Ha Hl IH]; intros out nz.
  - simpl. split; [intros _; rewrite app_nil_r; reflexivity|].
    intros Hn. exfalso. apply Hn. constructor.
  - destruct (lookup_lt_is_Some_2 action_values s) as [row Hrow];
      [destruct table_shape; lia|].
    pose proof (shape_lookup _ _ _ _ _ table_shape Hrow) as Hlrow.
    assert (Hcell : cell_at action_values s a = Ok (mget action_values s a))
      by (apply (cell_at_mget _ _ _ row Hrow); lia).
    assert (Hone : pretty_action action_values actionListGivenIndex s (Ok out) a =
                   if Qeq_bool (mget action_values s a) 0 then Ok out
                   else match actionListGivenIndex !! a with
                        | Some lab => Ok (out ++ [PrintAction a lab])
                        | None => Raise IndexError
                        end).
    { unfold pretty_action. simpl. rewrite Hcell. simpl.
      destruct (Qeq_bool (mget action_values s a) 0); [reflexivity|].
      unfold label_at. destruct (actionListGivenIndex !! a); reflexivity. }
    subst nz. change (fold_left ?f (a :: l) ?x) with (fold_left f l (f x a)).
    rewrite Hone. simpl List.filter.
    destruct (Qeq_bool (mget action_values s a) 0) eqn:Hz; simpl.
    + apply IH.
    + destruct (actionListGivenIndex !! a) as [lab|] eqn:Hlab; simpl.
      * destruct (IH (out ++ [PrintAction a lab])) as [Hok Hbad].
        split.
        -- intros Hall. apply Forall_cons in Hall as [_ Hall].
           rewrite (Hok Hall), <- app_assoc. reflexivity.
        -- intros Hn. apply Hbad. intros Hall. apply Hn.
           constructor; [eapply lookup_lt_Some; exact Hlab|exact Hall].
      * rewrite pretty_action_Raise. split; [|intros _; reflexivity].
        intros Hall. exfalso. apply Forall_cons in Hall as [Hlt _].
        apply lookup_ge_None in Hlab. lia.
Qed.

Lemma Forall_lt_seq (n : nat) : Forall (fun a => (a < n)%nat) (seq 0 n).
Proof. apply Forall_forall. intros a Ha. apply list_elem_of_In, in_seq in Ha. lia. Qed.

(** The outer loop over the first [k] states: it ends well exactly when
    the labels of these states and of their non-zero actions exist. *)
Lemma pretty_states_run (k : nat) :
  (k <= mdp_S mdp)%nat ->
  let ok :=
    (k <= length stateListGivenIndex)%nat /\
    forall s a : nat, (s < k)%nat ->
      a ∈ nonzero_actions mdp action_values s ->
      (a < length actionListGivenIndex)%nat in
  match fold_left (pretty_state mdp action_values stateListGivenIndex
                     actionListGivenIndex) (seq 0 k) (Ok []) with
  | Ok out =>
    ok /\
    out = flat_map (fun s =>
            header_line stateListGivenIndex s ++
            action_lines mdp action_values actionListGivenIndex s) (seq 0 k)
  | Raise e => e = IndexError /\ ~ ok
  end.
Proof.
  induction k as [|k IH]; intros Hk ok.
  - simpl. split; [|reflexivity]. split; [lia|]. intros s a Hs. lia.
  - specialize (IH ltac:(lia)). simpl in IH.
    rewrite seq_S, fold_left_app, flat_map_app, Nat.add_0_l.
    change (fold_left ?f [k] ?x) with (f x k).
    change (flat_map ?f [k]) with (f k ++ []). rewrite app_nil_r.
    destruct (fold_left (pretty_state mdp action_values stateListGivenIndex
                actionListGivenIndex) (seq 0 k) (Ok [])) as [out|e].
    2:{ destruct IH as [-> Hbad]. split; [reflexivity|].
        intros [Hlen Hact]. apply Hbad. split; [lia|].
        intros s a Hs. apply Hact. lia. }
    destruct IH as [[Hlen Hact] ->].
    unfold pretty_state. simpl mbind. unfold label_at.
    destruct (stateListGivenIndex !! k) as [lab|] eqn:Hlab.
    2:{ split; [reflexivity|]. intros [Hlen' _].
        apply lookup_ge_None in Hlab. lia. }
    pose proof (lookup_lt_Some _ _ _ Hlab) as Hklt.
    assert (Hh : header_line stateListGivenIndex k = [PrintState k lab])
      by (unfold header_line; rewrite Hlab; reflexivity).
    rewrite Hh.
    destruct (pretty_actions_run k (seq 0 (mdp_A mdp)) ltac:(lia)
                (Forall_lt_seq _)
                (flat_map (fun s =>
                   header_line stateListGivenIndex s ++
                   action_lines mdp action_values actionListGivenIndex s)
                   (seq 0 k) ++ [PrintState k lab])) as [Hok Hbad].
    fold (nonzero_actions mdp action_values k) in Hok, Hbad.
    fold (action_lines mdp action_values actionListGivenIndex k) in Hok.
    destruct (decide (Forall (fun a => (a < length actionListGivenIndex)%nat)
                        (nonzero_actions mdp action_values k))) as [Hall|Hnall].
    + simpl mbind. rewrite (Hok Hall). split.
      * split; [lia|]. intros s a Hs Ha.
        destruct (decide (s = k)) as [->|Hne].
        -- rewrite Forall_forall in Hall. apply Hall, Ha.
        -- apply (Hact s a); [lia|exact Ha].
      * rewrite <- !app_assoc. reflexivity.
    + simpl mbind. rewrite (Hbad Hnall). split; [reflexivity|].
      intros [_ Hact']. apply Hnall, Forall_forall.
      intros a Ha. apply (Hact' k a); [lia|exact Ha].
Qed.
End PrettyFacts.

(** X8.  On an [S x A] table [prettyPrintValues] looks a state label up for
    every state, and an action label only after the zero test: it prints,
    state by state, the header of the state and one entry for each action of
    non-zero value, provided every state and every action with a non-zero
    value somewhere has a label; otherwise it raises [IndexError].  Actions
    whose values are all zero need no label and are never printed. *)
Theorem prettyPrintValues_lines {L : Type} (mdp : FiniteMDP)
    (action_values : matrix) (stateListGivenIndex actionListGivenIndex : list L) :
  shape action_values (mdp_S mdp) (mdp_A mdp) ->
  (labels_suffice mdp action_values stateListGivenIndex actionListGivenIndex ->
   prettyPrintValues mdp action_values stateListGivenIndex actionListGivenIndex
   = Ok (pretty_lines mdp action_values stateListGivenIndex
           actionListGivenIndex)) /\
  (~ labels_suffice mdp action_values stateListGivenIndex actionListGivenIndex ->
   prettyPrintValues mdp action_values stateListGivenIndex actionListGivenIndex
   = Raise IndexError).
Proof.
  intros Hsh.
  pose proof (pretty_states_run mdp action_values stateListGivenIndex
                actionListGivenIndex Hsh (mdp_S mdp) (le_n _)) as Hrun.
  simpl in Hrun. unfold prettyPrintValues, labels_suffice, pretty_lines.
  destruct (fold_left _ (seq 0 (mdp_S mdp)) (Ok [])) as [out|e].
  - destruct Hrun as [Hok ->]. split; [reflexivity|].
    intros Hn. contradiction.
  - destruct Hrun as [-> Hbad]. split; [|reflexivity].
    intros Hok. contradiction.
Qed.

Lemma prettyPrintValues_lines_witness :
  prettyPrintValues toggle_mdp [[0; 5]; [0; 0]] [7%nat; 8%nat] [9%nat; 6%nat] =
    Ok [PrintState 0 7%nat; PrintAction 1 6%nat; PrintState 1 8%nat] /\
  prettyPrintValues toggle_mdp [[0; 5]; [0; 0]] [7%nat; 8%nat] [9%nat] =
    Raise IndexError.
Proof.
  assert (Hsh : shape [[0; 5]; [0; 0]] (mdp_S toggle_mdp) (mdp_A toggle_mdp))
    by (split; [reflexivity|repeat constructor]).
  split.
  - apply (proj1 (prettyPrintValues_lines toggle_mdp [[0; 5]; [0; 0]]
                    [7%nat; 8%nat] [9%nat; 6%nat] Hsh)).
    split; [simpl; lia|]. intros s a Hs Ha.
    apply list_elem_of_In, filter_In in Ha as [Ha _]. apply in_seq in Ha.
    simpl in *. lia.
  - apply (proj2 (prettyPrintValues_lines toggle_mdp [[0; 5]; [0; 0]]
                    [7%nat; 8%nat] [9%nat] Hsh)).
    intros [_ Hact]. specialize (Hact 0%nat 1%nat).
    simpl in Hact. assert (1 < 1)%nat; [|lia].
    apply Hact; [lia|]. vm_compute. left.
Defined.

(** ** Episodes of Q-learning: what they touch and how they chain *)

Lemma path_from_app (s : nat) (l1 l2 : list (nat * nat * nat)) :
  path_from s l1 -> path_from (path_end s l1) l2 -> path_from s (l1 ++ l2).
Proof.
  revert s. induction l1 as [|[[s0 a] s'] l1 IH]; intros s H1 H2; simpl in *.
  - exact H2.
  - destruct H1 as [-> H1]. split; [reflexivity|]. apply IH; assumption.
Qed.

Lemma path_end_app (s : nat) (l1 l2 : list (nat * nat * nat)) :
  path_end s (l1 ++ l2) = path_end (path_end s l1) l2.
Proof.
  revert s. induction l1 as [|[[s0 a] s'] l1 IH]; intros s; simpl.
  - reflexivity.
  - apply IH.
Qed.

Section EpisodeFacts.
Context {E H : Type} (environment : Env E H).
Variable mdp : FiniteMDP.
Variables alpha eps gamma : Q.

(** What a successful turn does, without any assumption on the inputs. *)
Lemma q_step_Ok (d : draw) (st st' : episode E) :
  q_step environment mdp alpha eps gamma d st = Ok st' ->
  exists (a : nat) (x : Q),
    let s := q_currentState st in
    let s' := get_state environment (step environment (q_env st) a).2 in
    chooseAction mdp s (q_table st) eps d = Ok a /\
    q_target (q_table st) s a s' (t_cell (rewardsTable environment) s a s')
      alpha gamma = Ok x /\
    st' = Episode (step environment (q_env st) a).2
            (mset (q_table st) s a x) s'
            (q_rewards st + t_cell (rewardsTable environment) s a s')
            (q_transitions st ++ [(s, a, s')]).
Proof.
  unfold q_step. intros Hs.
  apply bind_Ok in Hs as (a & Hc & Hs).
  destruct (step environment (q_env st) a) as [o e] eqn:Hstep.
  apply bind_Ok in Hs as (r & Hr & Hs).
  apply bind_Ok in Hs as (x & Hx & Hs).
  injection Hs as <-.
  assert (Hcell : r = t_cell (rewardsTable environment) (q_currentState st) a
                        (get_state environment e)).
  { unfold tensor_at in Hr.
    destruct (t_shape (rewardsTable environment)) as [[d0 d1] d2].
    destruct (_ && _); [|discriminate]. injection Hr as <-. reflexivity. }
  subst r. exists a, x. rewrite Hstep. simpl. split; [exact Hc|].
  split; [exact Hx|]. reflexivity.
Qed.

(** A turn reads the environment, the table and the current state only:
    from two episodes that agree on them it does the same thing. *)
Lemma q_step_agree (d : draw) (st1 st2 st1' : episode E) :
  q_env st1 = q_env st2 -> q_table st1 = q_table st2 ->
  q_currentState st1 = q_currentState st2 ->
  q_step environment mdp alpha eps gamma d st1 = Ok st1' ->
  exists t : nat * nat * nat,
    q_step environment mdp alpha eps gamma d st2 =
      Ok (Episode (q_env st1') (q_table st1') (q_currentState st1')
            (q_rewards st2 + cell_of (rewardsTable environment) t)
            (q_transitions st2 ++ [t])) /\
    q_rewards st1' = q_rewards st1 + cell_of (rewardsTable environment) t /\
    q_transitions st1' = q_transitions st1 ++ [t].
Proof.
  intros He Ht Hc. unfold q_step. rewrite He, Ht, Hc. intros Hs.
  apply bind_Ok in Hs as (a & Ha & Hs). rewrite Ha. simpl.
  destruct (step environment (q_env st2) a) as [o e].
  apply bind_Ok in Hs as (r & Hr & Hs). rewrite Hr. simpl.
  apply bind_Ok in Hs as (x & Hx & Hs). rewrite Hx. simpl.
  injection Hs as <-. simpl.
  assert (Hcell : r = t_cell (rewardsTable environment) (q_currentState st2) a
                        (get_state environment e)).
  { unfold tensor_at in Hr.
    destruct (t_shape (rewardsTable environment)) as [[d0 d1] d2].
    destruct (_ && _); [|discriminate]. injection Hr as <-. reflexivity. }
  subst r.
  exists (q_currentState st2, a, get_state environment e).
  repeat split.
Qed.

Lemma q_loop_agree (ds : list draw) :
  forall st1 st2 st1' : episode E,
    q_env st1 = q_env st2 -> q_table st1 = q_table st2 ->
    q_currentState st1 = q_currentState st2 ->
    q_loop environment mdp alpha eps gamma ds st1 = Ok st1' ->
    exists new : list (nat * nat * nat),
      q_loop environment mdp alpha eps gamma ds st2 =
        Ok (Episode (q_env st1') (q_table st1') (q_currentState st1')
              (fold_left Qplus (map (cell_of (rewardsTable environment)) new)
                 (q_rewards st2))
              (q_transitions st2 ++ new)) /\
      q_rewards st1' =
        fold_left Qplus (map (cell_of (rewardsTable environment)) new)
          (q_rewards st1) /\
      q_transitions st1' = q_transitions st1 ++ new /\
      length new = length ds.
Proof.
  induction ds as [|d ds IH]; intros st1 st2 st1' He Ht Hc Hl; simpl in *.
  - injection Hl as <-. exists []. simpl. rewrite !app_nil_r, He, Ht, Hc.
    destruct st2. repeat split.
  - apply bind_Ok in Hl as (st1m & Hs & Hl).
    destruct (q_step_agree d st1 st2 st1m He Ht Hc Hs) as (t & Hs2 & Hr & Htr).
    rewrite Hs2. simpl.
    destruct (IH st1m
                (Episode (q_env st1m) (q_table st1m) (q_currentState st1m)
                   (q_rewards st2 + cell_of (rewardsTable environment) t)
                   (q_transitions st2 ++ [t]))
                st1' eq_refl eq_refl eq_refl Hl)
      as (new & Hl2 & Hr' & Htr' & Hlen).
    exists (t :: new). simpl in *. rewrite Hl2. rewrite <- app_assoc.
    repeat split.
    + rewrite Hr', Hr. reflexivity.
    + rewrite Htr', Htr, <- app_assoc. reflexivity.
    + rewrite Hlen. reflexivity.
Qed.

Lemma q_loop_app (ds1 ds2 : list draw) : forall st : episode E,
  q_loop environment mdp alpha eps gamma (ds1 ++ ds2) st =
  q_loop environment mdp alpha eps gamma ds1 st ≫=
  q_loop environment mdp alpha eps gamma ds2.
Proof.
  induction ds1 as [|d ds1 IH]; intros st; simpl; [reflexivity|].
  destruct (q_step environment mdp alpha eps gamma d st) as [st1|];
    simpl; [apply IH|reflexivity].
Qed.

(** What a successful loop leaves behind, without any assumption. *)
Lemma q_loop_trace (ds : list draw) :
  forall st st' : episode E,
    q_loop environment mdp alpha eps gamma ds st = Ok st' ->
    exists new : list (nat * nat * nat),
      q_transitions st' = q_transitions st ++ new /\
      length new = length ds /\
      path_from (q_currentState st) new /\
      q_currentState st' = path_end (q_currentState st) new /\
      (ds <> [] -> q_currentState st' = get_state environment (q_env st')) /\
      (forall s a : nat, ~ visited new s a ->
         mget (q_table st') s a = mget (q_table st) s a) /\
      (forall nS nA : nat, shape (q_table st) nS nA -> shape (q_table st') nS nA).
Proof.
  induction ds as [|d ds IH]; intros st st' Hl; simpl in *.
  - injection Hl as <-. exists []. rewrite app_nil_r.
    split; [reflexivity|]. split; [reflexivity|]. split; [exact I|].
    split; [reflexivity|]. split; [intros Hne; contradiction|].
    split; [intros s a _; reflexivity|]. intros nS nA Hsh. exact Hsh.
  - apply bind_Ok in Hl as (st1 & Hs & Hl).
    apply q_step_Ok in Hs as (a & x & _ & _ & ->).
    pose proof Hl as Hl0.
    apply IH in Hl as (new & Htr & Hlen & Hpath & Hend & Hcur & Hcells & Hsh).
    simpl in *.
    exists ((q_currentState st, a,
             get_state environment (step environment (q_env st) a).2) :: new).
    simpl. split; [rewrite Htr, <- app_assoc; reflexivity|].
    split; [rewrite Hlen; reflexivity|].
    split; [split; [reflexivity|exact Hpath]|].
    split; [exact Hend|]. split.
    { intros _. destruct ds as [|d' ds'].
      - simpl in Hl0. injection Hl0 as <-. reflexivity.
      - apply Hcur. discriminate. }
    split.
    + intros s0 a0 Hnv. rewrite Hcells.
      * apply mget_mset_ne.
        destruct (decide (s0 = q_currentState st)) as [->|Hne]; [|left; exact Hne].
        destruct (decide (a0 = a)) as [->|Hne]; [|right; exact Hne].
        exfalso. apply Hnv. eexists. left.
      * intros [s' Hin]. apply Hnv. exists s'. right. exact Hin.
    + intros nS nA Hshape. apply Hsh, shape_mset, Hshape.
Qed.
End EpisodeFacts.

Lemma q_learning_Ok {E H : Type} (environment : Env E H) (mdp : FiniteMDP)
    (table : matrix) (n : nat) (alpha eps gamma : Q) (draws : nat -> draw)
    (e : E) (ret : Q) (st : episode E) :
  q_learning environment mdp table n alpha eps gamma draws e = Ok (ret, st) ->
  (0 < n)%nat /\
  q_loop environment mdp alpha eps gamma (map draws (seq 0 n))
    (Episode e table (get_state environment e) 0 []) = Ok st /\
  ret = q_rewards st / inject_Z (Z.of_nat n).
Proof.
  unfold q_learning. intros Hq. apply bind_Ok in Hq as (st0 & Hl & Hq).
  destruct (n =? 0)%nat eqn:Hn; [discriminate|].
  apply Nat.eqb_neq in Hn. injection Hq as <- <-.
  split; [lia|]. split; [exact Hl|reflexivity].
Qed.

(** X9.  An episode of [q_learning] that returns has made exactly [n]
    transitions, which form a path from the environment's starting state to
    the final current state (itself the environment's state); a cell of the
    table whose (state, action) pair starts none of these transitions holds
    the value it held before the call, and the table keeps its shape. *)
Theorem q_learning_touches_visited_only {E H : Type} (environment : Env E H)
    (mdp : FiniteMDP) (table : matrix) (n : nat) (alpha eps gamma : Q)
    (draws : nat -> draw) (e : E) (ret : Q) (st : episode E) :
  q_learning environment mdp table n alpha eps gamma draws e = Ok (ret, st) ->
  length (q_transitions st) = n /\
  path_from (get_state environment e) (q_transitions st) /\
  q_currentState st = path_end (get_state environment e) (q_transitions st) /\
  q_currentState st = get_state environment (q_env st) /\
  (forall s a : nat, ~ visited (q_transitions st) s a ->
     mget (q_table st) s a = mget table s a) /\
  (forall nS nA : nat, shape table nS nA -> shape (q_table st) nS nA).
Proof.
  intros Hq. apply q_learning_Ok in Hq as (Hn & Hl & _).
  apply q_loop_trace in Hl
    as (new & Htr & Hlen & Hpath & Hend & Hcur & Hcells & Hsh).
  simpl in *. rewrite Htr. rewrite length_map, length_seq in Hlen.
  split; [exact Hlen|]. split; [exact Hpath|]. split; [exact Hend|].
  split; [|split; assumption].
  apply Hcur. destruct n; [lia|]. discriminate.
Qed.

Lemma q_learning_touches_visited_only_witness :
  exists (ret : Q) (st : episode nat),
    q_learning toggle_env toggle_mdp [[1; 2]; [3; 4]] 3 (1 # 10) (1 # 100)
      (9 # 10) (fun i => Draw (1 # 2) i) 0%nat = Ok (ret, st) /\
    length (q_transitions st) = 3%nat /\
    mget (q_table st) 0 0 = 1.
Proof.
  destruct (q_learning toggle_env toggle_mdp [[1; 2]; [3; 4]] 3 (1 # 10)
              (1 # 100) (9 # 10) (fun i => Draw (1 # 2) i) 0%nat)
    as [[ret st]|x] eqn:Hq; [|vm_compute in Hq; discriminate].
  destruct (q_learning_touches_visited_only toggle_env toggle_mdp
              [[1; 2]; [3; 4]] 3 (1 # 10) (1 # 100) (9 # 10)
              (fun i => Draw (1 # 2) i) 0%nat ret st Hq)
    as (Hlen & _ & _ & _ & Hcells & _).
  exists ret, st. split; [reflexivity|]. split; [exact Hlen|].
  apply (Hcells 0%nat 0%nat).
  vm_compute in Hq. injection Hq as <- <-.
  intros [s' Hin]. simpl in Hin.
  repeat (apply elem_of_cons in Hin as [Hin|Hin]; [discriminate|]).
  apply elem_of_nil in Hin. exact Hin.
Defined.

(** ** Q-learning at a table that already satisfies the optimality equation *)

Lemma max_of_pointwise (f g : nat -> Q) (n : nat) :
  (forall i, (i < n)%nat -> f i == g i) ->
  max_of (map f (seq 0 n)) == max_of (map g (seq 0 n)).
Proof.
  intros Hfg.
  assert (Hc : Qabs (max_of (map f (seq 0 n)) - max_of (map g (seq 0 n))) <= 0).
  { apply max_of_map_close; [lra|]. intros i Hi.
    pose proof (Hfg i Hi) as Hi'. apply Qabs_Qle_condition. lra. }
  apply Qabs_Qle_condition in Hc. lra.
Qed.

Lemma consistent_pointwise {E H : Type} (environment : Env E H)
    (mdp : FiniteMDP) (gamma : Q) (t1 t2 : matrix) :
  (forall s a : nat, mget t2 s a == mget t1 s a) ->
  consistent environment mdp gamma t1 -> consistent environment mdp gamma t2.
Proof.
  intros Heq Hc e a Ha. simpl. rewrite Heq. rewrite (Hc e a Ha). simpl.
  rewrite (max_of_pointwise
             (mget t2 (get_state environment (step environment e a).2))
             (mget t1 (get_state environment (step environment e a).2))).
  - reflexivity.
  - intros i _. apply Heq.
Qed.

Lemma best_is_max_of (row : list Q) (best : Q) :
  best ∈ row -> Forall (fun y => y <= best) row -> best == max_of row.
Proof.
  intros Hin Hall.
  assert (Hlen : (0 < length row)%nat).
  { destruct row; [apply elem_of_nil in Hin; contradiction|simpl; lia]. }
  pose proof (np_max_spec _ _ (np_max_max_of row Hlen)) as [Hin' Hall'].
  rewrite Forall_forall in Hall, Hall'.
  apply Qle_antisym; [apply Hall'|apply Hall]; assumption.
Qed.

Lemma q_step_fixed {E H : Type} (environment : Env E H) (mdp : FiniteMDP)
    (alpha eps gamma : Q) (table0 : matrix) (d : draw) (st : episode E) :
  fits environment mdp -> (1 <= mdp_A mdp)%nat -> 0 <= eps -> eps <= 1 ->
  consistent environment mdp gamma table0 ->
  shape (q_table st) (mdp_S mdp) (mdp_A mdp) ->
  q_currentState st = get_state environment (q_env st) ->
  (forall s a : nat, mget (q_table st) s a == mget table0 s a) ->
  exists st' : episode E,
    q_step environment mdp alpha eps gamma d st = Ok st' /\
    shape (q_table st') (mdp_S mdp) (mdp_A mdp) /\
    q_currentState st' = get_state environment (q_env st') /\
    (forall s a : nat, mget (q_table st') s a == mget table0 s a).
Proof.
  intros Hfit HA H0 H1 Hcons Hsh Hcur Heq.
  assert (Hs : (q_currentState st < mdp_S mdp)%nat)
    by (rewrite Hcur; apply Hfit).
  destruct (q_step_effect environment mdp alpha eps gamma d st
              Hfit Hsh HA Hs H0 H1)
    as (a & o & st' & nv & best & Hstep & Hch & Hst & Hs' & _ & _ & Hnv & Hin
        & Hall & Hcell & Hother & Hsh').
  simpl in *.
  destruct (chooseAction_total mdp (q_currentState st) (q_table st) eps d
              Hsh HA Hs H0 H1) as (a' & Hch' & Ha).
  assert (a' = a) by congruence. subst a'.
  exists st'. split; [exact Hstep|]. split; [exact Hsh'|].
  split; [exact Hs'|].
  assert (Hcons' : consistent environment mdp gamma (q_table st))
    by (apply (consistent_pointwise _ _ _ table0); assumption).
  specialize (Hcons' (q_env st) a Ha). simpl in Hcons'.
  rewrite Hst in Hcons'. simpl in Hcons'.
  rewrite <- Hcur, <- Hs' in Hcons'.
  assert (Hbest : best ==
            max_of (map (mget (q_table st) (q_currentState st'))
                      (seq 0 (mdp_A mdp)))).
  { rewrite <- (shape_lookup _ _ _ _ _ Hsh Hnv).
    rewrite (row_as_map _ _ _ Hnv). apply best_is_max_of; assumption. }
  intros s2 a2.
  destruct (decide (s2 = q_currentState st)) as [->|Hne];
    [destruct (decide (a2 = a)) as [->|Hne]|].
  - rewrite Hcell, <- Heq, Hbest, <- Hcons'. ring.
  - rewrite Hother by (right; exact Hne). apply Heq.
  - rewrite Hother by (left; exact Hne). apply Heq.
Qed.

Lemma q_loop_fixed {E H : Type} (environment : Env E H) (mdp : FiniteMDP)
    (alpha eps gamma : Q) (table0 : matrix) :
  fits environment mdp -> (1 <= mdp_A mdp)%nat -> 0 <= eps -> eps <= 1 ->
  consistent environment mdp gamma table0 ->
  forall (ds : list draw) (st : episode E),
    shape (q_table st) (mdp_S mdp) (mdp_A mdp) ->
    q_currentState st = get_state environment (q_env st) ->
    (forall s a : nat, mget (q_table st) s a == mget table0 s a) ->
    exists st' : episode E,
      q_loop environment mdp alpha eps gamma ds st = Ok st' /\
      (forall s a : nat, mget (q_table st') s a == mget table0 s a).
Proof.
  intros Hfit HA H0 H1 Hcons.
  induction ds as [|d ds IH]; intros st Hsh Hcur Heq; simpl.
  - exists st. split; [reflexivity|exact Heq].
  - destruct (q_step_fixed environment mdp alpha eps gamma table0 d st
                Hfit HA H0 H1 Hcons Hsh Hcur Heq)
      as (st1 & Hstep & Hsh1 & Hcur1 & Heq1).
    rewrite Hstep. simpl. apply IH; assumption.
Qed.

(** X10.  If the table given to [q_learning] satisfies the optimality
    equation on every transition the environment can make, an episode of
    any length, step size and exploration probability returns and leaves
    every cell of the table at its value: the table is a fixed point of the
    update, and it still satisfies the equation afterwards. *)
Theorem q_learning_fixed_point {E H : Type} (environment : Env E H)
    (mdp : FiniteMDP) (table : matrix) (n : nat) (alpha eps gamma : Q)
    (draws : nat -> draw) (e : E) :
  (0 < n)%nat ->
  fits environment mdp ->
  shape table (mdp_S mdp) (mdp_A mdp) ->
  (1 <= mdp_A mdp)%nat -> 0 <= eps -> eps <= 1 ->
  consistent environment mdp gamma table ->
  exists (ret : Q) (st : episode E),
    q_learning environment mdp table n alpha eps gamma draws e = Ok (ret, st) /\
    (forall s a : nat, mget (q_table st) s a == mget table s a) /\
    consistent environment mdp gamma (q_table st).
Proof.
  intros Hn Hfit Hsh HA H0 H1 Hcons.
  destruct (q_loop_fixed environment mdp alpha eps gamma table
              Hfit HA H0 H1 Hcons (map draws (seq 0 n))
              (Episode e table (get_state environment e) 0 []))
    as (st & Hl & Heq); [exact Hsh|reflexivity|intros; reflexivity|].
  exists (q_rewards st / inject_Z (Z.of_nat n)), st.
  split.
  { unfold q_learning. rewrite Hl. simpl.
    destruct (n =? 0)%nat eqn:Hz; [apply Nat.eqb_eq in Hz; lia|reflexivity]. }
  split; [exact Heq|].
  apply (consistent_pointwise _ _ _ table); assumption.
Qed.

Lemma flip_fits : fits flip_env toggle_mdp.
Proof. split; [intros [|]; simpl; lia|reflexivity]. Qed.

Lemma flip_table_consistent : consistent flip_env toggle_mdp (1 # 2) flip_table.
Proof.
  intros e a Ha. simpl in Ha.
  destruct e; destruct a as [|[|a]]; try lia; vm_compute; reflexivity.
Qed.

Lemma q_learning_fixed_point_witness :
  exists (ret : Q) (st : episode bool),
    q_learning flip_env toggle_mdp flip_table 4 (1 # 10) (1 # 2) (1 # 2)
      (fun i => Draw (inject_Z (Z.of_nat (i mod 2)) * (3 # 4)) i) false =
      Ok (ret, st) /\
    (forall s a : nat, mget (q_table st) s a == mget flip_table s a).
Proof.
  destruct (q_learning_fixed_point flip_env toggle_mdp flip_table 4 (1 # 10)
              (1 # 2) (1 # 2)
              (fun i => Draw (inject_Z (Z.of_nat (i mod 2)) * (3 # 4)) i) false)
    as (ret & st & Hq & Heq & _).
  - lia.
  - exact flip_fits.
  - split; [reflexivity|]. repeat constructor.
  - simpl. lia.
  - discriminate.
  - discriminate.
  - exact flip_table_consistent.
  - exists ret, st. split; assumption.
Defined.

(** ** Two episodes in a row *)

Lemma map_seq_shift (draws : nat -> draw) (n1 n2 : nat) :
  map draws (seq 0 (n1 + n2)) =
  map draws (seq 0 n1) ++ map (fun i => draws (n1 + i)%nat) (seq 0 n2).
Proof.
  rewrite seq_app, map_app. f_equal. simpl.
  replace (seq n1 n2) with (seq (n1 + 0) n2) by (f_equal; lia).
  rewrite <- (fmap_add_seq n1 0 n2), <- list_fmap_compose. reflexivity.
Qed.

(** X11.  Two calls of [q_learning] in a row, the second on the table and
    the environment the first one left and on the draws that follow, do to
    the table and the environment what a single call of [n1 + n2] turns
    does; the transitions are those of the two calls one after the other,
    and the value the single call returns is the average of the two
    returned values weighted by the numbers of turns. *)
Theorem q_learning_composes {E H : Type} (environment : Env E H)
    (mdp : FiniteMDP) (table : matrix) (n1 n2 : nat) (alpha eps gamma : Q)
    (draws : nat -> draw) (e : E) (r1 r2 : Q) (st1 st2 : episode E) :
  q_learning environment mdp table n1 alpha eps gamma draws e = Ok (r1, st1) ->
  q_learning environment mdp (q_table st1) n2 alpha eps gamma
    (fun i => draws (n1 + i)%nat) (q_env st1) = Ok (r2, st2) ->
  exists (r : Q) (st : episode E),
    q_learning environment mdp table (n1 + n2) alpha eps gamma draws e =
      Ok (r, st) /\
    q_table st = q_table st2 /\
    q_env st = q_env st2 /\
    q_currentState st = q_currentState st2 /\
    q_transitions st = q_transitions st1 ++ q_transitions st2 /\
    r * inject_Z (Z.of_nat (n1 + n2)) ==
      r1 * inject_Z (Z.of_nat n1) + r2 * inject_Z (Z.of_nat n2).
Proof.
  intros Hq1 Hq2.
  apply q_learning_Ok in Hq1 as (Hn1 & Hl1 & ->).
  apply q_learning_Ok in Hq2 as (Hn2 & Hl2 & ->).
  assert (Hcur : q_currentState st1 = get_state environment (q_env st1)).
  { apply q_loop_trace in Hl1 as (_ & _ & _ & _ & _ & Hcur & _).
    apply Hcur. destruct n1; [lia|]. discriminate. }
  destruct (q_loop_agree environment mdp alpha eps gamma _
              (Episode (q_env st1) (q_table st1)
                 (get_state environment (q_env st1)) 0 [])
              st1 st2 eq_refl eq_refl (eq_sym Hcur) Hl2)
    as (new & Hl & Hr2 & Htr2 & _).
  simpl in Hr2, Htr2.
  eexists _, _. split.
  { unfold q_learning. rewrite map_seq_shift, q_loop_app, Hl1. simpl.
    rewrite Hl. simpl.
    destruct (n1 + n2 =? 0)%nat eqn:Hz; [apply Nat.eqb_eq in Hz; lia|].
    reflexivity. }
  simpl. repeat split; [rewrite Htr2; reflexivity|].
  rewrite Hr2, fold_left_Qplus_acc.
  rewrite (fold_left_Qplus_acc _ 0).
  assert (Hp1 : 1 <= inject_Z (Z.of_nat n1)).
  { change 1 with (inject_Z 1). rewrite <- Zle_Qle. lia. }
  assert (Hp2 : 1 <= inject_Z (Z.of_nat n2)).
  { change 1 with (inject_Z 1). rewrite <- Zle_Qle. lia. }
  rewrite Nat2Z.inj_add, inject_Z_plus. field. repeat split; lra.
Qed.

Lemma q_learning_composes_witness :
  exists (r : Q) (st : episode nat),
    q_learning toggle_env toggle_mdp [[0; 0]; [0; 0]] (2 + 3) (1 # 10)
      (1 # 2) (9 # 10) (fun i => Draw (inject_Z (Z.of_nat (i mod 2)) * (3 # 4)) i)
      0%nat = Ok (r, st) /\
    length (q_transitions st) = 5%nat.
Proof.
  destruct (q_learning toggle_env toggle_mdp [[0; 0]; [0; 0]] 2 (1 # 10)
              (1 # 2) (9 # 10)
              (fun i => Draw (inject_Z (Z.of_nat (i mod 2)) * (3 # 4)) i) 0%nat)
    as [[r1 st1]|x] eqn:Hq1; [|vm_compute in Hq1; discriminate].
  destruct (q_learning toggle_env toggle_mdp (q_table st1) 3 (1 # 10)
              (1 # 2) (9 # 10)
              (fun i => Draw (inject_Z (Z.of_nat ((2 + i) mod 2)) * (3 # 4))
                          (2 + i)) (q_env st1))
    as [[r2 st2]|x] eqn:Hq2.
  - destruct (q_learning_composes toggle_env toggle_mdp [[0; 0]; [0; 0]] 2 3
                (1 # 10) (1 # 2) (9 # 10)
                (fun i => Draw (inject_Z (Z.of_nat (i mod 2)) * (3 # 4)) i)
                0%nat r1 r2 st1 st2 Hq1 Hq2)
      as (r & st & Hq & _ & _ & _ & Htr & _).
    exists r, st. split; [exact Hq|].
    vm_compute in Hq1. injection Hq1 as <- <-.
    vm_compute in Hq2. injection Hq2 as <- <-.
    rewrite Htr. reflexivity.
  - vm_compute in Hq1. injection Hq1 as <- <-.
    vm_compute in Hq2. discriminate.
Defined.


(** ** Loops that never stop *)

Lemma until_small_None_more {A : Type} (f : A -> A) (small : A -> A -> bool)
    (k : nat) : forall (x : A) (iteration : nat),
  until_small f small k x iteration = None ->
  forall fuel : nat,
    until_small f small (k + fuel) x iteration =
    until_small f small fuel (iterate f k x) (iteration + k).
Proof.
  induction k as [|k IH]; intros x iteration Hk fuel.
  - simpl. rewrite Nat.add_0_r. reflexivity.
  - simpl in *. destruct (small (f x) x); [discriminate|].
    rewrite (IH _ _ Hk). f_equal. lia.
Qed.

Lemma until_small_None_less {A : Type} (f : A -> A) (small : A -> A -> bool)
    (k : nat) : forall (x : A) (iteration : nat),
  until_small f small k x iteration = None ->
  forall fuel : nat, (fuel <= k)%nat ->
    until_small f small fuel x iteration = None.
Proof.
  induction k as [|k IH]; intros x iteration Hk fuel Hfuel.
  - destruct fuel; [reflexivity|lia].
  - destruct fuel as [|fuel]; [reflexivity|]. simpl in *.
    destruct (small (f x) x); [discriminate|].
    apply (IH _ _ Hk). lia.
Qed.

(** A table that two passes give back, neither pass changing little, is
    never left. *)
Lemma until_small_two_cycle {A : Type} (f : A -> A) (small : A -> A -> bool)
    (y : A) :
  f (f y) = y -> small (f y) y = false -> small y (f y) = false ->
  forall (fuel iteration : nat),
    until_small f small fuel y iteration = None /\
    until_small f small fuel (f y) iteration = None.
Proof.
  intros Hcycle H1 H2.
  induction fuel as [|fuel IH]; intros iteration; [split; reflexivity|].
  simpl. rewrite H1, Hcycle, H2. split.
  - apply (IH (S iteration)).
  - apply (IH (S iteration)).
Qed.

(** A loop that reaches such a table without having stopped never
    returns, whatever the fuel. *)
Lemma until_small_cycles {A : Type} (f : A -> A) (small : A -> A -> bool)
    (k : nat) (x : A) (iteration : nat) :
  until_small f small k x iteration = None ->
  f (f (iterate f k x)) = iterate f k x ->
  small (f (iterate f k x)) (iterate f k x) = false ->
  small (iterate f k x) (f (iterate f k x)) = false ->
  forall fuel : nat, until_small f small fuel x iteration = None.
Proof.
  intros Hk Hcycle H1 H2 fuel.
  destruct (decide (fuel <= k)%nat) as [Hle|Hgt].
  - apply (until_small_None_less f small k x iteration Hk fuel Hle).
  - replace fuel with (k + (fuel - k))%nat by lia.
    rewrite (until_small_None_more f small k x iteration Hk).
    apply (until_small_two_cycle f small _ Hcycle H1 H2).
Qed.

(** X12.  A transition tensor with non-negative entries whose rows sum to
    [1] and a discount below [1] do not make the three loops end in
    binary64.  On two states that the only action exchanges, with rewards
    [1e12] and [-1e12] and [gamma = 0.9], the vector of value iteration,
    the table of action-value iteration and the vector of two-buffer
    policy evaluation reach, after 334 passes, a pair of tables that the
    next passes exchange for ever, with a summed change of [2^-10], which
    is not below [1e-4]: none of the three calls returns, whatever the
    fuel.  In-place policy evaluation of the same input returns after 168
    passes. *)
Theorem dp_loops_can_cycle (fuel : nat) :
  (forall s a : nat, (s < 2)%nat ->
     nsum (map (swap_P s a) (seq 0 2)) = b64_one /\
     Forall (fun p => n_ltb p n_zero = false) (map (swap_P s a) (seq 0 2))) /\
  n_ltb (b64_ratio 9 10) b64_one = true /\
  compute_optimal_state_values 2 1 swap_P swap_R fuel (b64_ratio 9 10) =
    None /\
  compute_optimal_action_values 2 1 swap_P swap_R fuel (b64_ratio 9 10) =
    None /\
  compute_state_values 2 1 swap_P swap_R fuel (fun _ _ => b64_one) false
    (b64_ratio 9 10) = None /\
  (exists V : list spec_float,
     compute_state_values 2 1 swap_P swap_R 168 (fun _ _ => b64_one) true
       (b64_ratio 9 10) = Some (V, 168%nat)) /\
  improvement
    (optimal_sweeps 2 1 swap_P swap_R (b64_ratio 9 10) 335)
    (optimal_sweeps 2 1 swap_P swap_R (b64_ratio 9 10) 334) =
  S754_finite false 4503599627370496 (-62).
Proof.
  split.
  { intros s a Hs. destruct s as [|[|s]]; [| |lia];
      (split; [vm_compute; reflexivity|repeat constructor]). }
  split; [vm_compute; reflexivity|].
  split.
  { unfold compute_optimal_state_values.
    rewrite (optimal_state_values_loop_skeleton 2 1 swap_P swap_R
               (b64_ratio 9 10) (le_n 1)) by reflexivity.
    rewrite (until_small_cycles _ _ 334); [reflexivity| | | |];
      vm_compute; reflexivity. }
  split.
  { unfold compute_optimal_action_values.
    rewrite (optimal_action_values_loop_skeleton 2 1 swap_P swap_R
               (b64_ratio 9 10) (le_n 1))
      by (first [reflexivity | repeat constructor]).
    apply (until_small_cycles _ _ 334); vm_compute; reflexivity. }
  split.
  { unfold compute_state_values. rewrite state_values_loop_skeleton.
    apply (until_small_cycles _ _ 334); vm_compute; reflexivity. }
  split; [eexists; vm_compute; reflexivity|].
  vm_compute. reflexivity.
Qed.

(** ** An environment without actions *)

Section ZeroSums.
Context {T : Type} `{Num T}.
Hypothesis laws : zero_laws T.

Lemma sum_left_zeros (l : list T) :
  Forall (eq n_zero) l -> sum_left l n_zero = n_zero.
Proof.
  destruct laws as (_ & Hadd & _).
  induction 1 as [|x l <- _ IH]; [reflexivity|].
  unfold sum_left in *. simpl. rewrite Hadd. exact IH.
Qed.

Lemma zip_with_zeros (r : list T) : forall c : list T,
  Forall (eq n_zero) r -> Forall (eq n_zero) c ->
  Forall (eq n_zero) (zip_with n_add r c).
Proof.
  destruct laws as (_ & Hadd & _).
  induction r as [|x r IH]; intros c Hr Hc; [constructor|].
  apply Forall_cons in Hr as [<- Hr].
  destruct c as [|y c]; [constructor|].
  apply Forall_cons in Hc as [<- Hc]. simpl.
  constructor; [symmetry; exact Hadd|apply IH; assumption].
Qed.

Lemma accumulate8_zeros (k : nat) : forall r l : list T,
  Forall (eq n_zero) r -> Forall (eq n_zero) l ->
  Forall (eq n_zero) (accumulate8 k r l).
Proof.
  induction k as [|k IH]; intros r l Hr Hl; simpl; [exact Hr|].
  apply IH; [|apply Forall_drop; exact Hl].
  apply zip_with_zeros; [exact Hr|apply Forall_take; exact Hl].
Qed.

Lemma combine8_zeros (r : list T) :
  Forall (eq n_zero) r -> combine8 r = n_zero.
Proof.
  destruct laws as (_ & Hadd & _). intros Hr.
  do 8 (destruct r as [|? r]; [reflexivity|]).
  destruct r; [|reflexivity].
  repeat match goal with
         | Hx : Forall _ (_ :: _) |- _ =>
           apply Forall_cons in Hx as [<- Hx]
         end.
  simpl. rewrite !Hadd. reflexivity.
Qed.

Lemma pairwise_sum_zeros (fuel : nat) : forall l : list T,
  Forall (eq n_zero) l -> pairwise_sum fuel l = n_zero.
Proof.
  destruct laws as (_ & Hadd & _).
  assert (Hblock : forall l : list T,
            Forall (eq n_zero) l -> sum_block l = n_zero).
  { intros l Hl. unfold sum_block.
    rewrite combine8_zeros.
    - apply sum_left_zeros, Forall_drop, Hl.
    - apply accumulate8_zeros;
        [apply Forall_take|apply Forall_drop]; exact Hl. }
  induction fuel as [|fuel IH]; intros l Hl; cbn [pairwise_sum];
    (destruct (length l <? 8)%nat; [apply sum_left_zeros; exact Hl|]);
    (destruct (length l <=? 128)%nat; [apply Hblock; exact Hl|]);
    [reflexivity|].
  rewrite !IH by (apply Forall_take || apply Forall_drop; exact Hl).
  exact Hadd.
Qed.

Lemma nsum_zeros (l : list T) : Forall (eq n_zero) l -> nsum l = n_zero.
Proof. apply pairwise_sum_zeros. Qed.

Lemma improvement_zeros (n : nat) :
  n_ltb (improvement (nzeros n) (nzeros n)) n_tol = true.
Proof.
  destruct laws as (Habs & _ & Hlt).
  unfold improvement. rewrite nsum_zeros; [exact Hlt|].
  unfold nabs_diff, nzeros. rewrite zip_with_replicate, Habs.
  apply Forall_replicate. reflexivity.
Qed.
End ZeroSums.

Lemma b64_zero_laws : zero_laws spec_float.
Proof. repeat split. Qed.

Lemma Q_zero_laws : zero_laws Q.
Proof. repeat split. Qed.

Lemma fold_insert_nzeros {T : Type} `{Num T} (l : list nat) (n : nat) :
  fold_left (fun (v : list T) s => <[s := n_zero]> v) l (nzeros n) = nzeros n.
Proof.
  induction l as [|s l IH]; simpl; [reflexivity|].
  unfold nzeros at 1. rewrite insert_replicate. exact IH.
Qed.

Lemma fold_Raise {T : Type} (f : nat -> T -> res T) (e : exn) (l : list nat) :
  fold_left (fun acc s => x ← acc; f s x) l (Raise e) = Raise e.
Proof. induction l as [|s l IH]; simpl; [reflexivity|exact IH]. Qed.

Lemma fold_id {T : Type} (l : list nat) (x : T) :
  fold_left (fun acc _ => acc) l x = x.
Proof. induction l as [|s l IH]; simpl; [reflexivity|exact IH]. Qed.

Lemma concat_no_columns {T : Type} `{Num T} (n : nat) :
  concat (zip_with nabs_diff (nzeros2 n 0) (nzeros2 n 0)) = ([] : list T).
Proof. induction n as [|n IH]; simpl; [reflexivity|exact IH]. Qed.

(** Without actions, in any arithmetic in which zero plus zero is zero,
    the distance of zero to itself is zero and zero is below the
    tolerance. *)
Lemma no_action_passes {T : Type} `{Num T} (nS : nat)
    (P R : nat -> nat -> nat -> T) (discountGamma : T) (fuel : nat) :
  zero_laws T -> (1 <= nS)%nat -> (1 <= fuel)%nat ->
  compute_optimal_state_values nS 0 P R fuel discountGamma =
    Some (Raise ValueError) /\
  compute_optimal_action_values nS 0 P R fuel discountGamma =
    Some (nzeros2 nS 0, 1%nat) /\
  forall (policy : nat -> nat -> T) (in_place : bool),
    compute_state_values nS 0 P R fuel policy in_place discountGamma =
    Some (nzeros nS, 1%nat).
Proof.
  intros Hlaws HS Hfuel. destruct fuel as [|fuel]; [lia|].
  destruct nS as [|nS]; [lia|]. split; [|split].
  - unfold compute_optimal_state_values. simpl optimal_state_values_loop.
    unfold optimal_sweep. rewrite <- cons_seq. simpl fold_left.
    rewrite (fold_Raise (fun _ (_ : list T) => Raise ValueError)).
    reflexivity.
  - unfold compute_optimal_action_values. simpl optimal_action_values_loop.
    unfold action_sweep. simpl (seq 0 0). simpl (fold_left _ [] _).
    rewrite (fold_id (seq 0 (S nS))).
    unfold improvement2. rewrite concat_no_columns.
    destruct Hlaws as (_ & _ & Hlt).
    change (nsum ([] : list T)) with (n_zero : T). rewrite Hlt. reflexivity.
  - intros policy in_place. unfold compute_state_values.
    simpl state_values_loop. unfold sweep, sweep_upto, state_value.
    simpl (seq 0 0). simpl (fold_left _ [] n_zero).
    rewrite (fold_insert_nzeros (seq 0 (S nS)) (S nS)).
    rewrite (improvement_zeros Hlaws). reflexivity.
Qed.

(** X18.  When the action space is empty and there is at least one state,
    [compute_optimal_state_values] raises [ValueError] in its first pass
    (the maximum of an empty list of candidates), while
    [compute_optimal_action_values] returns the table without columns and
    [compute_state_values] the zero vector, both after one pass.  This
    holds in exact arithmetic and in binary64 alike: no cell other than
    zero is ever added. *)
Theorem no_action_outcomes (nS : nat) (fuel : nat) :
  (1 <= nS)%nat -> (1 <= fuel)%nat ->
  (forall (P R : nat -> nat -> nat -> Q) (discountGamma : Q),
     compute_optimal_state_values nS 0 P R fuel discountGamma =
       Some (Raise ValueError) /\
     compute_optimal_action_values nS 0 P R fuel discountGamma =
       Some (nzeros2 nS 0, 1%nat) /\
     forall (policy : nat -> nat -> Q) (in_place : bool),
       compute_state_values nS 0 P R fuel policy in_place discountGamma =
       Some (nzeros nS, 1%nat)) /\
  (forall (P R : nat -> nat -> nat -> spec_float) (discountGamma : spec_float),
     compute_optimal_state_values nS 0 P R fuel discountGamma =
       Some (Raise ValueError) /\
     compute_optimal_action_values nS 0 P R fuel discountGamma =
       Some (nzeros2 nS 0, 1%nat) /\
     forall (policy : nat -> nat -> spec_float) (in_place : bool),
       compute_state_values nS 0 P R fuel policy in_place discountGamma =
       Some (nzeros nS, 1%nat)).
Proof.
  intros HS Hfuel. split.
  - intros P R discountGamma.
    apply no_action_passes; [exact Q_zero_laws|exact HS|exact Hfuel].
  - intros P R discountGamma.
    apply no_action_passes; [exact b64_zero_laws|exact HS|exact Hfuel].
Qed.

Lemma no_action_outcomes_witness :
  (compute_optimal_state_values 3 0 loop_P loop_R 5 (9 # 10) =
     Some (Raise ValueError) /\
   compute_optimal_action_values 3 0 loop_P loop_R 5 (9 # 10) =
     Some ([[]; []; []], 1%nat)) /\
  (compute_optimal_state_values 3 0 b64_loop_P b64_loop_R 5 (b64_ratio 9 10) =
     Some (Raise ValueError) /\
   compute_optimal_action_values 3 0 b64_loop_P b64_loop_R 5 (b64_ratio 9 10) =
     Some ([[]; []; []], 1%nat)).
Proof.
  destruct (no_action_outcomes 3 5) as [HQ Hb]; [lia|lia|].
  split.
  - destruct (HQ loop_P loop_R (9 # 10)) as (H1 & H2 & _).
    split; [exact H1|exact H2].
  - destruct (Hb b64_loop_P b64_loop_R (b64_ratio 9 10)) as (H1 & H2 & _).
    split; [exact H1|exact H2].
Defined.

(** ** execute_q_learning *)

Lemma length_zeros (n : nat) : length (zeros n) = n.
Proof. apply length_replicate. Qed.

Section LearningFacts.
Context {E H : Type} (environment : Env E H).
Variable mdp : FiniteMDP.
Variable draws : nat -> nat -> nat -> draw.
Variables (maxNumIterations maxNumIterationsQLearning : nat).
Variables (stepSizeAlpha explorationProbEpsilon : Q).

Local Abbreviation turn :=
  (learning_turn environment mdp draws maxNumIterationsQLearning
     stepSizeAlpha explorationProbEpsilon).
Local Abbreviation one_run :=
  (learning_run environment mdp draws maxNumIterations
     maxNumIterationsQLearning stepSizeAlpha explorationProbEpsilon).
Local Abbreviation runs_loop :=
  (learning_runs environment mdp draws maxNumIterations
     maxNumIterationsQLearning stepSizeAlpha explorationProbEpsilon).

Lemma learning_turns_Raise (run : nat) (x : exn) (l : list nat) :
  fold_left (turn run) l (Raise x) = Raise x.
Proof. induction l as [|i l IH]; simpl; [reflexivity|exact IH]. Qed.

Section Succeeds.
Hypothesis env_fits : fits environment mdp.
Hypothesis some_action : (1 <= mdp_A mdp)%nat.
Hypothesis eps_lo : 0 <= explorationProbEpsilon.
Hypothesis eps_hi : explorationProbEpsilon <= 1.
Hypothesis some_turn : (1 <= maxNumIterationsQLearning)%nat.

Lemma learning_turn_Ok (run i : nat) (e : E) (rewards : vector)
    (table : matrix) :
  shape table (mdp_S mdp) (mdp_A mdp) ->
  exists (e' : E) (reward : Q) (table' : matrix),
    turn run (Ok (e, rewards, table)) i =
      Ok (e', <[i := vget rewards i + reward]> rewards, table') /\
    shape table' (mdp_S mdp) (mdp_A mdp).
Proof.
  intros Hsh. unfold learning_turn, q_learning. simpl.
  destruct (q_loop_effect environment mdp stepSizeAlpha explorationProbEpsilon
              (9 # 10) env_fits some_action eps_lo eps_hi
              (map (draws run i) (seq 0 maxNumIterationsQLearning))
              (Episode e table (get_state environment e) 0 []))
    as (st & new & Hl & _); [exact Hsh|apply env_fits|].
  rewrite Hl. simpl.
  destruct (maxNumIterationsQLearning =? 0)%nat eqn:Hz;
    [apply Nat.eqb_eq in Hz; lia|].
  eexists _, _, _. split; [reflexivity|].
  apply q_loop_trace in Hl as (_ & _ & _ & _ & _ & _ & _ & Hkeep).
  apply Hkeep. exact Hsh.
Qed.

Lemma learning_turns_Ok (run : nat) (l : list nat) :
  forall (e : E) (rewards : vector) (table : matrix),
    shape table (mdp_S mdp) (mdp_A mdp) ->
    exists (e' : E) (rewards' : vector) (table' : matrix),
      fold_left (turn run) l (Ok (e, rewards, table)) =
        Ok (e', rewards', table') /\
      length rewards' = length rewards /\
      shape table' (mdp_S mdp) (mdp_A mdp).
Proof.
  induction l as [|i l IH]; intros e rewards table Hsh.
  - exists e, rewards, table. repeat split; try reflexivity; apply Hsh.
  - destruct (learning_turn_Ok run i e rewards table Hsh)
      as (e1 & r & t1 & Hturn & Hsh1).
    destruct (IH e1 (<[i := vget rewards i + r]> rewards) t1 Hsh1)
      as (e' & rw' & t' & Hfold & Hlen & Hsh').
    exists e', rw', t'. cbn [fold_left]. rewrite Hturn.
    split; [exact Hfold|]. split; [|exact Hsh'].
    rewrite Hlen, length_insert. reflexivity.
Qed.

Lemma learning_runs_Ok (runs : list nat) :
  (1 <= maxNumIterations)%nat ->
  forall st : learning E,
    exists st' : learning E,
      runs_loop runs st = Returned st' /\
      length (l_rewards st') = length (l_rewards st) /\
      length (l_printed st') = (length (l_printed st) + length runs)%nat /\
      forall run : nat, last runs = Some run ->
        exists (table : matrix) (e0 : E) (rewards0 : vector),
          l_table st' = Some table /\
          shape table (mdp_S mdp) (mdp_A mdp) /\
          one_run run e0 rewards0 = Ok (l_env st', l_rewards st', table).
Proof.
  intros Hn. induction runs as [|run runs IH]; intros st.
  - exists st. simpl. repeat split; try lia. intros run Hlast. discriminate.
  - destruct (learning_turns_Ok run (seq 0 maxNumIterations) (l_env st)
                (l_rewards st) (zeros2 (mdp_S mdp) (mdp_A mdp))
                (shape_zeros2 _ _)) as (e1 & rw1 & t1 & Hrun & Hlen & Hsh).
    simpl. unfold learning_run. rewrite Hrun.
    destruct (maxNumIterations =? 0)%nat eqn:Hz;
      [apply Nat.eqb_eq in Hz; lia|].
    destruct (IH (Learning e1 rw1 (Some t1)
                    (l_printed st ++ [vget rw1 (maxNumIterations - 1)])))
      as (st' & Hloop & Hlen' & Hpr & Hlast).
    exists st'. split; [exact Hloop|]. simpl in Hlen', Hpr.
    split; [rewrite Hlen', Hlen; reflexivity|].
    split; [rewrite Hpr, length_app; simpl; lia|].
    intros r Hr. destruct runs as [|run' runs'].
    + simpl in Hr. injection Hr as <-. simpl in Hloop. injection Hloop as <-.
      exists t1, (l_env st), (l_rewards st). simpl.
      split; [reflexivity|]. split; [exact Hsh|exact Hrun].
    + apply Hlast. rewrite last_cons_cons in Hr. exact Hr.
Qed.
End Succeeds.
End LearningFacts.

(** X19.  The three ways a call of [execute_q_learning] fails on its
    counts, whatever the environment: with [num_runs = 0] the [return]
    reads [stateActionValues], which no run has bound; with at least one
    run and [maxNumIterations = 0] the [print] after the inner loop reads
    the loop variable [i], which was never bound; with at least one run and
    one iteration and [maxNumIterationsQLearning = 0] the first call of
    [q_learning] divides by zero. *)
Theorem execute_q_learning_failures {E H : Type} (environment : Env E H)
    (mdp : FiniteMDP) (draws : nat -> nat -> nat -> draw)
    (maxNumIterations maxNumIterationsQLearning num_runs : nat)
    (stepSizeAlpha explorationProbEpsilon : Q) (e : E) :
  (num_runs = 0%nat ->
   execute_q_learning environment mdp draws maxNumIterations
     maxNumIterationsQLearning stepSizeAlpha explorationProbEpsilon
     num_runs e = UnboundLocalError "stateActionValues") /\
  ((1 <= num_runs)%nat -> maxNumIterations = 0%nat ->
   execute_q_learning environment mdp draws maxNumIterations
     maxNumIterationsQLearning stepSizeAlpha explorationProbEpsilon
     num_runs e = UnboundLocalError "i") /\
  ((1 <= num_runs)%nat -> (1 <= maxNumIterations)%nat ->
   maxNumIterationsQLearning = 0%nat ->
   execute_q_learning environment mdp draws maxNumIterations
     maxNumIterationsQLearning stepSizeAlpha explorationProbEpsilon
     num_runs e = Raised ZeroDivisionError).
Proof.
  split; [|split].
  - intros ->. reflexivity.
  - intros Hruns ->. destruct num_runs as [|k]; [lia|].
    unfold execute_q_learning. rewrite <- cons_seq. reflexivity.
  - intros Hruns Hits ->. destruct num_runs as [|k]; [lia|].
    destruct maxNumIterations as [|m]; [lia|].
    unfold execute_q_learning. rewrite <- cons_seq.
    simpl learning_runs. unfold learning_run. rewrite <- cons_seq.
    simpl fold_left. rewrite learning_turns_Raise. reflexivity.
Qed.

Lemma execute_q_learning_failures_witness :
  execute_q_learning toggle_env toggle_mdp (fun _ _ k => Draw (1 # 2) k)
    0 10 (1 # 10) (1 # 100) 2 0%nat = UnboundLocalError "i" /\
  execute_q_learning toggle_env toggle_mdp (fun _ _ k => Draw (1 # 2) k)
    3 0 (1 # 10) (1 # 100) 2 0%nat = Raised ZeroDivisionError.
Proof.
  destruct (execute_q_learning_failures toggle_env toggle_mdp
              (fun _ _ k => Draw (1 # 2) k) 0 10 2 (1 # 10) (1 # 100) 0%nat)
    as (_ & Hi & _).
  destruct (execute_q_learning_failures toggle_env toggle_mdp
              (fun _ _ k => Draw (1 # 2) k) 3 0 2 (1 # 10) (1 # 100) 0%nat)
    as (_ & _ & Hz).
  split; [apply Hi; [lia|reflexivity]|apply Hz; [lia|lia|reflexivity]].
Defined.

(** X20.  On an environment whose states and reward tensor fit the sizes
    of the class, with at least one action, an exploration probability in
    [[0, 1]] and all three counts at least [1], [execute_q_learning]
    returns: an [S x A] table, a reward curve with one entry per iteration
    and one printed line per run.  The table is the one the last run alone
    built from a zero table: the tables of the earlier runs are dropped. *)
Theorem execute_q_learning_returns {E H : Type} (environment : Env E H)
    (mdp : FiniteMDP) (draws : nat -> nat -> nat -> draw)
    (maxNumIterations maxNumIterationsQLearning num_runs : nat)
    (stepSizeAlpha explorationProbEpsilon : Q) (e : E) :
  fits environment mdp -> (1 <= mdp_A mdp)%nat ->
  0 <= explorationProbEpsilon -> explorationProbEpsilon <= 1 ->
  (1 <= num_runs)%nat -> (1 <= maxNumIterations)%nat ->
  (1 <= maxNumIterationsQLearning)%nat ->
  exists (table : matrix) (curve : vector) (st : learning E),
    execute_q_learning environment mdp draws maxNumIterations
      maxNumIterationsQLearning stepSizeAlpha explorationProbEpsilon
      num_runs e = Returned (table, curve, st) /\
    shape table (mdp_S mdp) (mdp_A mdp) /\
    length curve = maxNumIterations /\
    length (l_printed st) = num_runs /\
    exists (e0 : E) (rewards0 : vector),
      learning_run environment mdp draws maxNumIterations
        maxNumIterationsQLearning stepSizeAlpha explorationProbEpsilon
        (num_runs - 1) e0 rewards0 = Ok (l_env st, l_rewards st, table).
Proof.
  intros Hfit HA H0 H1 Hruns Hits Hturns.
  destruct (learning_runs_Ok environment mdp draws maxNumIterations
              maxNumIterationsQLearning stepSizeAlpha explorationProbEpsilon
              Hfit HA H0 H1 Hturns (seq 0 num_runs) Hits
              (Learning e (zeros maxNumIterations) None []))
    as (st & Hloop & Hlen & Hpr & Hlast).
  destruct (Hlast (num_runs - 1)%nat) as (table & e0 & rw0 & Ht & Hsh & Hrun).
  { destruct num_runs as [|k]; [lia|].
    rewrite seq_S, last_snoc. f_equal. lia. }
  exists table, (map (fun x => x / inject_Z (Z.of_nat num_runs)) (l_rewards st)),
         st.
  split.
  { unfold execute_q_learning. rewrite Hloop, Ht. reflexivity. }
  split; [exact Hsh|].
  split; [rewrite length_map, Hlen; apply length_zeros|].
  split; [rewrite Hpr, length_seq; reflexivity|].
  exists e0, rw0. exact Hrun.
Qed.

Lemma execute_q_learning_returns_witness :
  exists (table : matrix) (curve : vector) (st : learning nat),
    execute_q_learning toggle_env toggle_mdp (fun _ _ k => Draw (1 # 2) k)
      3 2 (1 # 10) (1 # 100) 2 0%nat = Returned (table, curve, st) /\
    length curve = 3%nat.
Proof.
  destruct (execute_q_learning_returns toggle_env toggle_mdp
              (fun _ _ k => Draw (1 # 2) k) 3 2 2 (1 # 10) (1 # 100) 0%nat)
    as (table & curve & st & Hrun & _ & Hlen & _).
  - exact toggle_fits.
  - simpl. lia.
  - discriminate.
  - discriminate.
  - lia.
  - lia.
  - lia.
  - exists table, curve, st. split; assumption.
Defined.

(** ** How chooseAction fails *)

(** X21.  The ways [chooseAction] raises.  An exploration probability
    outside [[0, 1]] is rejected by the Bernoulli draw ([ValueError]),
    whatever the table.  Otherwise, when the draw explores, it raises
    [ValueError] exactly when there is no action to choose from; when the
    draw does not explore, it raises [IndexError] if the table has no row
    for the state and [ValueError] if that row is empty, and returns an
    action in every other case. *)
Theorem chooseAction_errors (mdp : FiniteMDP) (state : nat)
    (stateActionValues : matrix) (eps : Q) (d : draw) :
  (eps < 0 \/ 1 < eps ->
   chooseAction mdp state stateActionValues eps d = Raise ValueError) /\
  (0 <= eps -> eps <= 1 -> d_u d < eps ->
   (mdp_A mdp = 0%nat ->
    chooseAction mdp state stateActionValues eps d = Raise ValueError) /\
   ((1 <= mdp_A mdp)%nat ->
    exists a, chooseAction mdp state stateActionValues eps d = Ok a)) /\
  (0 <= eps -> eps <= 1 -> eps <= d_u d ->
   (stateActionValues !! state = None ->
    chooseAction mdp state stateActionValues eps d = Raise IndexError) /\
   (stateActionValues !! state = Some [] ->
    chooseAction mdp state stateActionValues eps d = Raise ValueError) /\
   (forall values_ : list Q,
      stateActionValues !! state = Some values_ -> values_ <> [] ->
      exists a, chooseAction mdp state stateActionValues eps d = Ok a)).
Proof.
  unfold chooseAction, binomial1. split; [|split].
  - intros [Hlo|Hhi].
    + apply Qltb_lt in Hlo. rewrite Hlo. reflexivity.
    + apply Qltb_lt in Hhi. rewrite Hhi, orb_true_r. reflexivity.
  - intros H0 H1 Hu.
    apply Qltb_ge in H0. apply Qltb_ge in H1. apply Qltb_lt in Hu.
    rewrite H0, H1, Hu. simpl. split.
    + intros ->. reflexivity.
    + intros HA.
      destruct (random_choice_nonempty (seq 0 (mdp_A mdp)) (d_pick d))
        as (a & Ha & _); [rewrite length_seq; lia|].
      exists a. exact Ha.
  - intros H0 H1 Hu.
    apply Qltb_ge in H0. apply Qltb_ge in H1. apply Qltb_ge in Hu.
    rewrite H0, H1, Hu. simpl. unfold row_at. split; [|split].
    + intros ->. reflexivity.
    + intros ->. reflexivity.
    + intros values_ -> Hne. simpl.
      rewrite greedy_actions_maximizers.
      destruct (random_choice_nonempty (maximizers values_) (d_pick d))
        as (a & Ha & _).
      * apply maximizers_nonempty. destruct values_; [contradiction|simpl; lia].
      * exists a. exact Ha.
Qed.

Lemma chooseAction_errors_witness :
  chooseAction toggle_mdp 0 [[1; 3]; [2; 2]] (3 # 2) (Draw (1 # 2) 0) =
    Raise ValueError /\
  chooseAction toggle_mdp 5 [[1; 3]; [2; 2]] (1 # 100) (Draw (1 # 2) 0) =
    Raise IndexError /\
  chooseAction toggle_mdp 1 [[1; 3]; []] (1 # 100) (Draw (1 # 2) 0) =
    Raise ValueError.
Proof.
  split; [|split].
  - apply (proj1 (chooseAction_errors toggle_mdp 0 [[1; 3]; [2; 2]] (3 # 2)
                    (Draw (1 # 2) 0))).
    right. reflexivity.
  - apply (proj2 (proj2 (chooseAction_errors toggle_mdp 5 [[1; 3]; [2; 2]]
                           (1 # 100) (Draw (1 # 2) 0)))).
    + discriminate.
    + discriminate.
    + discriminate.
    + reflexivity.
  - refine (proj1 (proj2 (proj2 (proj2 (chooseAction_errors toggle_mdp 1
              [[1; 3]; []] (1 # 100) (Draw (1 # 2) 0))) _ _ _)) _).
    + discriminate.
    + discriminate.
    + discriminate.
    + reflexivity.
Defined.

